(** * Resilient hierarchical upload: a shallow embedding

    The development embeds the retry executors of
    [sta-sharepoint-upload.js] and [sta-import-zip.js], the directory
    scanner, the folder hierarchy builder, the file upload loop and the
    [run] entry point of the SharePoint upload action, and settles the
    properties the specification states about them.

    Asynchronous code is embedded in a state, error and trace monad: a
    computation takes the program state, may throw a JavaScript error, and
    emits the events (requests, sleeps, log lines, outputs) it performs.
    The remote drive, the clock and the JavaScript built-ins the code calls
    are parameters of the development. *)

From Stdlib Require Import ZArith QArith Qround Lia Ascii String.
From stdpp Require Import gmap strings list fin_maps pretty.

Local Open Scope string_scope.
Local Open Scope Z_scope.
Local Open Scope list_scope.
Local Open Scope stdpp_scope.

(** ** JavaScript values used by the actions *)

Module JS.

(** A JavaScript number as the code meets it: a finite value, [NaN], or an
    infinity. Finite values are rationals; where the code multiplies, the
    product is rounded to a double ([double_round]). *)
Inductive number : Type :=
  | NaN
  | PosInf
  | NegInf
  | Num (q : Q).

Definition of_Z (z : Z) : number := Num (inject_Z z).

(** [Number.isNaN] *)
Definition isNaN (x : number) : bool :=
  match x with NaN => true | _ => false end.

(** [floor (log2 (a / d))] for positive [a] and [d] *)
Definition floor_log2 (a d : Z) : Z :=
  let l := Z.log2 a - Z.log2 d in
  if (if 0 <=? l then d * 2 ^ l <=? a else d <=? a * 2 ^ (- l))
  then l else l - 1.

(** [a / d] rounded to the nearest integer, a tie to the even one *)
Definition round_half_even (a d : Z) : Z :=
  let q := a / d in
  match 2 * (a mod d) ?= d with
  | Lt => q
  | Gt => q + 1
  | Eq => if Z.even q then q else q + 1
  end.

(** The IEEE 754 binary64 value of a rational: the nearest double, a tie to
    the one with an even significand; an infinity when the rounded value
    is beyond the largest double. The value is [m * 2 ^ e] with a
    significand [m] of at most 53 bits and [e] not below [-1074]. *)
Definition double_round (q : Q) : number :=
  let n := Qnum q in
  let d := Z.pos (Qden q) in
  if n =? 0 then of_Z 0
  else
    let a := Z.abs n in
    let e := Z.max (floor_log2 a d - 52) (-1074) in
    let m :=
      if 0 <=? e then round_half_even a (d * 2 ^ e)
      else round_half_even (a * 2 ^ (- e)) d in
    if (971 <? e) || ((e =? 971) && (2 ^ 53 <=? m))
    then (if n <? 0 then NegInf else PosInf)
    else if 0 <=? e then of_Z (Z.sgn n * m * 2 ^ e)
    else Num (Qred (Z.sgn n * m # Z.to_pos (2 ^ (- e)))).

(** [x * k] for a finite positive constant [k]: the product of two
    doubles, rounded *)
Definition times (x : number) (k : Z) : number :=
  match x with
  | Num q => double_round (q * inject_Z k)
  | other => other
  end.

(** [Math.round]: nearest integer, ties towards +Infinity *)
Definition Math_round (x : number) : number :=
  match x with
  | Num q => of_Z (Qfloor (q + (1 # 2)))
  | other => other
  end.

(** [x - z] for a finite integer [z] *)
Definition minus (x : number) (z : Z) : number :=
  match x with
  | Num q => Num (q - inject_Z z)
  | other => other
  end.

(** [x > 0] *)
Definition gt0 (x : number) : bool :=
  match x with
  | NaN | NegInf => false
  | PosInf => true
  | Num q => negb (Qle_bool q 0)
  end.

(** [Math.max(0, x)] *)
Definition Math_max0 (x : number) : number :=
  match x with
  | NaN => NaN
  | PosInf => PosInf
  | NegInf => of_Z 0
  | Num q => if Qle_bool q 0 then of_Z 0 else Num q
  end.

(** [s.includes(sub)] *)
Fixpoint includes (sub s : string) : bool :=
  if String.prefix sub s then true
  else match s with
       | EmptyString => false
       | String _ s' => includes sub s'
       end.

(** [s.split('/')]: never empty, [''.split('/')] is [['']]. *)
Fixpoint split_slash (s : string) : list string :=
  match s with
  | EmptyString => [""]
  | String c s' =>
      if Ascii.eqb c "/"%char then "" :: split_slash s'
      else match split_slash s' with
           | h :: t => String c h :: t
           | [] => [String c ""]
           end
  end.

(** [l.join(sep)] *)
Fixpoint join (sep : string) (l : list string) : string :=
  match l with
  | [] => ""
  | [x] => x
  | x :: r => x +:+ sep +:+ join sep r
  end.

Fixpoint drop_chars (n : nat) (s : string) : string :=
  match n, s with
  | O, _ => s
  | S n', String _ s' => drop_chars n' s'
  | S _, EmptyString => EmptyString
  end.

(** [s.replace(pat, '')] with a string pattern: the first occurrence of
    [pat] is removed. *)
Fixpoint remove_first (pat s : string) : string :=
  if String.prefix pat s then drop_chars (String.length pat) s
  else match s with
       | EmptyString => EmptyString
       | String c s' => String c (remove_first pat s')
       end.

(** Truthiness of a string: only [''] is falsy. *)
Definition truthy (s : string) : bool :=
  match s with EmptyString => false | _ => true end.

(** [String(n)] and [`${n}`] for an integer *)
Definition String_of_Z (z : Z) : string := pretty z.
Definition String_of_nat (n : nat) : string := pretty n.

End JS.

Import JS.

(** ** HTTP responses and thrown errors *)

Record DriveItem : Type := { item_id : string }.

(** The JSON bodies the code reads: [null], or an object of which the code
    reads [id] (a missing [id] is the string it interpolates to) and
    [value]. *)
Inductive Json : Type :=
  | JNull
  | JObject (id : string) (value : option (list DriveItem)).

Record Response : Type := {
  resp_status : Z;
  resp_statusText : string;
  resp_retryAfter : option string;   (* headers.get('Retry-After') *)
  resp_text : string;                (* await res.text() *)
  resp_json : option Json            (* await res.json(); None: it rejects *)
}.

(** [res.ok] of the Fetch API *)
Definition resp_ok (r : Response) : bool :=
  (200 <=? resp_status r) && (resp_status r <=? 299).

Record Error : Type := {
  err_name : string;
  err_message : string;
  err_response : option Response
}.

Definition new_Error (msg : string) : Error :=
  {| err_name := "Error"; err_message := msg; err_response := None |}.

Definition GraphApiError (msg : string) (r : Response) : Error :=
  {| err_name := "GraphApiError"; err_message := msg; err_response := Some r |}.

Definition HttpError (msg : string) (r : Response) : Error :=
  {| err_name := "HttpError"; err_message := msg; err_response := Some r |}.

Inductive Method : Type := GET | POST | PUT.

Inductive Body : Type :=
  | NoBody
  | CreateFolderBody (name : string) (conflictBehavior : string)
  | FileStream (path : string).

(** The [init] argument of [fetch]: method, bearer token of the
    [Authorization] header, [Content-Type] header when set, and body. *)
Record Init : Type := {
  init_method : Method;
  init_token : string;
  init_contentType : option string;
  init_body : Body
}.

Record Request : Type := { req_url : string; req_init : Init }.

Inductive FetchOutcome : Type :=
  | Rejected (e : Error)
  | Responded (r : Response).

(** ** The upload report and the scanned source structure (module globals) *)

Record UploadReport : Type := {
  uploads : nat;
  uploadList : list string;
  failures : nat;
  failedList : list string;
  failedFolderCreations : nat;
  lockedFiles : nat
}.

Definition uploadReport0 : UploadReport :=
  {| uploads := 0; uploadList := []; failures := 0; failedList := [];
     failedFolderCreations := 0; lockedFiles := 0 |}.

Record SourceItem : Type := { src_name : string; src_path : string }.

Record SourceStructure : Type := {
  folders : list SourceItem;
  files : list SourceItem
}.

Definition sourceStructure0 : SourceStructure :=
  {| folders := []; files := [] |}.

(** ** Events *)

(** What the hierarchy builder holds when it posts a folder: the path it
    creates, the parent id it posts under, and its cache at that moment. *)
Record Creation : Type := {
  cr_path : string;
  cr_parentId : string;
  cr_cache : gmap string string
}.

Inductive Level : Type := Debug | Info | Warning.

#[warnings="-register-all"]
Inductive Event : Type :=
  (* a request and its outcome; [note] is set on the folder creations of
     the hierarchy builder *)
  | EvFetch (req : Request) (out : FetchOutcome) (note : option Creation)
  | EvSleep (ms : number)
  | EvCore (lvl : Level)
  | EvSetOutput (name value : string)
  (* one invocation of the operation by a retry executor, with the events
     the operation emitted *)
  | EvAttempt (attempt : Z) (inner : list Event).

Definition Trace := list Event.

Inductive Result (A : Type) : Type :=
  | Ok (a : A)
  | Throw (e : Error).
Arguments Ok {A} a.
Arguments Throw {A} e.

(** ** The host: remote drive, clock and built-ins

    [fetch_step] is the remote drive API as seen through [fetch]: it may
    reject (a network failure) or respond, and changes the world.
    [sleep_step] is the passing of time during [setTimeout]. The retry
    settings are the module constants read from the environment. *)

Class Host : Type := {
  World : Type;
  fetch_step : Request -> World -> FetchOutcome * World;
  sleep_step : number -> World -> World;
  Date_now : World -> Z;
  parseFloat : string -> number;
  Date_parse : string -> number;
  parseInt10 : string -> number;
  mime_lookup : string -> option string;
  UPLOAD_MAX_RETRIES : Z;
  UPLOAD_BASE_DELAY : Z;
  DOWNLOAD_MAX_RETRIES : Z;
  DOWNLOAD_BASE_DELAY : Z
}.

Section Engine.
Context `{host : Host}.

Record State : Type := mkState {
  st_world : World;
  st_report : UploadReport;       (* the global uploadReport *)
  st_source : SourceStructure     (* the global sourceStructure *)
}.

(** ** The monad of the embedding *)

Definition M (A : Type) : Type := State -> Result A * State * Trace.

Definition ret {A} (a : A) : M A := fun s => (Ok a, s, []).

Definition bind {A B} (m : M A) (k : A -> M B) : M B :=
  fun s =>
    match m s with
    | (Ok a, s1, t1) => let '(r, s2, t2) := k a s1 in (r, s2, t1 ++ t2)
    | (Throw e, s1, t1) => (Throw e, s1, t1)
    end.

Definition throw {A} (e : Error) : M A := fun s => (Throw e, s, []).

(** [try { m } catch (error) { h error }] *)
Definition try_catch {A} (m : M A) (h : Error -> M A) : M A :=
  fun s =>
    match m s with
    | (Ok a, s1, t1) => (Ok a, s1, t1)
    | (Throw e, s1, t1) => let '(r, s2, t2) := h e s1 in (r, s2, t1 ++ t2)
    end.

(** [try { m } finally { f }] *)
Definition try_finally {A} (m : M A) (f : M unit) : M A :=
  fun s =>
    let '(r, s1, t1) := m s in
    match f s1 with
    | (Ok _, s2, t2) => (r, s2, t1 ++ t2)
    | (Throw e, s2, t2) => (Throw e, s2, t1 ++ t2)
    end.

Definition emit (ev : Event) : M unit := fun s => (Ok tt, s, [ev]).

Definition get_state : M State := fun s => (Ok s, s, []).

Definition modify_report (f : UploadReport -> UploadReport) : M unit :=
  fun s => (Ok tt, mkState (st_world s) (f (st_report s)) (st_source s), []).

Definition modify_source (f : SourceStructure -> SourceStructure) : M unit :=
  fun s => (Ok tt, mkState (st_world s) (st_report s) (f (st_source s)), []).

End Engine.

Notation "'let*' x ':=' m 'in' k" := (bind m (fun x => k))
  (at level 10, x name, m at level 100, k at level 200).
Notation "m ';;' k" := (bind m (fun _ => k))
  (at level 100, k at level 200, right associativity).

Section Primitives.
Context `{host : Host}.

(** [for (const x of l) { body x }] *)
Fixpoint for_of {A} (l : list A) (body : A -> M unit) : M unit :=
  match l with
  | [] => ret tt
  | x :: r => body x ;; for_of r body
  end.

(** a [for ... of] loop that threads the variables it assigns *)
Fixpoint for_of_with {A V} (l : list A) (v : V) (body : V -> A -> M V) : M V :=
  match l with
  | [] => ret v
  | x :: r => let* v' := body v x in for_of_with r v' body
  end.

Definition fetch_noted (note : option Creation) (url : string) (init : Init)
  : M Response :=
  fun s =>
    let req := {| req_url := url; req_init := init |} in
    let '(out, w) := fetch_step req (st_world s) in
    (match out with Rejected e => Throw e | Responded r => Ok r end,
     mkState w (st_report s) (st_source s),
     [EvFetch req out note]).

Definition fetch (url : string) (init : Init) : M Response :=
  fetch_noted None url init.

Definition sleep (ms : number) : M unit :=
  fun s =>
    (Ok tt, mkState (sleep_step ms (st_world s)) (st_report s) (st_source s),
     [EvSleep ms]).

Definition core_debug : M unit := emit (EvCore Debug).
Definition core_info : M unit := emit (EvCore Info).
Definition core_warning : M unit := emit (EvCore Warning).
Definition core_setOutput (name value : string) : M unit :=
  emit (EvSetOutput name value).

(** [await res.json()] *)
Definition res_json (res : Response) : M Json :=
  match resp_json res with
  | Some j => ret j
  | None =>
      throw {| err_name := "SyntaxError";
               err_message := "Unexpected end of JSON input";
               err_response := None |}
  end.

(** ** getRetryAfterDelay (both actions carry the same function)

    [now] is the value [Date.now()] has when the function runs. *)
Definition getRetryAfterDelay (now : Z) (response : Response) : option number :=
  match resp_retryAfter response with
  | None => None
  | Some retryAfter =>
      if negb (truthy retryAfter) then None
      else
        let millisToSleep := Math_round (times (parseFloat retryAfter) 1000) in
        if isNaN millisToSleep then
          let parsedDate := Date_parse retryAfter in
          if isNaN parsedDate then None
          else
            let millisToSleep := Math_max0 (minus parsedDate now) in
            if gt0 millisToSleep then Some millisToSleep else None
        else
          if gt0 millisToSleep then Some millisToSleep else None
  end.

(** ** The retry loop shared by retryUploadOperation and
    retryDownloadOperation

    The two functions differ in how a caught error is classified, in the
    base delay and in the wording of the messages; the loop is the same. *)

Section RetryLoop.
Context {A : Type}.
Variable classify : Z -> Error -> bool * option number.
Variable baseDelay : Z.
Variable label : string.
Variable operation : M A.
Variable context : string.
Variable maxRetries : Z.

(** [retryAfterDelay !== null ? retryAfterDelay : base * (2 ** attempt)] *)
Definition waitTime (attempt : Z) (retryAfterDelay : option number) : number :=
  match retryAfterDelay with
  | Some d => d
  | None => of_Z (baseDelay * 2 ^ attempt)
  end.

(** the operation is invoked; its events are kept under one [EvAttempt] *)
Definition invoke (attempt : Z) : M (Result A) :=
  fun s => let '(r, s1, t1) := operation s in (Ok r, s1, [EvAttempt attempt t1]).

(** the retry branch of the catch block: log, then sleep *)
Definition pause (attempt : Z) (retryAfterDelay : option number) : M unit :=
  core_info ;; sleep (waitTime attempt retryAfterDelay).

Definition exhausted : Error :=
  new_Error (label +:+ " operation failed after "
             +:+ String_of_Z (maxRetries + 1) +:+ " attempts for " +:+ context).

(** [remaining] counts the iterations the condition [attempt <= maxRetries]
    still allows. *)
Fixpoint retry_loop (remaining : nat) (attempt : Z) (lastError : option Error)
  : M A :=
  match remaining with
  | O => throw (default exhausted lastError)
  | S remaining' =>
      let* r := invoke attempt in
      match r with
      | Ok result =>
          (if 0 <? attempt then core_info else ret tt) ;;
          ret result
      | Throw error =>
          let* s := get_state in
          let '(isRetryable, retryAfterDelay) :=
            classify (Date_now (st_world s)) error in
          if (attempt <? maxRetries) && isRetryable then
            pause attempt retryAfterDelay ;;
            retry_loop remaining' (attempt + 1) (Some error)
          else
            throw error
      end
  end.

Definition retry : M A := retry_loop (Z.to_nat (maxRetries + 1)) 0 None.

End RetryLoop.

(** ** retryUploadOperation (sta-sharepoint-upload.js) *)

Definition upload_retryableStatuses : list Z := [429; 500; 502; 503; 504].

Definition upload_classify (now : Z) (error : Error) : bool * option number :=
  match String.eqb (err_name error) "GraphApiError", err_response error with
  | true, Some response =>
      let isRetryable :=
        existsb (Z.eqb (resp_status response)) upload_retryableStatuses in
      (isRetryable,
       if isRetryable then getRetryAfterDelay now response else None)
  | _, _ =>
      if truthy (err_message error)
         && includes "fetch failed" (err_message error)
      then (true, None)
      else
        (truthy (err_message error)
         && existsb (fun status =>
                       includes ("Graph API error " +:+ String_of_Z status)
                                (err_message error))
                    upload_retryableStatuses,
         None)
  end.

Definition retryUploadOperation {A} (operation : M A) (context : string)
    (maxRetries : Z) : M A :=
  retry upload_classify UPLOAD_BASE_DELAY "Upload" operation context maxRetries.

(** ** retryDownloadOperation (sta-import-zip.js) *)

Definition download_retryableStatuses : list Z :=
  [429; 502; 503; 504; 520; 521; 522; 523; 524].

Definition download_classify (now : Z) (error : Error) : bool * option number :=
  if String.eqb (err_name error) "TypeError" then (true, None)
  else
    match String.eqb (err_name error) "HttpError", err_response error with
    | true, Some response =>
        let isRetryable :=
          existsb (Z.eqb (resp_status response)) download_retryableStatuses in
        (isRetryable,
         if isRetryable then getRetryAfterDelay now response else None)
    | _, _ =>
        (truthy (err_message error)
         && existsb (fun status =>
                       includes (String_of_Z status) (err_message error))
                    download_retryableStatuses,
         None)
    end.

Definition retryDownloadOperation {A} (operation : M A) (context : string)
    (maxRetries : Z) : M A :=
  retry download_classify DOWNLOAD_BASE_DELAY "Download" operation context
        maxRetries.

(** ** graphFetch and graphFetchWithRetry *)

Definition GRAPH_API : string := "https://graph.microsoft.com/v1.0".

(** [uploadReport.lockedFiles += 1] *)
Definition bump_lockedFiles (r : UploadReport) : UploadReport :=
  {| uploads := uploads r; uploadList := uploadList r;
     failures := failures r; failedList := failedList r;
     failedFolderCreations := failedFolderCreations r;
     lockedFiles := lockedFiles r + 1 |}.

Definition default_init (token : string) : Init :=
  {| init_method := GET; init_token := token;
     init_contentType := None; init_body := NoBody |}.

Definition graphFetch (token endpoint : string) (initOptions : option Init)
  : M Json :=
  let init :=
    default (default_init token) initOptions in
  core_debug ;;
  let* res := fetch (GRAPH_API +:+ endpoint) init in
  if negb (resp_ok res) then
    (if resp_status res =? 423
     then modify_report bump_lockedFiles
     else ret tt) ;;
    let errorText := resp_text res in
    throw (GraphApiError
             ("Graph API error " +:+ String_of_Z (resp_status res)
              +:+ ": " +:+ errorText) res)
  else res_json res.

Definition graphFetchWithRetry (token endpoint : string)
    (initOptions : option Init) : M Json :=
  retryUploadOperation (graphFetch token endpoint initOptions) endpoint
                       UPLOAD_MAX_RETRIES.

(** ** uploadFileWithRetry *)

Record UploadFile : Type := {
  file_name : string;
  file_path : string;
  file_relative : string
}.

Definition upload_endpoint (driveId folderId : string) (file : UploadFile)
  : string :=
  "/drives/" +:+ driveId +:+ "/items/" +:+ folderId +:+ ":"
  +:+ file_relative file +:+ ":/content".

Definition upload_init (accessToken mimeType : string) (fileStream : Body)
  : Init :=
  {| init_method := PUT; init_token := accessToken;
     init_contentType := Some mimeType; init_body := fileStream |}.

Definition uploadFileWithRetry (accessToken driveId folderId : string)
    (file : UploadFile) : M bool :=
  try_catch
    (retryUploadOperation
       (let fileStream := FileStream (file_path file) in
        let mimeType :=
          default "application/octet-stream" (mime_lookup (file_path file)) in
        core_debug ;;
        graphFetch accessToken (upload_endpoint driveId folderId file)
          (Some (upload_init accessToken mimeType fileStream)) ;;
        core_debug)
       (file_path file) UPLOAD_MAX_RETRIES ;;
     ret true)
    (fun error => core_warning ;; ret false).

(** ** createFoldersIfNecessary *)

Record SourceFolder : Type := { folder_name : string; folder_path : string }.

(** The variables of the segment loop: [currentPath] ([None] while it is
    undefined), [parentId], and the [folderMap] shared by all folders. *)
Record Walk : Type := mkWalk {
  w_currentPath : option string;
  w_parentId : string;
  w_folderMap : gmap string string
}.

(** [currentPath ? `${currentPath}/${segment}` : segment] *)
Definition next_path (currentPath : option string) (segment : string) : string :=
  match currentPath with
  | Some p => if truthy p then p +:+ "/" +:+ segment else segment
  | None => segment
  end.

Definition bump_failedFolderCreations (r : UploadReport) : UploadReport :=
  {| uploads := uploads r; uploadList := uploadList r;
     failures := failures r; failedList := failedList r;
     failedFolderCreations := failedFolderCreations r + 1;
     lockedFiles := lockedFiles r |}.

Definition create_url (driveId parentId : string) : string :=
  GRAPH_API +:+ "/drives/" +:+ driveId +:+ "/items/" +:+ parentId
  +:+ "/children".

Definition children_endpoint (driveId parentId segment : string) : string :=
  "/drives/" +:+ driveId +:+ "/items/" +:+ parentId
  +:+ "/children?$filter=name eq '" +:+ segment +:+ "'".

Definition create_init (accessToken segment : string) : Init :=
  {| init_method := POST; init_token := accessToken;
     init_contentType := Some "application/json";
     init_body := CreateFolderBody segment "fail" |}.

(** what follows the creation request: the response [res] is examined *)
Definition folder_response (accessToken driveId : string) (delay : number)
    (currentPath parentId : string) (folderMap : gmap string string)
    (segment : string) (res : Response) : M Walk :=
  if resp_ok res then
    let* data := res_json res in
    match data with
    | JNull =>
        throw {| err_name := "TypeError";
                 err_message := "Cannot read properties of null (reading 'id')";
                 err_response := None |}
    | JObject id _ =>
        ret (mkWalk (Some currentPath) id (<[currentPath := id]> folderMap))
    end
  else if resp_status res =? 409 then
    let* existing :=
      graphFetchWithRetry accessToken
        (children_endpoint driveId parentId segment) None in
    match existing with
    | JNull | JObject _ None | JObject _ (Some []) =>
        core_warning ;;
        throw (new_Error ("Failed to get data for existing folder "
                          +:+ currentPath +:+ ". Upload is aborted."))
    | JObject _ (Some [item]) =>
        let id := item_id item in
        sleep delay ;;
        ret (mkWalk (Some currentPath) id (<[currentPath := id]> folderMap))
    | JObject _ (Some _) =>
        core_warning ;;
        throw (new_Error ("Found multiple existing folders for "
                          +:+ currentPath +:+ ". Upload is aborted."))
    end
  else
    core_warning ;;
    modify_report bump_failedFolderCreations ;;
    throw (new_Error ("Failed to create folder " +:+ currentPath
                      +:+ ". Upload is aborted.")).

(** the [else] branch of the segment loop: the path is not in the map *)
Definition create_folder (accessToken driveId : string) (delay : number)
    (currentPath parentId : string) (folderMap : gmap string string)
    (segment : string) : M Walk :=
  let* res :=
    fetch_noted
      (Some {| cr_path := currentPath; cr_parentId := parentId;
               cr_cache := folderMap |})
      (create_url driveId parentId) (create_init accessToken segment) in
  folder_response accessToken driveId delay currentPath parentId folderMap
                  segment res.

(** the body of [for (const segment of segments)] *)
Definition walk_segment (accessToken driveId : string) (delay : number)
    (w : Walk) (segment : string) : M Walk :=
  let currentPath := next_path (w_currentPath w) segment in
  let parentId := w_parentId w in
  let folderMap := w_folderMap w in
  match folderMap !! currentPath with
  | Some id => ret (mkWalk (Some currentPath) id folderMap)
  | None =>
      create_folder accessToken driveId delay currentPath parentId folderMap
                    segment
  end.

(** the body of [for (const folder of sourceFolders)]: the variables are
    reset, the map is kept *)
Definition walk_folder (accessToken driveId folderId : string) (delay : number)
    (folderMap : gmap string string) (folder : SourceFolder)
  : M (gmap string string) :=
  let segments := split_slash (folder_path folder) in
  let* w := for_of_with segments (mkWalk None folderId folderMap)
              (walk_segment accessToken driveId delay) in
  ret (w_folderMap w).

(** the loop over [sourceFolders]; the final map is what the local
    [folderMap] holds when the function returns *)
Definition createFolders_map (accessToken driveId folderId : string)
    (sourceFolders : list SourceFolder) (delay : number)
  : M (gmap string string) :=
  let folderMap : gmap string string := <["" := folderId]> ∅ in
  for_of_with sourceFolders folderMap
    (walk_folder accessToken driveId folderId delay).

(** the function returns nothing: the map is dropped *)
Definition createFoldersIfNecessary (accessToken driveId folderId : string)
    (sourceFolders : list SourceFolder) (delay : number) : M unit :=
  createFolders_map accessToken driveId folderId sourceFolders delay ;;
  ret tt.

(** ** populateSourceStructure

    The local tree as [fs.readdirSync(dir, { withFileTypes: true })] lists
    it: every entry is a directory (with its own entries), a regular file,
    or something else (a symbolic link, a socket, ...). *)

#[warnings="-register-all"]
Inductive Dirent : Type :=
  | DirEntry (name : string) (entries : list Dirent)
  | FileEntry (name : string)
  | OtherEntry (name : string).

(** [path.posix.normalize]. The segments between slashes are read from
    left to right onto a stack, the last segment on top: an empty
    segment and [.] are dropped, [..] removes the segment on top, or is
    kept where there is none to remove and the path is relative. *)
Definition normalize_step (allowAboveRoot : bool) (stack : list string)
    (segment : string) : list string :=
  if String.eqb segment "" || String.eqb segment "." then stack
  else if String.eqb segment ".." then
    match stack with
    | top :: rest =>
        if String.eqb top ".."
        then (if allowAboveRoot then ".." :: stack else stack)
        else rest
    | [] => if allowAboveRoot then [".."] else []
    end
  else segment :: stack.

(** [s.charCodeAt(s.length - 1) === c] *)
Fixpoint last_char_is (c : ascii) (s : string) : bool :=
  match s with
  | EmptyString => false
  | String a EmptyString => Ascii.eqb a c
  | String _ s' => last_char_is c s'
  end.

Definition path_normalize (path : string) : string :=
  if String.eqb path "" then "."
  else
    let isAbsolute := String.prefix "/" path in
    let trailingSeparator := last_char_is "/" path in
    let normalized :=
      join "/" (rev (fold_left (normalize_step (negb isAbsolute))
                               (split_slash path) [])) in
    if String.eqb normalized "" then
      if isAbsolute then "/" else if trailingSeparator then "./" else "."
    else
      (if isAbsolute then "/" else "")
      +:+ normalized +:+ (if trailingSeparator then "/" else "").

(** [path.join(srcFolder, name)] (POSIX): the arguments that are not empty,
    joined by [/] and normalised *)
Definition path_join (srcFolder name : string) : string :=
  path_normalize
    (if truthy srcFolder
     then (if truthy name then srcFolder +:+ "/" +:+ name else srcFolder)
     else name).

Definition push_folder (it : SourceItem) (ss : SourceStructure)
  : SourceStructure :=
  {| folders := folders ss ++ [it]; files := files ss |}.

Definition push_file (it : SourceItem) (ss : SourceStructure)
  : SourceStructure :=
  {| folders := folders ss; files := files ss ++ [it] |}.

(** the body of [for (const entry of entries)]; the recursive call
    [populateSourceStructure(fullPath)] is the inner loop over the
    directory's entries *)
Fixpoint scan_entry (srcFolder : string) (entry : Dirent) : M unit :=
  let fullPath :=
    path_join srcFolder
      match entry with
      | DirEntry name _ | FileEntry name | OtherEntry name => name
      end in
  match entry with
  | DirEntry name entries =>
      core_debug ;;
      modify_source (push_folder {| src_name := name; src_path := fullPath |}) ;;
      (core_debug ;;
       (fix loop (l : list Dirent) : M unit :=
          match l with
          | [] => ret tt
          | e :: r => scan_entry fullPath e ;; loop r
          end) entries ;;
       core_debug)
  | FileEntry name =>
      core_debug ;;
      modify_source (push_file {| src_name := name; src_path := fullPath |})
  | OtherEntry name => core_debug
  end.

Definition no_items_message (srcFolder : string) : string :=
  "No upload items found in " +:+ srcFolder
  +:+ ". Ensure the zip file contains valid content.".

Definition populateSourceStructure (srcFolder : string)
    (entries : list Dirent) (isTopLevel : bool) : M unit :=
  core_debug ;;
  if isTopLevel && (length entries =? 0)%nat then
    throw (new_Error (no_items_message srcFolder))
  else
    for_of entries (scan_entry srcFolder) ;;
    core_debug.

(** ** uploadFiles *)

Definition record_upload (item : UploadFile) (r : UploadReport) : UploadReport :=
  {| uploads := uploads r + 1;
     uploadList := uploadList r ++ [file_relative item];
     failures := failures r; failedList := failedList r;
     failedFolderCreations := failedFolderCreations r;
     lockedFiles := lockedFiles r |}.

Definition record_failure (item : UploadFile) (r : UploadReport) : UploadReport :=
  {| uploads := uploads r; uploadList := uploadList r;
     failures := failures r + 1;
     failedList := failedList r ++ [file_path item];
     failedFolderCreations := failedFolderCreations r;
     lockedFiles := lockedFiles r |}.

Definition upload_one (accessToken driveId folderId : string) (delay : number)
    (item : UploadFile) : M unit :=
  let* success := uploadFileWithRetry accessToken driveId folderId item in
  (if success : bool
   then modify_report (record_upload item)
   else modify_report (record_failure item)) ;;
  sleep delay.

Definition uploadFiles (accessToken driveId folderId : string)
    (sourceFiles : list UploadFile) (delay : number) : M unit :=
  for_of sourceFiles (upload_one accessToken driveId folderId delay).

(** ** run *)

Record Inputs : Type := {
  access_token : string;
  drive_id : string;
  folder_id : string;
  zip_contents_path : string;
  delay_input : string
}.

Definition to_folder (docsDir : string) (folder : SourceItem) : SourceFolder :=
  {| folder_name := src_name folder;
     folder_path := remove_first docsDir (src_path folder) |}.

Definition to_file (docsDir : string) (nextFile : SourceItem) : UploadFile :=
  {| file_name := src_name nextFile;
     file_path := src_path nextFile;
     file_relative := remove_first docsDir (src_path nextFile) |}.

Definition some_failed_message : string :=
  "❌ Upload Error: Some uploads failed. Check the workflow for more details.".

Definition missing_dir_message (docsDir : string) : string :=
  "Directory " +:+ docsDir +:+
  " was not found and no files were uploaded. Check zip contents and ensure it contains valid content.".

(** the [try] block up to the end of the folder phase *)
Definition run_prepare (accessToken driveId folderId docsDir : string)
    (delay : number) (docs : option (list Dirent)) : M unit :=
  let* entries :=
    match docs with
    | None => throw (new_Error (missing_dir_message docsDir))
    | Some entries => ret entries
    end in
  populateSourceStructure docsDir entries true ;;
  let* s := get_state in
  core_info ;;
  createFoldersIfNecessary accessToken driveId folderId
    (map (to_folder docsDir) (folders (st_source s))) delay.

(** the upload phase of the [try] block *)
Definition run_upload (accessToken driveId folderId docsDir : string)
    (delay : number) : M unit :=
  let* s := get_state in
  core_info ;;
  uploadFiles accessToken driveId folderId
    (map (to_file docsDir) (files (st_source s))) delay.

(** the [try] block up to the end of the upload phase *)
Definition run_phases (accessToken driveId folderId docsDir : string)
    (delay : number) (docs : option (list Dirent)) : M unit :=
  run_prepare accessToken driveId folderId docsDir delay docs ;;
  run_upload accessToken driveId folderId docsDir delay.

(** the last statement of the [try] block *)
Definition run_check : M unit :=
  let* s := get_state in
  let uploadReport := st_report s in
  if (0 <? failures uploadReport)%nat
     || (0 <? length (failedList uploadReport))%nat
  then core_setOutput "error_message" some_failed_message
  else ret tt.

(** the [try] block *)
Definition run_try (accessToken driveId folderId docsDir : string)
    (delay : number) (docs : option (list Dirent)) : M unit :=
  run_phases accessToken driveId folderId docsDir delay docs ;;
  run_check.

(** the [catch] block *)
Definition run_catch (error : Error) : M unit :=
  core_warning ;;
  core_setOutput "error_message" ("❌ Upload Error: " +:+ err_message error).

(** the [finally] block *)
Definition run_finally : M unit :=
  let* s := get_state in
  let uploadReport := st_report s in
  core_info ;;
  core_setOutput "upload_successes" (String_of_nat (uploads uploadReport)) ;;
  core_setOutput "upload_list" (join ", " (uploadList uploadReport)) ;;
  core_setOutput "upload_failures" (String_of_nat (failures uploadReport)) ;;
  core_setOutput "upload_failed_list" (join ", " (failedList uploadReport)) ;;
  core_setOutput "upload_failed_locked"
    (String_of_nat (lockedFiles uploadReport)).

(** [docs] is the directory [docsDir] on disk: [None] when
    [fs.existsSync(docsDir)] is false, otherwise its entries. *)
Definition run (inputs : Inputs) (docs : option (list Dirent)) : M unit :=
  let accessToken := access_token inputs in
  let driveId := drive_id inputs in
  let folderId := folder_id inputs in
  let zipContentsPath := zip_contents_path inputs in
  let delay := parseInt10 (delay_input inputs) in
  let docsDir := zipContentsPath +:+ "/docx" in
  core_info ;;
  try_finally
    (try_catch
       (run_try accessToken driveId folderId docsDir delay docs)
       run_catch)
    run_finally.

(** the state the module starts [run] in *)
Definition initial_state (w : World) : State :=
  mkState w uploadReport0 sourceStructure0.

End Primitives.

(** ** fetchZip and fetchZipWithRetry (sta-import-zip.js)

    [store] stands for the [try] block of [fetchZip], which writes the
    response body to [zipDestination] and validates the archive. *)

Section Download.
Context `{host : Host}.
Variable store : string -> Response -> M unit.

Definition fetchZip (downloadUrl zipDestination : string) : M unit :=
  let* response :=
    fetch downloadUrl
      {| init_method := GET; init_token := ""; init_contentType := None;
         init_body := NoBody |} in
  if negb (resp_ok response) then
    throw (HttpError
             ("Failed to download zip. Check if the url expired and try again. Contact support if the problem persists. "
              +:+ String_of_Z (resp_status response) +:+ " "
              +:+ resp_statusText response) response)
  else
    try_catch
      (store zipDestination response ;; core_info)
      (fun error =>
         throw (new_Error ("Failed to download zip: " +:+ err_message error))).

Definition fetchZipWithRetry (downloadUrl zipDestination : string) : M unit :=
  retryDownloadOperation (fetchZip downloadUrl zipDestination) downloadUrl
                         DOWNLOAD_MAX_RETRIES.

End Download.

(** ** Observations on traces *)

(** the invocations a retry executor made: the [EvAttempt] nodes at the top
    of its trace *)
Definition is_attempt (ev : Event) : bool :=
  match ev with EvAttempt _ _ => true | _ => false end.

Definition attempts (t : Trace) : nat := length (List.filter is_attempt t).

(** the leaf events of an event, each with a flag telling whether it was
    emitted inside an invocation made by a retry executor *)
Fixpoint leaves_of (inside : bool) (ev : Event) : list (bool * Event) :=
  match ev with
  | EvAttempt _ inner =>
      (fix go (l : list Event) : list (bool * Event) :=
         match l with
         | [] => []
         | e :: r => leaves_of true e ++ go r
         end) inner
  | _ => [(inside, ev)]
  end.

Definition leaves (inside : bool) (t : Trace) : list (bool * Event) :=
  flat_map (leaves_of inside) t.

(** the requests of a run, inside or outside an executor *)
Definition request_of (x : bool * Event) : option (bool * Request) :=
  match x with
  | (b, EvFetch req _ _) => Some (b, req)
  | _ => None
  end.

Definition requests (t : Trace) : list (bool * Request) :=
  omap request_of (leaves false t).

(** the values handed to [core.setOutput], in order *)
Definition output_of (x : bool * Event) : option (string * string) :=
  match x with
  | (_, EvSetOutput name value) => Some (name, value)
  | _ => None
  end.

Definition outputs (t : Trace) : list (string * string) :=
  omap output_of (leaves false t).

(** the folder creations the hierarchy builder attempted *)
Definition creation_of (x : bool * Event) : option Creation :=
  match x with
  | (_, EvFetch _ _ note) => note
  | _ => None
  end.

Definition creations (t : Trace) : list Creation :=
  omap creation_of (leaves false t).



(** The parent of a [/]-joined path: what precedes its last [/], the root
    path [""] when it has none. *)
Fixpoint parent_path (p : string) : string :=
  match p with
  | EmptyString => EmptyString
  | String c p' =>
      if includes "/" p' then String c (parent_path p') else EmptyString
  end.

Definition no_slash (segment : string) : Prop := includes "/" segment = false.

(** the parent of the created path is in the cache, under the id the
    request is posted to *)
Definition parent_cached (c : Creation) : Prop :=
  cr_cache c !! parent_path (cr_path c) = Some (cr_parentId c).

(** every cached path has its parent cached: the cache is closed under
    taking ancestors *)
Definition closed (fm : gmap string string) : Prop :=
  forall p, is_Some (fm !! p) -> is_Some (fm !! parent_path p).

(** the root path is cached under the root folder id *)
Definition root_cached (folderId : string) (fm : gmap string string) : Prop :=
  fm !! "" = Some folderId /\ closed fm.

(** the variables of the segment loop agree with the cache *)
Definition WalkInv (folderId : string) (w : Walk) : Prop :=
  w_folderMap w !! default "" (w_currentPath w) = Some (w_parentId w)
  /\ root_cached folderId (w_folderMap w).

(** a creation the builder may make: the path is not cached, its parent is,
    and the cache holds the root and is closed *)
Definition sound_creation (folderId : string) (c : Creation) : Prop :=
  parent_cached c
  /\ cr_cache c !! cr_path c = None
  /\ root_cached folderId (cr_cache c).

(** What a part of the builder that starts with cache [fm] has done when it
    ends with result [r] and trace [t]: every creation satisfies [C], no
    path was created twice or while it was in [fm], and on return the cache
    (read off the value by [get]) has grown by the created paths and
    satisfies [I]. *)
Definition built {V} (C : Creation -> Prop) (get : V -> gmap string string)
    (I : V -> Prop) (fm : gmap string string) (r : Result V) (t : Trace)
  : Prop :=
  Forall C (creations t)
  /\ NoDup (map cr_path (creations t))
  /\ (forall c, c ∈ creations t -> fm !! cr_path c = None)
  /\ (forall v, r = Ok v ->
        I v /\ fm ⊆ get v
        /\ forall c, c ∈ creations t -> is_Some (get v !! cr_path c)).

(** a POST request is a folder creation posted under the id its note
    records *)
Definition noted_create (driveId : string) (x : bool * Event) : Prop :=
  match x with
  | (_, EvFetch req _ note) =>
      init_method (req_init req) = POST ->
      exists c, note = Some c /\ req_url req = create_url driveId (cr_parentId c)
  | _ => True
  end.

Definition is_create_request (driveId : string) (req : Request) : Prop :=
  init_method (req_init req) = POST /\
  exists parentId, req_url req = create_url driveId parentId.

Definition is_upload_request (driveId folderId : string) (req : Request)
  : Prop :=
  exists file mimeType,
    req_url req = GRAPH_API +:+ upload_endpoint driveId folderId file /\
    req_init req =
      upload_init (init_token (req_init req)) mimeType
                  (FileStream (file_path file)).

Definition is_children_query (driveId : string) (req : Request) : Prop :=
  init_method (req_init req) = GET /\
  exists parentId segment,
    req_url req = GRAPH_API +:+ children_endpoint driveId parentId segment.

(** where each kind of request is issued: folder creations outside the
    retry executor, listings of children and uploads inside it *)
Definition request_placed (driveId folderId : string) (x : bool * Request)
  : Prop :=
  if x.1 then
    is_children_query driveId x.2 \/ is_upload_request driveId folderId x.2
  else is_create_request driveId x.2.

Definition request_event_placed (driveId folderId : string) (x : bool * Event)
  : Prop :=
  match x with
  | (b, EvFetch req _ _) => request_placed driveId folderId (b, req)
  | _ => True
  end.

(** every request of the trace was issued inside a retry executor *)
Definition all_through_executor (t : Trace) : Prop :=
  Forall (fun x : bool * Request => x.1 = true) (requests t).

(** the folder a file is destined to: its relative path without the leading
    [/] and without the file name *)
Definition destination_folder (file : UploadFile) : string :=
  parent_path (drop_chars 1 (file_relative file)).

(** the request addresses the file through the id the cache holds for its
    destination folder *)
Definition resolved_through_cache (driveId : string)
    (cache : gmap string string) (file : UploadFile) (req : Request) : Prop :=
  exists id tail,
    cache !! destination_folder file = Some id /\
    req_url req = GRAPH_API +:+ "/drives/" +:+ driveId +:+ "/items/" +:+ id
                  +:+ ":" +:+ tail +:+ ":/content".

(** the request addresses one of [files] from the folder [folderId], by the
    file's whole relative path *)
Definition addressed_from (driveId folderId : string)
    (files : list UploadFile) (x : bool * Event) : Prop :=
  match x with
  | (_, EvFetch req _ _) =>
      exists file, file ∈ files /\
        req_url req = GRAPH_API +:+ "/drives/" +:+ driveId +:+ "/items/"
                      +:+ folderId +:+ ":" +:+ file_relative file
                      +:+ ":/content" /\
        init_method (req_init req) = PUT /\
        init_body (req_init req) = FileStream (file_path file)
  | _ => True
  end.

(** the outputs carry the six figures of the report, under six names *)
Definition emits_report (outs : list (string * string)) (r : UploadReport)
  : Prop :=
  exists k1 k2 k3 k4 k5 k6 : string,
    NoDup [k1; k2; k3; k4; k5; k6] /\
    (k1, String_of_nat (uploads r)) ∈ outs /\
    (k2, join ", " (uploadList r)) ∈ outs /\
    (k3, String_of_nat (failures r)) ∈ outs /\
    (k4, join ", " (failedList r)) ∈ outs /\
    (k5, String_of_nat (failedFolderCreations r)) ∈ outs /\
    (k6, String_of_nat (lockedFiles r)) ∈ outs.

(** the condition of the last statement of the [try] block *)
Definition failure_flag (r : UploadReport) : bool :=
  (0 <? failures r)%nat || (0 <? length (failedList r))%nat.

(** the five outputs of the [finally] block *)
Definition report_outputs (r : UploadReport) : list (string * string) :=
  [("upload_successes", String_of_nat (uploads r));
   ("upload_list", join ", " (uploadList r));
   ("upload_failures", String_of_nat (failures r));
   ("upload_failed_list", join ", " (failedList r));
   ("upload_failed_locked", String_of_nat (lockedFiles r))].

(** ** What a computation does to the state and what it emits *)

Section Observing.
Context `{host : Host}.

Definition result {A} (m : M A) (s : State) : Result A := (m s).1.1.
Definition final {A} (m : M A) (s : State) : State := (m s).1.2.
Definition trace {A} (m : M A) (s : State) : Trace := (m s).2.

(** An observation relates the state before, the state after and the events
    emitted. [respects Q m]: every run of [m] satisfies [Q], whether it
    returns or throws. *)
Definition Obs : Type := State -> State -> Trace -> Prop.

Definition respects {A} (Q : Obs) (m : M A) : Prop :=
  forall s, Q s (final m s) (trace m s).

(** observations that compose along sequencing *)
Class Sequential (Q : Obs) : Prop := {
  seq_nil : forall s, Q s s [];
  seq_app : forall s s1 s2 t1 t2, Q s s1 t1 -> Q s1 s2 t2 -> Q s s2 (t1 ++ t2)
}.

(** a relation between reports and source structures before and after,
    blind to the world *)
Definition Frame : Type :=
  UploadReport -> SourceStructure -> UploadReport -> SourceStructure -> Prop.

Class FrameOrder (R : Frame) : Prop := {
  frame_refl : forall r ss, R r ss r ss;
  frame_trans : forall r1 ss1 r2 ss2 r3 ss3,
      R r1 ss1 r2 ss2 -> R r2 ss2 r3 ss3 -> R r1 ss1 r3 ss3
}.

(** the state changes within [R], and every leaf event satisfies [P];
    [inside] tells whether the computation runs inside an executor *)
Definition obs (R : Frame) (P : bool * Event -> Prop) (inside : bool) : Obs :=
  fun s s' t =>
    R (st_report s) (st_source s) (st_report s') (st_source s')
    /\ Forall P (leaves inside t).

(** a computation that always returns *)
Definition total {A} (m : M A) : Prop :=
  forall s, exists a, result m s = Ok a.

End Observing.

(** the terminal outcome of each file of an upload phase: [true] when it
    was uploaded, [false] when it failed *)
Definition succeeded (outcomes : list (UploadFile * bool)) : list UploadFile :=
  map fst (List.filter snd outcomes).

Definition failed (outcomes : list (UploadFile * bool)) : list UploadFile :=
  map fst (List.filter (fun o => negb (snd o)) outcomes).

(** the report after [outcomes] have been recorded on top of [r] *)
Definition tallied (r r' : UploadReport)
    (outcomes : list (UploadFile * bool)) : Prop :=
  uploadList r' = uploadList r ++ map file_relative (succeeded outcomes) /\
  failedList r' = failedList r ++ map file_path (failed outcomes) /\
  uploads r' = (uploads r + length (succeeded outcomes))%nat /\
  failures r' = (failures r + length (failed outcomes))%nat.

(** frames used below *)
Definition any_frame : Frame := fun _ _ _ _ => True.

(** the upload counters and lists are untouched *)
Definition same_tally : Frame :=
  fun r _ r' _ =>
    uploads r' = uploads r /\ uploadList r' = uploadList r /\
    failures r' = failures r /\ failedList r' = failedList r.

(** the scanned source structure is untouched *)
Definition same_source : Frame := fun _ ss _ ss' => ss' = ss.

(** ** What "fails K times, then succeeds" means for an operation

    The operation is run where the executor runs it: first in the state the
    executor starts in, then each time in the state left by the previous
    failure and the executor's pause. *)

Section RetrySpec.
Context `{host : Host} {A : Type}.
Variable classify : Z -> Error -> bool * option number.
Variable baseDelay : Z.
Variable operation : M A.
Variable retryable : Error -> Prop.

Definition state_after_pause (attempt : Z) (error : Error) (s : State) : State :=
  (pause baseDelay attempt (classify (Date_now (st_world s)) error).2 s).1.2.

Inductive fails_then_succeeds : nat -> Z -> State -> A -> State -> Prop :=
  | fts_success attempt s a s' t :
      operation s = (Ok a, s', t) ->
      fails_then_succeeds O attempt s a s'
  | fts_failure K attempt s e s1 t a s' :
      operation s = (Throw e, s1, t) ->
      retryable e ->
      fails_then_succeeds K (attempt + 1) (state_after_pause attempt e s1) a s' ->
      fails_then_succeeds (S K) attempt s a s'.

End RetrySpec.

(** an error of class [name] that carries a response with one of
    [statuses] *)
Definition has_status (name : string) (statuses : list Z) (e : Error) : Prop :=
  err_name e = name /\
  exists r, err_response e = Some r /\ resp_status r ∈ statuses.

(** ** A scripted host

    A remote that answers the requests it receives from a script, in order,
    and rejects with a network failure once the script is used up; a clock
    that advances by the time slept; decimal readers for the built-in
    parsers. It is the host of the worked examples below. *)

Module Scripted.

Record world : Type := { script : list FetchOutcome; clock : Z }.

Definition fetch_failed : Error :=
  {| err_name := "TypeError"; err_message := "fetch failed";
     err_response := None |}.

Definition answer (req : Request) (w : world) : FetchOutcome * world :=
  match script w with
  | [] => (Rejected fetch_failed, w)
  | out :: rest => (out, {| script := rest; clock := clock w |})
  end.

Definition wait (ms : number) (w : world) : world :=
  match ms with
  | Num q => {| script := script w; clock := clock w + Z.max 1 (Qfloor q) |}
  | _ => {| script := script w; clock := clock w + 1 |}
  end.

Definition digit (c : ascii) : option Z :=
  let n := Z.of_nat (nat_of_ascii c) in
  if (48 <=? n) && (n <=? 57) then Some (n - 48) else None.

Fixpoint take_digits (s : string) : list Z * string :=
  match s with
  | EmptyString => ([], s)
  | String c s' =>
      match digit c with
      | Some d => let '(ds, rest) := take_digits s' in (d :: ds, rest)
      | None => ([], s)
      end
  end.

Definition digits_value (ds : list Z) : Z :=
  fold_left (fun acc d => 10 * acc + d) ds 0.

Fixpoint skip_spaces (s : string) : string :=
  match s with
  | String c s' => if Ascii.eqb c " "%char then skip_spaces s' else s
  | EmptyString => s
  end.

Definition take_sign (s : string) : bool * string :=
  match s with
  | String c s' =>
      if Ascii.eqb c "-"%char then (true, s')
      else if Ascii.eqb c "+"%char then (false, s')
      else (false, s)
  | EmptyString => (false, s)
  end.

(** [parseFloat] on the decimal literals [digits], [digits.digits] and
    [Infinity], signed, after leading spaces; exponents are not read. The
    value is the literal itself: what [parseFloat] gives for a literal
    that a double holds exactly, as the integers of the examples are. *)
Definition decimal_parseFloat (s : string) : number :=
  let '(neg, s1) := take_sign (skip_spaces s) in
  if String.prefix "Infinity" s1 then (if neg : bool then NegInf else PosInf)
  else
    let '(ip, s2) := take_digits s1 in
    let fp :=
      match s2 with
      | String c r => if Ascii.eqb c "."%char then (take_digits r).1 else []
      | EmptyString => []
      end in
    match ip ++ fp with
    | [] => NaN
    | ds =>
        let m := digits_value ds in
        Num ((if neg : bool then - m else m)
             # Z.to_pos (10 ^ Z.of_nat (length fp)))
    end.

(** [parseInt(s, 10)] *)
Definition decimal_parseInt (s : string) : number :=
  let '(neg, s1) := take_sign (skip_spaces s) in
  match (take_digits s1).1 with
  | [] => NaN
  | ds => let m := digits_value ds in of_Z (if neg : bool then - m else m)
  end.

Definition host : Host :=
  {| World := world;
     fetch_step := answer;
     sleep_step := wait;
     Date_now := clock;
     parseFloat := decimal_parseFloat;
     Date_parse := fun _ => NaN;
     parseInt10 := decimal_parseInt;
     mime_lookup := fun _ => None;
     UPLOAD_MAX_RETRIES := 2;
     UPLOAD_BASE_DELAY := 1000;
     DOWNLOAD_MAX_RETRIES := 3;
     DOWNLOAD_BASE_DELAY := 2000 |}.

(** responses of the drive *)
Definition status_only (status : Z) (retryAfter : option string) : Response :=
  {| resp_status := status; resp_statusText := "";
     resp_retryAfter := retryAfter; resp_text := "";
     resp_json := None |}.

Definition with_json (status : Z) (j : Json) : Response :=
  {| resp_status := status; resp_statusText := "";
     resp_retryAfter := None; resp_text := "";
     resp_json := Some j |}.

Definition start (outs : list FetchOutcome) : @State host :=
  @initial_state host {| script := outs; clock := 0 |}.

(** the inputs and the source tree of the worked examples: [a/one.txt] and
    [a/b/two.txt] under [/tmp/c/docx] *)
Definition inputs : Inputs :=
  {| access_token := "tok"; drive_id := "d"; folder_id := "root";
     zip_contents_path := "/tmp/c"; delay_input := "10" |}.

Definition tree : list Dirent :=
  [DirEntry "a" [FileEntry "one.txt"; DirEntry "b" [FileEntry "two.txt"]]].

Definition created (id : string) : FetchOutcome :=
  Responded (with_json 201 (JObject id None)).

Definition answered (status : Z) : FetchOutcome :=
  Responded (status_only status None).

Definition listing (items : list DriveItem) : FetchOutcome :=
  Responded (with_json 200 (JObject "" (Some items))).

End Scripted.

(** ** Further observations on the retry executors *)

(** the pauses an executor made: the [EvSleep] events at the top of its
    trace (those of the operation lie inside the [EvAttempt] nodes) *)
Definition is_pause (ev : Event) : bool :=
  match ev with EvSleep _ => true | _ => false end.

Definition pauses (t : Trace) : nat := length (List.filter is_pause t).

(** an error of class [name] that carries a response whose status is none
    of [statuses] *)
Definition lacks_status (name : string) (statuses : list Z) (e : Error) : Prop :=
  err_name e = name /\
  exists r, err_response e = Some r /\ resp_status r ∉ statuses.

(** The operation fails at every invocation the executor makes: [K] times
    with a retryable error, each followed by the executor's pause, and once
    more with the error [e], of any kind, leaving the state [s']. *)
Section RetryExhaustion.
Context `{host : Host} {A : Type}.
Variable classify : Z -> Error -> bool * option number.
Variable baseDelay : Z.
Variable operation : M A.
Variable retryable : Error -> Prop.

Inductive fails_throughout : nat -> Z -> State -> Error -> State -> Prop :=
  | ft_last attempt s e s' t :
      operation s = (Throw e, s', t) ->
      fails_throughout O attempt s e s'
  | ft_more K attempt s e0 s1 t e s' :
      operation s = (Throw e0, s1, t) ->
      retryable e0 ->
      fails_throughout K (attempt + 1)
        (state_after_pause classify baseDelay attempt e0 s1) e s' ->
      fails_throughout (S K) attempt s e s'.

End RetryExhaustion.

(** ** retryHttpOperation (preview and publish)

    The operation returns a response; a response that is not ok and has a
    retryable status is retried, and so is every thrown error. *)

Section HttpRetry.
Context `{host : Host}.

Definition http_retryableStatuses : list Z := [429; 500; 502; 503; 504].

(** [waitTime] of the retry branch: the Retry-After header read with
    [parseInt(_, 10) * 1000] when that is a positive number, otherwise
    [2 ** attempt * 1000] *)
Definition http_waitTime (attempt : Z) (response : Response) : number :=
  let waitTime := of_Z (2 ^ attempt * 1000) in
  match resp_retryAfter response with
  | Some retryAfter =>
      if truthy retryAfter then
        let retryAfterMs := times (parseInt10 retryAfter) 1000 in
        if negb (isNaN retryAfterMs) && gt0 retryAfterMs then retryAfterMs
        else waitTime
      else waitTime
  | None => waitTime
  end.

Variable operation : M Response.
Variable context : string.
Variable maxRetries : Z.

Definition http_exhausted : Error :=
  new_Error ("HTTP operation failed after " +:+ String_of_Z (maxRetries + 1)
             +:+ " attempts for " +:+ context).

(** [remaining] counts the iterations the condition [attempt <= maxRetries]
    still allows. *)
Fixpoint http_loop (remaining : nat) (attempt : Z) (lastError : option Error)
  : M Response :=
  match remaining with
  | O => throw (default http_exhausted lastError)
  | S remaining' =>
      let* r := invoke operation attempt in
      match r with
      | Ok response =>
          if resp_ok response
             || negb (existsb (Z.eqb (resp_status response))
                              http_retryableStatuses)
          then
            (if 0 <? attempt then core_info else ret tt) ;;
            ret response
          else if attempt <? maxRetries then
            core_info ;;
            sleep (http_waitTime attempt response) ;;
            http_loop remaining' (attempt + 1) lastError
          else
            core_warning ;;
            ret response
      | Throw error =>
          (if attempt <? maxRetries then
             core_info ;; sleep (of_Z (2 ^ attempt * 1000))
           else ret tt) ;;
          http_loop remaining' (attempt + 1) (Some error)
      end
  end.

Definition retryHttpOperation : M Response :=
  http_loop (Z.to_nat (maxRetries + 1)) 0 None.

End HttpRetry.

(** what the loop of retryHttpOperation has done when it ends: a response
    that still asks for a retry, or a thrown error, comes out only when no
    iteration is left *)
Definition http_settled (remaining : nat) (r : Result Response) (t : Trace)
  : Prop :=
  (attempts t <= remaining)%nat
  /\ (remaining <> O -> (1 <= attempts t)%nat)
  /\ pauses t = (attempts t - 1)%nat
  /\ match r with
     | Ok response =>
         resp_ok response = true
         \/ resp_status response ∉ http_retryableStatuses
         \/ attempts t = remaining
     | Throw _ => attempts t = remaining
     end.

(** ** The invocations retryHttpOperation makes, one after the other *)

Section HttpChain.
Context `{host : Host}.
Variable operation : M Response.

(** an outcome of the operation that retryHttpOperation answers with a
    retry while the budget lasts: any thrown error, and a response that is
    not ok and has a retryable status *)
Definition http_failed (r : Result Response) : Prop :=
  match r with
  | Throw _ => True
  | Ok response =>
      resp_ok response = false
      /\ resp_status response ∈ http_retryableStatuses
  end.

(** the state in which the next invocation is made, when the invocation
    number [attempt], made in [s], is retried: the state the operation left,
    after the pause *)
Definition http_retried (attempt : Z) (s : State) : State :=
  let '(r, s1, _) := operation s in
  let ms :=
    match r with
    | Ok response => http_waitTime attempt response
    | Throw _ => of_Z (2 ^ attempt * 1000)
    end in
  mkState (sleep_step ms (st_world s1)) (st_report s1) (st_source s1).

(** the state in which invocation number [attempt + i] is made, when the
    [i] invocations from [attempt] on, the first of them made in [s], are
    all retried *)
Fixpoint http_invoked_in (i : nat) (attempt : Z) (s : State) : State :=
  match i with
  | O => s
  | S i' => http_invoked_in i' (attempt + 1) (http_retried attempt s)
  end.

End HttpChain.

(** ** removeExtension and operateOnPath (preview and publish) *)

Module Publish.

(** [s.lastIndexOf(c)] for a one-character [c]; [None] stands for [-1] *)
Fixpoint last_index (c : ascii) (s : string) : option nat :=
  match s with
  | EmptyString => None
  | String a s' =>
      match last_index c s' with
      | Some i => Some (S i)
      | None => if Ascii.eqb a c then Some O else None
      end
  end.

Definition lastIndexOf (c : ascii) (s : string) : Z :=
  match last_index c s with
  | Some i => Z.of_nat i
  | None => -1
  end.

(** [s.slice(0, n)] *)
Fixpoint take_chars (n : nat) (s : string) : string :=
  match n, s with
  | S n', String c s' => String c (take_chars n' s')
  | _, _ => EmptyString
  end.

(** [s.endsWith(suffix)] *)
Fixpoint endsWith (suffix s : string) : bool :=
  String.eqb suffix s
  || match s with
     | EmptyString => false
     | String _ s' => endsWith suffix s'
     end.

Definition removeExtension (path : string) : string :=
  let lastSlash := lastIndexOf "/" path in
  let fileName := drop_chars (Z.to_nat (lastSlash + 1)) path in
  let dotIndex := lastIndexOf "." fileName in
  if dotIndex =? -1 then path
  else take_chars (Z.to_nat (lastSlash + 1)) path
       +:+ take_chars (Z.to_nat dotIndex) fileName.

Section Operate.
Context `{host : Host}.

(** [post url] stands for the [fetch] of operateOnPath, a POST of the body
    ['{}'] to [url]; [read_url operation resp] for [await resp.json()]
    followed by the reading of [data[operation].url]. *)
Variable post : string -> M Response.
Variable read_url : string -> Response -> M unit.

Definition publish_path (path : string) : string :=
  if endsWith ".docx" path then removeExtension path
  else if endsWith ".xlsx" path then removeExtension path +:+ ".json"
  else path.

(** one call up to the point where it returns a boolean ([inr]) or hands
    over to the call on the path without extension ([inl]); the promise of
    that call is returned as it is, outside the reach of the [catch] *)
Definition operate_once (endpoint path operation : string)
  : M (string + bool) :=
  let publishPath := publish_path path in
  try_catch
    (let* resp :=
       retryHttpOperation (post (endpoint +:+ publishPath)) publishPath 5 in
     if negb (resp_ok resp) then
       core_debug ;;
       if (resp_status resp =? 415)
          || (String.eqb operation "live" && (resp_status resp =? 404))
       then
         let noExtPath := removeExtension path in
         if negb (String.eqb noExtPath path)
            && negb (String.eqb noExtPath publishPath)
         then core_info ;; ret (inl noExtPath)
         else core_warning ;; ret (inr false)
       else if resp_status resp =? 423 then core_warning ;; ret (inr false)
       else core_warning ;; ret (inr false)
     else
       read_url operation resp ;;
       core_info ;;
       ret (inr true))
    (fun error => core_warning ;; ret (inr false)).

(** [depth] bounds the nesting of the calls on shorter and shorter paths *)
Fixpoint operateOnPath_within (depth : nat) (endpoint path operation : string)
  : M bool :=
  let* next := operate_once endpoint path operation in
  match next with
  | inr b => ret b
  | inl noExtPath =>
      match depth with
      | O => throw (new_Error "Maximum call stack size exceeded")
      | S depth' => operateOnPath_within depth' endpoint noExtPath operation
      end
  end.

Definition operateOnPath (endpoint path operation : string) : M bool :=
  operateOnPath_within (String.length path) endpoint path operation.

End Operate.

End Publish.

(** ** Reference descriptions of the builder's keys and of the scan *)

(** the value of [currentPath] after the segment loop has consumed
    [segments] *)
Definition walked (segments : list string) (currentPath : option string)
  : option string :=
  fold_left (fun cp segment => Some (next_path cp segment)) segments currentPath.

(** the cache key under which the builder holds the folder of a source
    path *)
Definition folder_key (path : string) : string :=
  default "" (walked (split_slash path) None).




(** the directories below [srcFolder], depth first, each before what it
    contains *)
Fixpoint listed_folders (srcFolder : string) (entry : Dirent)
  : list SourceItem :=
  match entry with
  | DirEntry name entries =>
      let fullPath := path_join srcFolder name in
      {| src_name := name; src_path := fullPath |}
      :: (fix go (l : list Dirent) : list SourceItem :=
            match l with
            | [] => []
            | e :: r => listed_folders fullPath e ++ go r
            end) entries
  | FileEntry _ | OtherEntry _ => []
  end.

(** the regular files below [srcFolder], in the same order *)
Fixpoint listed_files (srcFolder : string) (entry : Dirent)
  : list SourceItem :=
  match entry with
  | DirEntry name entries =>
      let fullPath := path_join srcFolder name in
      (fix go (l : list Dirent) : list SourceItem :=
         match l with
         | [] => []
         | e :: r => listed_files fullPath e ++ go r
         end) entries
  | FileEntry name =>
      [{| src_name := name; src_path := path_join srcFolder name |}]
  | OtherEntry _ => []
  end.

(** the source structure with [fs] and [fl] appended *)
Definition extended (ss : SourceStructure) (fs fl : list SourceItem)
  : SourceStructure :=
  {| folders := folders ss ++ fs; files := files ss ++ fl |}.

(** * Properties *)

(** ** The retry executors *)

Section RetryFacts.
Context `{host : Host} {A : Type}.
Variable classify : Z -> Error -> bool * option number.
Variable baseDelay : Z.
Variable label : string.
Variable operation : M A.
Variable context : string.
Variable maxRetries : Z.
Variable retryable : Error -> Prop.
Hypothesis classify_retryable :
  forall now e, retryable e -> (classify now e).1 = true.

Lemma attempts_app (t1 t2 : Trace) : attempts (t1 ++ t2) = (attempts t1 + attempts t2)%nat.
Proof. unfold attempts. rewrite List.filter_app, length_app. reflexivity. Qed.

Lemma pause_runs (attempt : Z) (d : option number) (s : State) :
  pause baseDelay attempt d s =
    (Ok tt,
     mkState (sleep_step (waitTime baseDelay attempt d) (st_world s))
             (st_report s) (st_source s),
     [EvCore Info; EvSleep (waitTime baseDelay attempt d)]).
Proof. reflexivity. Qed.

(** one iteration that catches a retryable error with attempts left *)
Lemma retry_loop_retries (remaining : nat) (attempt : Z)
    (lastError : option Error) (s s1 : State) (e : Error) (t : Trace) :
  operation s = (Throw e, s1, t) ->
  (classify (Date_now (st_world s1)) e).1 = true ->
  attempt < maxRetries ->
  retry_loop classify baseDelay label operation context maxRetries
             (S remaining) attempt lastError s =
    let d := (classify (Date_now (st_world s1)) e).2 in
    let '(r, s2, t2) :=
      retry_loop classify baseDelay label operation context maxRetries
                 remaining (attempt + 1) (Some e)
                 (state_after_pause classify baseDelay attempt e s1) in
    (r, s2,
     [EvAttempt attempt t; EvCore Info; EvSleep (waitTime baseDelay attempt d)]
     ++ t2).
Proof.
  intros Hop Hcl Hlt. cbn [retry_loop]. unfold bind at 1, invoke.
  rewrite Hop. cbn -[retry_loop pause].
  destruct (classify (Date_now (st_world s1)) e) as [b d] eqn:Hc.
  cbn in Hcl. subst b.
  apply Z.ltb_lt in Hlt. rewrite Hlt. cbn -[retry_loop pause].
  unfold bind at 1. rewrite pause_runs.
  unfold state_after_pause. rewrite Hc, pause_runs. cbn -[retry_loop].
  destruct (retry_loop _ _ _ _ _ _ _ _ _ _) as [[r s2] t2].
  reflexivity.
Qed.

(** one iteration in which the operation succeeds *)
Lemma retry_loop_returns (remaining : nat) (attempt : Z)
    (lastError : option Error) (s s' : State) (a : A) (t : Trace) :
  operation s = (Ok a, s', t) ->
  exists t',
    retry_loop classify baseDelay label operation context maxRetries
               (S remaining) attempt lastError s = (Ok a, s', t')
    /\ attempts t' = 1%nat.
Proof.
  intros Hop. cbn [retry_loop]. unfold bind at 1, invoke. rewrite Hop.
  destruct (0 <? attempt); cbn; eexists; split; reflexivity.
Qed.

Lemma retry_loop_fails_then_succeeds (K : nat) (attempt : Z) (s s' : State) (a : A) :
  fails_then_succeeds classify baseDelay operation retryable K attempt s a s' ->
  forall (remaining : nat) (lastError : option Error),
    (K < remaining)%nat ->
    attempt + Z.of_nat K <= maxRetries ->
    exists t,
      retry_loop classify baseDelay label operation context maxRetries
                 remaining attempt lastError s = (Ok a, s', t)
      /\ attempts t = S K.
Proof.
  induction 1 as [attempt s a s' t Hop
                 | K attempt s e s1 t a s' Hop Hre Hrest IH];
    intros remaining lastError Hrem Hmax.
  - destruct remaining as [|remaining]; [lia|].
    eapply retry_loop_returns; eauto.
  - destruct remaining as [|remaining]; [lia|].
    destruct (IH remaining (Some e)) as (t2 & Hrun & Hcount); [lia | lia |].
    rewrite (retry_loop_retries _ _ _ _ _ _ _ Hop);
      [| apply classify_retryable; assumption | lia].
    cbn zeta. rewrite Hrun. eexists; split; [reflexivity|].
    rewrite attempts_app, Hcount. reflexivity.
Qed.

End RetryFacts.

Section Executors.
Context `{host : Host}.

Lemma upload_classify_status (now : Z) (e : Error) :
  has_status "GraphApiError" upload_retryableStatuses e ->
  (upload_classify now e).1 = true.
Proof.
  intros (Hname & r & Hresp & Hin). unfold upload_classify.
  rewrite Hname, Hresp. cbn [String.eqb Ascii.eqb Bool.eqb fst].
  replace (existsb (Z.eqb (resp_status r)) upload_retryableStatuses) with true;
    [reflexivity|].
  symmetry. apply existsb_exists. exists (resp_status r). split.
  - apply list_elem_of_In, Hin.
  - apply Z.eqb_refl.
Qed.

Lemma download_classify_status (now : Z) (e : Error) :
  has_status "HttpError" download_retryableStatuses e ->
  (download_classify now e).1 = true.
Proof.
  intros (Hname & r & Hresp & Hin). unfold download_classify.
  rewrite Hname, Hresp. cbn [String.eqb Ascii.eqb Bool.eqb fst].
  replace (existsb (Z.eqb (resp_status r)) download_retryableStatuses) with true;
    [reflexivity|].
  symmetry. apply existsb_exists. exists (resp_status r). split.
  - apply list_elem_of_In, Hin.
  - apply Z.eqb_refl.
Qed.

(** C1. An operation that fails with a retryable status on its first [K]
    invocations ([K <= maxRetries]) and succeeds on the next one: the
    executor returns that result, in the state the successful invocation
    left, after exactly [K + 1] invocations. It holds for
    [retryUploadOperation] and for [retryDownloadOperation]. *)
Theorem retry_returns_first_success {A : Type} (operation : M A)
    (context : string) (maxRetries : Z) (K : nat) (s s' : State) (a : A) :
  Z.of_nat K <= maxRetries ->
  (fails_then_succeeds upload_classify UPLOAD_BASE_DELAY operation
     (has_status "GraphApiError" upload_retryableStatuses) K 0 s a s' ->
   exists t,
     retryUploadOperation operation context maxRetries s = (Ok a, s', t)
     /\ attempts t = S K)
  /\
  (fails_then_succeeds download_classify DOWNLOAD_BASE_DELAY operation
     (has_status "HttpError" download_retryableStatuses) K 0 s a s' ->
   exists t,
     retryDownloadOperation operation context maxRetries s = (Ok a, s', t)
     /\ attempts t = S K).
Proof.
  intros Hle. split; intros Hfts.
  - unfold retryUploadOperation, retry.
    eapply retry_loop_fails_then_succeeds; eauto using upload_classify_status; lia.
  - unfold retryDownloadOperation, retry.
    eapply retry_loop_fails_then_succeeds; eauto using download_classify_status; lia.
Qed.

End Executors.

(** Worked example for C1: a Graph call answered 503, then 429, then 200
    under [maxRetries = 2]; a zip download answered 503, then 200. *)
Lemma retry_returns_first_success_witness :
  (exists t,
     @retryUploadOperation Scripted.host _
       (@graphFetch Scripted.host "tok" "/me" None) "/me" 2
       (Scripted.start
          [Responded (Scripted.status_only 503 None);
           Responded (Scripted.status_only 429 (Some "5"));
           Responded (Scripted.with_json 200 (JObject "me" None))])
     = (Ok (JObject "me" None),
        @mkState Scripted.host
          {| Scripted.script := []; Scripted.clock := 6000 |}
          uploadReport0 sourceStructure0,
        t)
     /\ attempts t = 3%nat)
  /\
  (exists t,
     @retryDownloadOperation Scripted.host _
       (@fetchZip Scripted.host (fun _ _ => @ret Scripted.host _ tt)
          "https://spacecat.example/import.zip" "/tmp/sta-1/import.zip")
       "https://spacecat.example/import.zip" 3
       (Scripted.start
          [Responded (Scripted.status_only 503 None);
           Responded (Scripted.status_only 200 None)])
     = (Ok tt,
        @mkState Scripted.host
          {| Scripted.script := []; Scripted.clock := 2000 |}
          uploadReport0 sourceStructure0,
        t)
     /\ attempts t = 2%nat).
Proof.
  split.
  - apply (proj1 (@retry_returns_first_success Scripted.host _ _ _ 2 2%nat _ _ _
                    ltac:(lia))).
    eapply fts_failure; [vm_compute; reflexivity | |].
    { split; [reflexivity|]. eexists; split; [reflexivity|].
      cbn. repeat constructor. }
    eapply fts_failure; [vm_compute; reflexivity | |].
    { split; [reflexivity|]. eexists; split; [reflexivity|].
      cbn. repeat constructor. }
    eapply fts_success. vm_compute. reflexivity.
  - apply (proj2 (@retry_returns_first_success Scripted.host _ _ _ 3 1%nat _ _ _
                    ltac:(lia))).
    eapply fts_failure; [vm_compute; reflexivity | |].
    { split; [reflexivity|]. eexists; split; [reflexivity|].
      cbn. repeat constructor. }
    eapply fts_success. vm_compute. reflexivity.
Defined.

(** ** The Retry-After hint *)

Section RetryAfter.
Context `{host : Host}.



(** *** Products of doubles *)











End RetryAfter.

(** The product is rounded before [Math.round]: [1.0005], read as the
    nearest double, times 1000 is the double [1000.5], and the wait is 1001
    ms; the exact product of that double and 1000 lies just below 1000.5. *)
Example retry_after_rounds_the_product :
  double_round (10005 # 10000) = Num (4505851427184181 # 4503599627370496)
  /\ Math_round (times (double_round (10005 # 10000)) 1000) = of_Z 1001
  /\ Qfloor ((4505851427184181 # 4503599627370496) * inject_Z 1000 + (1 # 2))
     = 1000.
Proof. repeat split; vm_compute; reflexivity. Qed.


(** ** Composition of observations *)

Section Composition.
Context `{host : Host}.

Lemma bind_run {A B} (m : M A) (k : A -> M B) (s : State) :
  bind m k s =
    match result m s with
    | Ok a =>
        (result (k a) (final m s), final (k a) (final m s),
         trace m s ++ trace (k a) (final m s))
    | Throw e => (Throw e, final m s, trace m s)
    end.
Proof.
  unfold bind, result, final, trace.
  destruct (m s) as [[[a|e] s1] t1]; cbn; [|reflexivity].
  destruct (k a s1) as [[r s2] t2]; reflexivity.
Qed.

Lemma run_eta {A} (m : M A) (s : State) :
  m s = (result m s, final m s, trace m s).
Proof. unfold result, final, trace. destruct (m s) as [[r s1] t1]; reflexivity. Qed.

Section Seq.
Context (Q : Obs) `{!Sequential Q}.

Lemma respects_ret {A} (a : A) : respects Q (ret a).
Proof. intros s. apply seq_nil. Qed.

Lemma respects_throw {A} (e : Error) : respects Q (@throw _ A e).
Proof. intros s. apply seq_nil. Qed.

Lemma respects_get_state : respects Q get_state.
Proof. intros s. apply seq_nil. Qed.

Lemma respects_bind {A B} (m : M A) (k : A -> M B) :
  respects Q m -> (forall a, respects Q (k a)) -> respects Q (bind m k).
Proof.
  intros Hm Hk s. unfold final, trace. rewrite bind_run.
  specialize (Hm s). destruct (result m s) as [a|e]; cbn; [|exact Hm].
  eapply seq_app; [exact Hm | apply Hk].
Qed.

Lemma respects_try_catch {A} (m : M A) (h : Error -> M A) :
  respects Q m -> (forall e, respects Q (h e)) -> respects Q (try_catch m h).
Proof.
  intros Hm Hh s. specialize (Hm s). unfold final, trace, try_catch in *.
  destruct (m s) as [[[a|e] s1] t1]; cbn in *; [exact Hm|].
  specialize (Hh e s1). unfold final, trace in Hh.
  destruct (h e s1) as [[r s2] t2]; cbn in *.
  eapply seq_app; eauto.
Qed.

Lemma respects_try_finally {A} (m : M A) (f : M unit) :
  respects Q m -> respects Q f -> respects Q (try_finally m f).
Proof.
  intros Hm Hf s. specialize (Hm s). unfold final, trace, try_finally in *.
  destruct (m s) as [[r s1] t1]; cbn in *.
  specialize (Hf s1). unfold final, trace in Hf.
  destruct (f s1) as [[[u|e] s2] t2]; cbn in *; eapply seq_app; eauto.
Qed.

Lemma respects_for_of {A} (l : list A) (body : A -> M unit) :
  (forall x, respects Q (body x)) -> respects Q (for_of l body).
Proof.
  intros Hb. induction l as [|x l IH]; cbn [for_of].
  - apply respects_ret.
  - apply respects_bind; auto.
Qed.

Lemma respects_for_of_with {A V} (l : list A) (v : V) (body : V -> A -> M V) :
  (forall v x, respects Q (body v x)) -> respects Q (for_of_with l v body).
Proof.
  intros Hb. revert v. induction l as [|x l IH]; intros v; cbn [for_of_with].
  - apply respects_ret.
  - apply respects_bind; auto.
Qed.

End Seq.

(** the retry loop: the operation is observed inside ([Qin]), the loop
    outside ([Qout]) *)
Lemma respects_retry_loop {A} (Qin Qout : Obs) `{!Sequential Qout}
    (classify : Z -> Error -> bool * option number) (baseDelay : Z)
    (label : string) (operation : M A) (context : string) (maxRetries : Z) :
  (forall s s' t n, Qin s s' t -> Qout s s' [EvAttempt n t]) ->
  respects Qout core_info ->
  (forall ms, respects Qout (sleep ms)) ->
  respects Qin operation ->
  forall remaining attempt lastError,
    respects Qout (retry_loop classify baseDelay label operation context
                              maxRetries remaining attempt lastError).
Proof.
  intros Hwrap Hinfo Hsleep Hop remaining.
  induction remaining as [|remaining IH]; intros attempt lastError;
    cbn [retry_loop].
  - apply respects_throw; assumption.
  - apply respects_bind; [assumption | |].
    + intros s. unfold final, trace, invoke. specialize (Hop s).
      unfold final, trace in Hop.
      destruct (operation s) as [[r s1] t1]; cbn in *. apply Hwrap, Hop.
    + intros [a|e].
      * apply respects_bind; [assumption | | intros; apply respects_ret; assumption].
        destruct (0 <? attempt); [assumption | apply respects_ret; assumption].
      * apply respects_bind; [assumption | apply respects_get_state; assumption |].
        intros s. destruct (classify _ e) as [isRetryable d].
        destruct ((attempt <? maxRetries) && isRetryable).
        -- apply respects_bind; [assumption | | intros; apply IH].
           unfold pause. apply respects_bind; auto.
        -- apply respects_throw; assumption.
Qed.

(** leaves of traces *)
Lemma leaves_app (b : bool) (t1 t2 : Trace) :
  leaves b (t1 ++ t2) = leaves b t1 ++ leaves b t2.
Proof. unfold leaves. apply flat_map_app. Qed.

Lemma leaves_of_attempt (b : bool) (n : Z) (inner : Trace) :
  leaves_of b (EvAttempt n inner) = leaves true inner.
Proof.
  cbn [leaves_of]. unfold leaves.
  induction inner as [|e r IH]; [reflexivity|].
  cbn [flat_map]. rewrite <- IH. reflexivity.
Qed.

Lemma leaves_attempt (b : bool) (n : Z) (inner : Trace) :
  leaves b [EvAttempt n inner] = leaves true inner.
Proof.
  unfold leaves at 1. cbn [flat_map]. rewrite leaves_of_attempt.
  apply app_nil_r.
Qed.

Section Obs.
Context (R : Frame) `{!FrameOrder R} (P : bool * Event -> Prop).

#[export] Instance obs_sequential (b : bool) : Sequential (obs R P b).
Proof.
  split.
  - intros s. split; [apply frame_refl | constructor].
  - intros s s1 s2 t1 t2 [HR1 HP1] [HR2 HP2]. split.
    + eapply frame_trans; eauto.
    + rewrite leaves_app. apply Forall_app; auto.
Qed.

Lemma obs_wrap (b : bool) (s s' : State) (t : Trace) (n : Z) :
  obs R P true s s' t -> obs R P b s s' [EvAttempt n t].
Proof. intros [HR HP]. split; [exact HR|]. rewrite leaves_attempt. exact HP. Qed.

Lemma respects_emit (b : bool) (ev : Event) :
  is_attempt ev = false -> P (b, ev) -> respects (obs R P b) (emit ev).
Proof.
  intros Hev HP s. split; [apply frame_refl|].
  cbn. destruct ev; try discriminate; repeat constructor; exact HP.
Qed.

Lemma respects_fetch (b : bool) (note : option Creation) (url : string)
    (init : Init) :
  (forall out, P (b, EvFetch {| req_url := url; req_init := init |} out note)) ->
  respects (obs R P b) (fetch_noted note url init).
Proof.
  intros HP s. unfold final, trace, fetch_noted.
  destruct (fetch_step _ _) as [out w]. split; [apply frame_refl|].
  cbn. repeat constructor. apply HP.
Qed.

Lemma respects_sleep (b : bool) (ms : number) :
  P (b, EvSleep ms) -> respects (obs R P b) (sleep ms).
Proof.
  intros HP s. split; [apply frame_refl|]. cbn. repeat constructor. exact HP.
Qed.

Lemma respects_modify_report (b : bool) (f : UploadReport -> UploadReport) :
  (forall r ss, R r ss (f r) ss) -> respects (obs R P b) (modify_report f).
Proof. intros Hf s. split; [apply Hf | constructor]. Qed.

Lemma respects_modify_source (b : bool)
    (f : SourceStructure -> SourceStructure) :
  (forall r ss, R r ss r (f ss)) -> respects (obs R P b) (modify_source f).
Proof. intros Hf s. split; [apply Hf | constructor]. Qed.

End Obs.

End Composition.

#[export] Instance any_frame_order : FrameOrder any_frame.
Proof. split; unfold any_frame; auto. Qed.

#[export] Instance same_tally_order : FrameOrder same_tally.
Proof.
  split; unfold same_tally.
  - auto.
  - intros r1 ss1 r2 ss2 r3 ss3 (?&?&?&?) (?&?&?&?).
    repeat split; congruence.
Qed.

#[export] Instance same_source_order : FrameOrder same_source.
Proof. split; unfold same_source; intros; congruence. Qed.

(** ** What each function of the action does

    [R] bounds the changes to the report and the source structure, [P]
    holds of every leaf event; the hypotheses say which changes and events
    the functions need to be allowed. *)

Lemma Dirent_nested_ind (P : Dirent -> Prop) :
  (forall name entries, Forall P entries -> P (DirEntry name entries)) ->
  (forall name, P (FileEntry name)) ->
  (forall name, P (OtherEntry name)) ->
  forall entry, P entry.
Proof.
  intros Hdir Hfile Hother. fix IH 1.
  intros [name entries | name | name]; [| apply Hfile | apply Hother].
  apply Hdir. induction entries as [|e r IHr]; constructor.
  - apply IH.
  - apply IHr.
Qed.

Section Conformance.
Context `{host : Host}.
Context (R : Frame) `{!FrameOrder R} (P : bool * Event -> Prop).
Variable uploadable : UploadFile -> Prop.
Variables accessToken driveId folderId : string.

Hypothesis P_core : forall b lvl, P (b, EvCore lvl).
Hypothesis P_sleep : forall b ms, P (b, EvSleep ms).
Hypothesis P_create :
  forall path parentId cache segment out,
    P (false, EvFetch {| req_url := create_url driveId parentId;
                         req_init := create_init accessToken segment |} out
                      (Some {| cr_path := path; cr_parentId := parentId;
                               cr_cache := cache |})).
Hypothesis P_children :
  forall parentId segment out,
    P (true, EvFetch {| req_url := GRAPH_API
                                   +:+ children_endpoint driveId parentId segment;
                        req_init := default_init accessToken |} out None).
Hypothesis P_upload :
  forall file mimeType out,
    uploadable file ->
    P (true, EvFetch {| req_url := GRAPH_API
                                   +:+ upload_endpoint driveId folderId file;
                        req_init := upload_init accessToken mimeType
                                      (FileStream (file_path file)) |} out
                     None).
Hypothesis P_output : forall name value, P (false, EvSetOutput name value).
Hypothesis R_lock : forall r ss, R r ss (bump_lockedFiles r) ss.
Hypothesis R_folder : forall r ss, R r ss (bump_failedFolderCreations r) ss.
Hypothesis R_upload : forall item r ss, R r ss (record_upload item r) ss.
Hypothesis R_failure : forall item r ss, R r ss (record_failure item r) ss.
Hypothesis R_push_folder : forall it r ss, R r ss r (push_folder it ss).
Hypothesis R_push_file : forall it r ss, R r ss r (push_file it ss).

Local Abbreviation Q b := (obs R P b).

Ltac structure :=
  repeat
    match goal with
    | |- respects _ (ret _) => apply (respects_ret (Q _))
    | |- respects _ (throw _) => apply (respects_throw (Q _))
    | |- respects _ get_state => apply (respects_get_state (Q _))
    | |- respects _ (bind _ _) => apply (respects_bind (Q _)); [ | intros ? ]
    | |- respects _ (try_catch _ _) =>
        apply (respects_try_catch (Q _)); [ | intros ? ]
    | |- respects _ (try_finally _ _) => apply (respects_try_finally (Q _))
    | |- respects _ (for_of _ _) => apply (respects_for_of (Q _)); intros ?
    | |- respects _ (for_of_with _ _ _) =>
        apply (respects_for_of_with (Q _)); intros ? ?
    | |- respects _ (sleep _) =>
        apply respects_sleep; [exact _ .. | apply P_sleep]
    | |- respects _ (emit (EvCore _)) =>
        apply respects_emit; [exact _ .. | reflexivity | apply P_core]
    | |- respects _ (if ?c then _ else _) => destruct c
    | |- respects _ (match ?x with _ => _ end) => destruct x
    end.

Lemma res_json_respects (b : bool) (res : Response) : respects (Q b) (res_json res).
Proof. unfold res_json. structure. Qed.

Lemma graphFetch_respects (b : bool) (token endpoint : string)
    (initOptions : option Init) :
  (forall out,
      P (b, EvFetch {| req_url := GRAPH_API +:+ endpoint;
                       req_init := default (default_init token) initOptions |}
                    out None)) ->
  respects (Q b) (graphFetch token endpoint initOptions).
Proof.
  intros HP. unfold graphFetch, core_debug, fetch. structure.
  - apply respects_fetch; [exact _ .. | exact HP].
  - apply respects_modify_report; [exact _ .. | apply R_lock].
  - apply res_json_respects.
Qed.

Lemma retryUploadOperation_respects {A} (b : bool) (operation : M A)
    (context : string) (maxRetries : Z) :
  respects (Q true) operation ->
  respects (Q b) (retryUploadOperation operation context maxRetries).
Proof.
  intros Hop. unfold retryUploadOperation, retry.
  apply (respects_retry_loop (Q true) (Q b)); [ | | | exact Hop].
  - intros s s' t n. apply obs_wrap.
  - unfold core_info. structure.
  - intros ms. structure.
Qed.

Lemma graphFetchWithRetry_respects (b : bool) (token endpoint : string)
    (initOptions : option Init) :
  (forall out,
      P (true, EvFetch {| req_url := GRAPH_API +:+ endpoint;
                          req_init := default (default_init token) initOptions |}
                       out None)) ->
  respects (Q b) (graphFetchWithRetry token endpoint initOptions).
Proof.
  intros HP. unfold graphFetchWithRetry.
  apply retryUploadOperation_respects, graphFetch_respects, HP.
Qed.

Lemma uploadFileWithRetry_respects (b : bool) (file : UploadFile) :
  uploadable file ->
  respects (Q b) (uploadFileWithRetry accessToken driveId folderId file).
Proof.
  intros Hfile.
  unfold uploadFileWithRetry, core_debug, core_warning. structure.
  apply retryUploadOperation_respects. structure.
  apply graphFetch_respects. intros out. apply P_upload, Hfile.
Qed.

Lemma folder_response_respects (delay : number)
    (currentPath parentId : string) (folderMap : gmap string string)
    (segment : string) (res : Response) :
  respects (Q false)
    (folder_response accessToken driveId delay currentPath parentId folderMap
                     segment res).
Proof.
  unfold folder_response, core_warning. structure.
  - apply res_json_respects.
  - apply graphFetchWithRetry_respects. intros out. apply P_children.
  - apply respects_modify_report; [exact _ .. | apply R_folder].
Qed.

Lemma create_folder_respects (delay : number) (currentPath parentId : string)
    (folderMap : gmap string string) (segment : string) :
  respects (Q false)
    (create_folder accessToken driveId delay currentPath parentId folderMap
                   segment).
Proof.
  unfold create_folder. structure.
  - apply respects_fetch; [exact _ .. | intros out; apply P_create].
  - apply folder_response_respects.
Qed.

Lemma walk_segment_respects (delay : number) (w : Walk) (segment : string) :
  respects (Q false) (walk_segment accessToken driveId delay w segment).
Proof.
  unfold walk_segment. structure.
  apply create_folder_respects.
Qed.

Lemma createFolders_map_respects (sourceFolders : list SourceFolder)
    (delay : number) :
  respects (Q false)
    (createFolders_map accessToken driveId folderId sourceFolders delay).
Proof.
  unfold createFolders_map, walk_folder. structure.
  apply walk_segment_respects.
Qed.

Lemma createFoldersIfNecessary_respects (sourceFolders : list SourceFolder)
    (delay : number) :
  respects (Q false)
    (createFoldersIfNecessary accessToken driveId folderId sourceFolders delay).
Proof.
  unfold createFoldersIfNecessary. structure.
  apply createFolders_map_respects.
Qed.

Lemma scan_dir_loop (fullPath : string) (entries : list Dirent) :
  (fix loop (l : list Dirent) : M unit :=
     match l with
     | [] => ret tt
     | e :: r => scan_entry fullPath e ;; loop r
     end) entries
  = for_of entries (scan_entry fullPath).
Proof.
  induction entries as [|e r IH]; [reflexivity|].
  cbn [for_of]. rewrite <- IH. reflexivity.
Qed.

Lemma scan_entry_dir (srcFolder name : string) (entries : list Dirent) :
  scan_entry srcFolder (DirEntry name entries) =
    (core_debug ;;
     modify_source (push_folder {| src_name := name;
                                   src_path := path_join srcFolder name |}) ;;
     (core_debug ;;
      for_of entries (scan_entry (path_join srcFolder name)) ;;
      core_debug)).
Proof. cbn [scan_entry]. rewrite scan_dir_loop. reflexivity. Qed.

Lemma scan_entry_respects (b : bool) (entry : Dirent) :
  forall srcFolder, respects (Q b) (scan_entry srcFolder entry).
Proof.
  induction entry as [name entries IH | name | name] using Dirent_nested_ind;
    intros srcFolder.
  - rewrite scan_entry_dir. unfold core_debug.
    apply (respects_bind (Q _)); [structure|]. intros _.
    apply (respects_bind (Q _)).
    { apply respects_modify_source; [exact _ .. | apply R_push_folder]. }
    intros _. apply (respects_bind (Q _)); [structure|]. intros _.
    apply (respects_bind (Q _)); [|intros _; structure].
    induction IH as [|e r He Hr IHr]; cbn [for_of];
      [apply (respects_ret (Q _))
      | apply (respects_bind (Q _)); [apply He | intros _; exact IHr]].
  - cbn [scan_entry]. unfold core_debug. structure.
    apply respects_modify_source; [exact _ .. | apply R_push_file].
  - cbn [scan_entry]. unfold core_debug. structure.
Qed.

Lemma populateSourceStructure_respects (b : bool) (srcFolder : string)
    (entries : list Dirent) (isTopLevel : bool) :
  respects (Q b) (populateSourceStructure srcFolder entries isTopLevel).
Proof.
  unfold populateSourceStructure, core_debug. structure.
  apply scan_entry_respects.
Qed.

Lemma upload_one_respects (delay : number) (item : UploadFile) :
  uploadable item ->
  respects (Q false) (upload_one accessToken driveId folderId delay item).
Proof.
  intros Hitem. unfold upload_one. structure.
  - apply uploadFileWithRetry_respects, Hitem.
  - apply respects_modify_report; [exact _ .. | apply R_upload].
  - apply respects_modify_report; [exact _ .. | apply R_failure].
Qed.

Lemma uploadFiles_respects (sourceFiles : list UploadFile) (delay : number) :
  Forall uploadable sourceFiles ->
  respects (Q false)
    (uploadFiles accessToken driveId folderId sourceFiles delay).
Proof.
  unfold uploadFiles. induction 1 as [|item rest Hitem Hrest IH]; cbn [for_of].
  - apply (respects_ret (Q _)).
  - apply (respects_bind (Q _)); [apply upload_one_respects, Hitem|].
    intros _. exact IH.
Qed.

Lemma run_prepare_respects (docsDir : string) (delay : number)
    (docs : option (list Dirent)) :
  respects (Q false)
    (run_prepare accessToken driveId folderId docsDir delay docs).
Proof.
  unfold run_prepare, core_info. structure.
  - apply populateSourceStructure_respects.
  - apply createFoldersIfNecessary_respects.
Qed.

Lemma run_phases_respects (docsDir : string) (delay : number)
    (docs : option (list Dirent)) :
  (forall file, uploadable file) ->
  respects (Q false)
    (run_phases accessToken driveId folderId docsDir delay docs).
Proof.
  intros Hall. unfold run_phases, run_upload, core_info. structure.
  - apply run_prepare_respects.
  - apply uploadFiles_respects, Forall_forall. intros; apply Hall.
Qed.

Lemma run_try_respects (docsDir : string) (delay : number)
    (docs : option (list Dirent)) :
  (forall file, uploadable file) ->
  respects (Q false) (run_try accessToken driveId folderId docsDir delay docs).
Proof.
  intros Hall. unfold run_try, run_check, core_setOutput. structure.
  - apply run_phases_respects, Hall.
  - apply respects_emit; [exact _ .. | reflexivity | apply P_output].
Qed.

Lemma run_check_respects : respects (Q false) run_check.
Proof.
  unfold run_check, core_setOutput. structure.
  apply respects_emit; [exact _ .. | reflexivity | apply P_output].
Qed.

Lemma run_catch_respects (error : Error) : respects (Q false) (run_catch error).
Proof.
  unfold run_catch, core_warning, core_setOutput. structure.
  apply respects_emit; [exact _ .. | reflexivity | apply P_output].
Qed.

Lemma run_finally_respects : respects (Q false) run_finally.
Proof.
  unfold run_finally, core_info, core_setOutput. structure;
    (apply respects_emit; [exact _ .. | reflexivity | apply P_output]).
Qed.

Lemma run_respects (inputs : Inputs) (docs : option (list Dirent)) :
  access_token inputs = accessToken -> drive_id inputs = driveId ->
  folder_id inputs = folderId ->
  (forall file, uploadable file) ->
  respects (Q false) (run inputs docs).
Proof.
  intros Ha Hd Hf Hall. unfold run. rewrite Ha, Hd, Hf.
  unfold core_info. structure.
  - apply run_try_respects, Hall.
  - apply run_catch_respects.
  - apply run_finally_respects.
Qed.

End Conformance.

(** ** The upload phase *)

Section UploadPhase.
Context `{host : Host}.
Variables accessToken driveId folderId : string.

Lemma uploadFileWithRetry_total (file : UploadFile) :
  total (uploadFileWithRetry accessToken driveId folderId file).
Proof.
  intros s. unfold result, uploadFileWithRetry, try_catch.
  destruct (bind _ _ s) as [[[b|e] s1] t1]; cbn; eauto.
Qed.

Lemma uploadFileWithRetry_tally (file : UploadFile) :
  respects (obs same_tally (fun _ => True) false)
    (uploadFileWithRetry accessToken driveId folderId file).
Proof.
  apply (uploadFileWithRetry_respects _ _ (fun _ => True));
    try exact _; try exact (fun _ => I); try (intros; exact I).
  intros r ss. unfold same_tally. cbn. auto.
Qed.

Lemma uploadFileWithRetry_source (file : UploadFile) :
  respects (obs same_source (fun _ => True) false)
    (uploadFileWithRetry accessToken driveId folderId file).
Proof.
  apply (uploadFileWithRetry_respects _ _ (fun _ => True));
    try exact _; try exact (fun _ => I); try (intros; exact I).
  intros r ss. reflexivity.
Qed.

Lemma succeeded_failed_length (outcomes : list (UploadFile * bool)) :
  (length (succeeded outcomes) + length (failed outcomes))%nat = length outcomes.
Proof.
  unfold succeeded, failed. rewrite !length_map.
  induction outcomes as [|[f [|]] r IH]; cbn; lia.
Qed.

Lemma upload_one_outcome (delay : number) (item : UploadFile) (s : State) :
  exists (b : bool) (s' : State) (t : Trace),
    upload_one accessToken driveId folderId delay item s = (Ok tt, s', t)
    /\ tallied (st_report s) (st_report s') [(item, b)]
    /\ st_source s' = st_source s.
Proof.
  destruct (uploadFileWithRetry_total item s) as [b Hb].
  destruct (uploadFileWithRetry_tally item s) as [(Hu & Hul & Hf & Hfl) _].
  destruct (uploadFileWithRetry_source item s) as [Hss _].
  exists b. unfold upload_one. rewrite bind_run, Hb.
  set (s1 := final (uploadFileWithRetry accessToken driveId folderId item) s) in *.
  set (t1 := trace (uploadFileWithRetry accessToken driveId folderId item) s).
  destruct b; cbn; do 2 eexists; (split; [reflexivity|]);
    unfold tallied, succeeded, failed; cbn;
    rewrite ?Hu, ?Hul, ?Hf, ?Hfl, ?app_nil_r, ?Nat.add_0_r;
    repeat split; auto.
Qed.

Lemma tallied_app (r1 r2 r3 : UploadReport)
    (o1 o2 : list (UploadFile * bool)) :
  tallied r1 r2 o1 -> tallied r2 r3 o2 -> tallied r1 r3 (o1 ++ o2).
Proof.
  unfold tallied, succeeded, failed.
  intros (Hul1 & Hfl1 & Hu1 & Hf1) (Hul2 & Hfl2 & Hu2 & Hf2).
  rewrite !List.filter_app, !map_app, !length_app.
  rewrite Hul2, Hul1, Hfl2, Hfl1, Hu2, Hu1, Hf2, Hf1, <- !app_assoc.
  repeat split; auto; lia.
Qed.

Lemma uploadFiles_outcomes (sourceFiles : list UploadFile) (delay : number) :
  forall s,
  exists (outcomes : list (UploadFile * bool)) (s' : State) (t : Trace),
    uploadFiles accessToken driveId folderId sourceFiles delay s = (Ok tt, s', t)
    /\ map fst outcomes = sourceFiles
    /\ tallied (st_report s) (st_report s') outcomes
    /\ st_source s' = st_source s.
Proof.
  unfold uploadFiles.
  induction sourceFiles as [|item rest IH]; intros s.
  - exists [], s, []. cbn. unfold tallied, succeeded, failed. cbn.
    rewrite !app_nil_r, !Nat.add_0_r. auto 10.
  - destruct (upload_one_outcome delay item s) as (b & s1 & t1 & Hone & Ht1 & Hs1).
    destruct (IH s1) as (outcomes & s2 & t2 & Hrest & Hmap & Ht2 & Hs2).
    exists ((item, b) :: outcomes), s2, (t1 ++ t2).
    cbn [for_of]. unfold bind at 1. rewrite Hone, Hrest.
    split; [reflexivity|]. split; [cbn; congruence|]. split.
    + apply (tallied_app _ _ _ [(item, b)] outcomes Ht1 Ht2).
    + congruence.
Qed.

(** the upload phase always returns; the uploaded list grows by the relative
    paths of the files that succeeded and the failed list by the paths of
    those that failed, in order, and the two counters grow accordingly, so
    together by the number of files *)
Lemma uploadFiles_tally (sourceFiles : list UploadFile)
    (delay : number) (s : State) :
  exists (outcomes : list (UploadFile * bool)) (s' : State) (t : Trace),
    uploadFiles accessToken driveId folderId sourceFiles delay s = (Ok tt, s', t)
    /\ map fst outcomes = sourceFiles
    /\ uploadList (st_report s') =
         uploadList (st_report s) ++ map file_relative (succeeded outcomes)
    /\ failedList (st_report s') =
         failedList (st_report s) ++ map file_path (failed outcomes)
    /\ uploads (st_report s') =
         (uploads (st_report s) + length (succeeded outcomes))%nat
    /\ failures (st_report s') =
         (failures (st_report s) + length (failed outcomes))%nat
    /\ (uploads (st_report s') + failures (st_report s'))%nat =
         (uploads (st_report s) + failures (st_report s)
          + length sourceFiles)%nat.
Proof.
  destruct (uploadFiles_outcomes sourceFiles delay s)
    as (outcomes & s' & t & Hrun & Hmap & (Hul & Hfl & Hu & Hf) & _).
  exists outcomes, s', t. repeat split; auto.
  rewrite Hu, Hf, <- Hmap, length_map.
  pose proof (succeeded_failed_length outcomes). lia.
Qed.

End UploadPhase.

(** ** The hierarchy builder *)

Section Paths.

Lemma includes_slash_cons (c : ascii) (s : string) :
  includes "/" (String c s) = Ascii.eqb c "/" || includes "/" s.
Proof.
  cbn [includes String.prefix].
  destruct (ascii_dec "/" c) as [<- | Hne].
  - destruct s; reflexivity.
  - destruct (Ascii.eqb_spec c "/"); [congruence | reflexivity].
Qed.

Lemma includes_slash_app (p s : string) :
  includes "/" (p +:+ "/" +:+ s) = true.
Proof.
  induction p as [|c p IH].
  - change ("" +:+ "/" +:+ s) with (String "/" s).
    rewrite includes_slash_cons. reflexivity.
  - change (String c p +:+ "/" +:+ s) with (String c (p +:+ "/" +:+ s)).
    rewrite includes_slash_cons, IH. apply orb_true_r.
Qed.

Lemma parent_path_no_slash (s : string) : no_slash s -> parent_path s = "".
Proof.
  unfold no_slash. destruct s as [|c s]; [reflexivity|].
  rewrite includes_slash_cons. intros H. apply orb_false_elim in H as [_ H].
  cbn [parent_path]. rewrite H. reflexivity.
Qed.

Lemma parent_path_app (p s : string) :
  no_slash s -> parent_path (p +:+ "/" +:+ s) = p.
Proof.
  intros Hs. induction p as [|c p IH].
  - change ("" +:+ "/" +:+ s) with (String "/" s).
    cbn [parent_path]. rewrite Hs. reflexivity.
  - change (String c p +:+ "/" +:+ s) with (String c (p +:+ "/" +:+ s)).
    cbn [parent_path]. rewrite includes_slash_app, IH. reflexivity.
Qed.

(** the parent of the path the walk moves to is the path it is at *)
Lemma parent_path_next (currentPath : option string) (segment : string) :
  no_slash segment ->
  parent_path (next_path currentPath segment) = default "" currentPath.
Proof.
  intros Hs. destruct currentPath as [[|c p]|]; cbn [next_path truthy default].
  - apply parent_path_no_slash, Hs.
  - apply parent_path_app, Hs.
  - apply parent_path_no_slash, Hs.
Qed.

Lemma split_slash_no_slash (s : string) : Forall no_slash (split_slash s).
Proof.
  induction s as [|c s IH]; cbn [split_slash].
  - repeat constructor.
  - destruct (Ascii.eqb c "/") eqn:Hc.
    + constructor; [reflexivity | exact IH].
    + destruct (split_slash s) as [|h t].
      * repeat constructor. unfold no_slash. rewrite includes_slash_cons, Hc.
        reflexivity.
      * inversion IH as [|? ? Hh Ht]; subst. constructor; [|exact Ht].
        unfold no_slash in *. rewrite includes_slash_cons, Hc. exact Hh.
Qed.

End Paths.

Section Builder.
Context `{host : Host}.
Variables accessToken driveId folderId : string.
Variable delay : number.

Lemma result_bind {A B} (m : M A) (k : A -> M B) (s : State) :
  result (bind m k) s =
    match result m s with
    | Ok a => result (k a) (final m s)
    | Throw e => Throw e
    end.
Proof.
  unfold result at 1. rewrite bind_run. destruct (result m s); reflexivity.
Qed.

Lemma trace_bind {A B} (m : M A) (k : A -> M B) (s : State) :
  trace (bind m k) s =
    match result m s with
    | Ok a => trace m s ++ trace (k a) (final m s)
    | Throw e => trace m s
    end.
Proof.
  unfold trace at 1. rewrite bind_run. destruct (result m s); reflexivity.
Qed.

Lemma final_bind {A B} (m : M A) (k : A -> M B) (s : State) :
  final (bind m k) s =
    match result m s with
    | Ok a => final (k a) (final m s)
    | Throw e => final m s
    end.
Proof.
  unfold final at 1. rewrite bind_run. destruct (result m s); reflexivity.
Qed.

Lemma creations_app (t1 t2 : Trace) :
  creations (t1 ++ t2) = creations t1 ++ creations t2.
Proof. unfold creations. rewrite leaves_app. apply omap_app. Qed.

Lemma omap_all_None {A B} (f : A -> option B) (l : list A) :
  Forall (fun x => f x = None) l -> omap f l = [].
Proof.
  induction 1 as [|x l Hx Hl IH]; [reflexivity|].
  cbn [omap list_omap]. rewrite Hx. exact IH.
Qed.

Lemma folder_response_creates_nothing (currentPath parentId : string)
    (folderMap : gmap string string) (segment : string) (res : Response)
    (s : State) :
  creations (trace (folder_response accessToken driveId delay currentPath
                      parentId folderMap segment res) s) = [].
Proof.
  apply omap_all_None.
  eapply (folder_response_respects any_frame
            (fun x => creation_of x = None)); try exact _;
    try (intros; reflexivity); intros; exact I.
Qed.

Lemma folder_response_returns (currentPath parentId : string)
    (folderMap : gmap string string) (segment : string) (res : Response)
    (s : State) (w' : Walk) :
  result (folder_response accessToken driveId delay currentPath parentId
            folderMap segment res) s = Ok w' ->
  exists id,
    w' = mkWalk (Some currentPath) id (<[currentPath := id]> folderMap).
Proof.
  unfold folder_response. intros H.
  repeat first
    [ discriminate H
    | rewrite result_bind in H
    | match type of H with
      | context [if ?c then _ else _] => destruct c
      | context [match ?x with _ => _ end] => destruct x
      end ];
    cbn in H; inversion H; eauto.
Qed.

Lemma create_folder_creations (currentPath parentId : string)
    (folderMap : gmap string string) (segment : string) (s : State) :
  creations (trace (create_folder accessToken driveId delay currentPath
                      parentId folderMap segment) s)
  = [{| cr_path := currentPath; cr_parentId := parentId;
        cr_cache := folderMap |}].
Proof.
  unfold create_folder. rewrite trace_bind.
  unfold result at 1, trace at 1, trace at 2, final, fetch_noted.
  destruct (fetch_step _ _) as [[e|res] w]; cbn -[folder_response]; [reflexivity|].
  f_equal. apply folder_response_creates_nothing.
Qed.

Lemma create_folder_returns (currentPath parentId : string)
    (folderMap : gmap string string) (segment : string) (s : State)
    (w' : Walk) :
  result (create_folder accessToken driveId delay currentPath parentId
            folderMap segment) s = Ok w' ->
  exists id,
    w' = mkWalk (Some currentPath) id (<[currentPath := id]> folderMap).
Proof.
  unfold create_folder. rewrite result_bind.
  destruct (result (fetch_noted _ _ _) s); [|discriminate].
  apply folder_response_returns.
Qed.

(** a path already in the cache is resolved without any event *)
Lemma walk_segment_hit (w : Walk) (segment id : string) (s : State) :
  w_folderMap w !! next_path (w_currentPath w) segment = Some id ->
  walk_segment accessToken driveId delay w segment s =
    (Ok (mkWalk (Some (next_path (w_currentPath w) segment)) id
                (w_folderMap w)), s, []).
Proof. intros H. unfold walk_segment. rewrite H. reflexivity. Qed.

Lemma closed_insert (fm : gmap string string) (p id : string) :
  closed fm -> is_Some (fm !! parent_path p) -> fm !! p = None ->
  closed (<[p := id]> fm).
Proof.
  intros Hcl Hpar Hnew q Hq.
  assert (Hsub : fm ⊆ <[p := id]> fm) by (apply insert_subseteq, Hnew).
  destruct (decide (q = p)) as [-> | Hne].
  - eapply lookup_weaken_is_Some; eauto.
  - rewrite lookup_insert_ne in Hq by congruence.
    eapply lookup_weaken_is_Some; [apply Hcl, Hq | exact Hsub].
Qed.

Lemma walk_segment_built (w : Walk) (segment : string) (s : State) :
  WalkInv folderId w -> no_slash segment ->
  built (sound_creation folderId) w_folderMap (WalkInv folderId)
    (w_folderMap w)
    (result (walk_segment accessToken driveId delay w segment) s)
    (trace (walk_segment accessToken driveId delay w segment) s).
Proof.
  intros [Hpar [Hroot Hcl]] Hseg. unfold walk_segment, built.
  destruct (w_folderMap w !! next_path (w_currentPath w) segment)
    as [id|] eqn:Hlook.
  - cbn. split; [constructor|]. split; [constructor|].
    split; [intros c Hc; inversion Hc|].
    intros v Hv. injection Hv as <-. cbn.
    split; [repeat split; assumption|]. split; [reflexivity|].
    intros c Hc. inversion Hc.
  - rewrite create_folder_creations.
    assert (Hp : w_folderMap w !! parent_path
                   (next_path (w_currentPath w) segment)
                 = Some (w_parentId w))
      by (rewrite parent_path_next by exact Hseg; exact Hpar).
    split; [|split; [|split]].
    + constructor; [|constructor].
      split; [exact Hp|]. split; [exact Hlook|]. split; assumption.
    + cbn. apply NoDup_singleton.
    + intros c Hc. apply list_elem_of_singleton in Hc as ->. exact Hlook.
    + intros v Hv. apply create_folder_returns in Hv as [id ->].
      unfold WalkInv, root_cached.
      cbn [w_folderMap w_currentPath w_parentId default].
      split; [split; [|split]|split].
      * apply lookup_insert_eq.
      * rewrite lookup_insert_ne; [exact Hroot|]. congruence.
      * apply closed_insert; [exact Hcl | rewrite Hp; eauto | exact Hlook].
      * apply insert_subseteq, Hlook.
      * intros c Hc. apply list_elem_of_singleton in Hc as ->. cbn [cr_path].
        rewrite lookup_insert_eq. eauto.
Qed.

(** [built] composes along sequencing *)
Lemma built_bind {V W} (C : Creation -> Prop)
    (get1 : V -> gmap string string) (I1 : V -> Prop)
    (get2 : W -> gmap string string) (I2 : W -> Prop)
    (fm : gmap string string) (m : M V) (k : V -> M W) (s : State) :
  built C get1 I1 fm (result m s) (trace m s) ->
  (forall v, result m s = Ok v -> I1 v ->
     built C get2 I2 (get1 v) (result (k v) (final m s))
           (trace (k v) (final m s))) ->
  built C get2 I2 fm (result (bind m k) s) (trace (bind m k) s).
Proof.
  intros (Hpc1 & Hnd1 & Hnew1 & Hok1) Hk.
  rewrite result_bind, trace_bind. unfold built.
  destruct (result m s) as [v|e] eqn:Hr.
  - destruct (Hok1 v eq_refl) as (HI1 & Hsub1 & Hin1).
    destruct (Hk v eq_refl HI1) as (Hpc2 & Hnd2 & Hnew2 & Hok2).
    rewrite creations_app. split; [|split; [|split]].
    + apply Forall_app; auto.
    + rewrite map_app. apply NoDup_app. repeat split; auto.
      intros p Hp1 Hp2.
      apply list_elem_of_fmap in Hp1 as (c1 & -> & Hc1).
      apply list_elem_of_fmap in Hp2 as (c2 & Heq & Hc2).
      specialize (Hin1 c1 Hc1). specialize (Hnew2 c2 Hc2).
      rewrite <- Heq in Hnew2. rewrite Hnew2 in Hin1.
      destruct Hin1 as [? ?]; discriminate.
    + intros c Hc. apply elem_of_app in Hc as [Hc|Hc]; [auto|].
      eapply lookup_weaken_None; [apply Hnew2, Hc | exact Hsub1].
    + intros v2 Hv2. destruct (Hok2 v2 Hv2) as (HI2 & Hsub2 & Hin2).
      split; [exact HI2|]. split; [etransitivity; eassumption|].
      intros c Hc. apply elem_of_app in Hc as [Hc|Hc]; [|auto].
      eapply lookup_weaken_is_Some; [apply Hin1, Hc | exact Hsub2].
  - split; [exact Hpc1|]. split; [exact Hnd1|]. split; [exact Hnew1|].
    discriminate.
Qed.

Lemma built_ret {V} (C : Creation -> Prop) (get : V -> gmap string string)
    (I : V -> Prop) (v : V) (s : State) :
  I v -> built C get I (get v) (result (ret v) s) (trace (ret v) s).
Proof.
  intros HI. unfold built. cbn.
  split; [constructor|]. split; [constructor|].
  split; [intros c Hc; inversion Hc|].
  intros v' Hv. injection Hv as <-.
  split; [exact HI|]. split; [reflexivity|].
  intros c Hc. inversion Hc.
Qed.

Lemma built_for_of_with {X V} (C : Creation -> Prop)
    (get : V -> gmap string string) (I : V -> Prop)
    (E : X -> Prop) (body : V -> X -> M V) :
  (forall v x s, I v -> E x ->
     built C get I (get v) (result (body v x) s) (trace (body v x) s)) ->
  forall l v s, Forall E l -> I v ->
    built C get I (get v) (result (for_of_with l v body) s)
          (trace (for_of_with l v body) s).
Proof.
  intros Hbody l. induction l as [|x l IH]; intros v s Hall HI;
    cbn [for_of_with].
  - apply built_ret, HI.
  - inversion Hall as [|? ? Hx Hl]; subst.
    apply (built_bind C get I get I); auto.
Qed.

Lemma walk_folder_built (fm : gmap string string) (folder : SourceFolder)
    (s : State) :
  root_cached folderId fm ->
  built (sound_creation folderId) id (root_cached folderId) fm
    (result (walk_folder accessToken driveId folderId delay fm folder) s)
    (trace (walk_folder accessToken driveId folderId delay fm folder) s).
Proof.
  intros Hroot. unfold walk_folder.
  apply (built_bind _ w_folderMap (WalkInv folderId) id (root_cached folderId)).
  - apply (built_for_of_with (sound_creation folderId) w_folderMap
             (WalkInv folderId) no_slash
             (walk_segment accessToken driveId delay)
             (fun v x s' => walk_segment_built v x s')
             _ (mkWalk None folderId fm) s).
    + apply split_slash_no_slash.
    + split; [apply Hroot | exact Hroot].
  - intros w _ [_ Hr].
    apply (built_ret _ id (root_cached folderId) (w_folderMap w)), Hr.
Qed.

Lemma root_cached_initial : root_cached folderId (<["" := folderId]> ∅).
Proof.
  split; [apply lookup_insert_eq|].
  intros p [x Hp]. destruct (decide (p = "")) as [-> | Hne].
  - cbn [parent_path]. eauto.
  - rewrite lookup_insert_ne, lookup_empty in Hp by congruence. discriminate.
Qed.

Lemma createFolders_map_built (sourceFolders : list SourceFolder) (s : State) :
  built (sound_creation folderId) id (root_cached folderId)
    (<["" := folderId]> ∅)
    (result (createFolders_map accessToken driveId folderId sourceFolders
               delay) s)
    (trace (createFolders_map accessToken driveId folderId sourceFolders
              delay) s).
Proof.
  unfold createFolders_map.
  apply (built_for_of_with (sound_creation folderId) id
           (root_cached folderId) (fun _ => True)
           (walk_folder accessToken driveId folderId delay)).
  - intros fm folder s' Hroot _. apply walk_folder_built, Hroot.
  - apply Forall_forall. auto.
  - apply root_cached_initial.
Qed.

(** in a closed cache every ancestor of a cached path is cached *)
Lemma closed_ancestors (fm : gmap string string) (p : string) (n : nat) :
  closed fm -> is_Some (fm !! p) ->
  is_Some (fm !! Nat.iter n parent_path p).
Proof.
  intros Hcl Hp. induction n as [|n IH]; [exact Hp|].
  cbn [Nat.iter]. apply Hcl, IH.
Qed.

Lemma createFolders_map_posts (sourceFolders : list SourceFolder) (s : State) :
  Forall (noted_create driveId)
    (leaves false
       (trace (createFolders_map accessToken driveId folderId sourceFolders
                 delay) s)).
Proof.
  eapply (createFolders_map_respects any_frame (noted_create driveId));
    try exact _; try (intros; exact I).
  - intros path parentId cache segment out _. eauto.
  - intros parentId segment out Hpost. discriminate Hpost.
Qed.

(** C4. Every folder creation the hierarchy builder requests is posted under
    the id the cache holds for the parent of the created path; the cache of
    that moment holds the root path under the root folder id and every
    proper prefix of the created path. Every POST request of the builder is
    such a creation. *)
Theorem ancestors_before_descendants (sourceFolders : list SourceFolder)
    (s : State) :
  let t := trace (createFolders_map accessToken driveId folderId
                    sourceFolders delay) s in
  Forall (fun c =>
            cr_cache c !! parent_path (cr_path c) = Some (cr_parentId c)
            /\ cr_cache c !! "" = Some folderId
            /\ forall n, is_Some (cr_cache c
                                   !! Nat.iter (S n) parent_path (cr_path c)))
         (creations t)
  /\ Forall (noted_create driveId) (leaves false t).
Proof.
  intros t. split; [|apply createFolders_map_posts].
  destruct (createFolders_map_built sourceFolders s) as (Hsound & _).
  eapply Forall_impl; [exact Hsound|].
  intros c (Hpar & _ & Hroot & Hcl). split; [exact Hpar|].
  split; [exact Hroot|]. intros n.
  rewrite Nat.iter_succ_r. apply closed_ancestors; [exact Hcl|].
  unfold parent_cached in Hpar. rewrite Hpar. eauto.
Qed.

(** C10. Within a run no folder path is created twice: the paths of the
    creation requests are pairwise distinct, each was absent from the cache
    when its request was issued, and a path found in the cache is resolved
    from it without any request or other event. *)
Theorem one_create_per_path (sourceFolders : list SourceFolder) (s : State) :
  let t := trace (createFolders_map accessToken driveId folderId
                    sourceFolders delay) s in
  NoDup (map cr_path (creations t))
  /\ Forall (fun c => cr_cache c !! cr_path c = None) (creations t)
  /\ Forall (noted_create driveId) (leaves false t)
  /\ (forall (w : Walk) (segment id : string) (s' : State),
        w_folderMap w !! next_path (w_currentPath w) segment = Some id ->
        walk_segment accessToken driveId delay w segment s' =
          (Ok (mkWalk (Some (next_path (w_currentPath w) segment)) id
                      (w_folderMap w)), s', [])).
Proof.
  intros t.
  destruct (createFolders_map_built sourceFolders s) as (Hsound & Hnd & _).
  split; [exact Hnd|]. split.
  - eapply Forall_impl; [exact Hsound|]. intros c (_ & Hnew & _). exact Hnew.
  - split; [apply createFolders_map_posts|].
    intros w segment id s'. apply walk_segment_hit.
Qed.

End Builder.

(** ** The directory scanner *)

Section Scanner.
Context `{host : Host}.

Lemma for_of_total {A} (l : list A) (body : A -> M unit) :
  Forall (fun x => forall s, result (body x) s = Ok tt) l ->
  forall s, result (for_of l body) s = Ok tt.
Proof.
  induction 1 as [|x l Hx Hl IH]; intros s; cbn [for_of]; [reflexivity|].
  rewrite result_bind, Hx. apply IH.
Qed.

Lemma result_emit (ev : Event) (s : State) : result (emit ev) s = Ok tt.
Proof. reflexivity. Qed.

Lemma result_modify_source (f : SourceStructure -> SourceStructure) (s : State) :
  result (modify_source f) s = Ok tt.
Proof. reflexivity. Qed.

(** an entry never makes the scan fail, whatever it is and however deep *)
Lemma scan_entry_total (entry : Dirent) :
  forall srcFolder s, result (scan_entry srcFolder entry) s = Ok tt.
Proof.
  induction entry as [name entries IH | name | name] using Dirent_nested_ind;
    intros srcFolder s; [|reflexivity|reflexivity].
  rewrite scan_entry_dir. unfold core_debug.
  rewrite result_bind, result_emit, result_bind, result_modify_source,
    result_bind, result_emit, result_bind.
  rewrite for_of_total; [reflexivity|].
  eapply Forall_impl; [exact IH|]. intros e He s'. apply He.
Qed.

(** C8. The scan fails exactly when the top-level directory has no entries,
    and then with the "No upload items found" error; below the top level an
    empty directory is recorded as a folder and nothing fails; an entry that
    is neither a file nor a directory changes nothing, at any level. *)
Theorem scan_fails_only_on_empty_root (srcFolder : string)
    (entries : list Dirent) (s : State) :
  (entries = [] ->
   populateSourceStructure srcFolder entries true s =
     (Throw (new_Error (no_items_message srcFolder)), s, [EvCore Debug]))
  /\ (entries <> [] ->
      result (populateSourceStructure srcFolder entries true) s = Ok tt)
  /\ result (populateSourceStructure srcFolder entries false) s = Ok tt
  /\ (forall name,
        result (scan_entry srcFolder (DirEntry name [])) s = Ok tt
        /\ st_source (final (scan_entry srcFolder (DirEntry name [])) s) =
             push_folder {| src_name := name;
                            src_path := path_join srcFolder name |}
                         (st_source s))
  /\ (forall name,
        scan_entry srcFolder (OtherEntry name) s = (Ok tt, s, [EvCore Debug])).
Proof.
  assert (Hloop : forall l s',
             result (for_of l (scan_entry srcFolder) ;; core_debug) s' = Ok tt).
  { intros l s'. rewrite result_bind, for_of_total; [reflexivity|].
    apply Forall_forall. intros e _ s''. apply scan_entry_total. }
  split; [|split; [|split; [|split]]].
  - intros ->. reflexivity.
  - intros Hne. unfold populateSourceStructure, core_debug at 1.
    rewrite result_bind, result_emit.
    destruct entries as [|e r]; [congruence|]. apply Hloop.
  - unfold populateSourceStructure, core_debug at 1.
    rewrite result_bind, result_emit. apply Hloop.
  - intros name. split; [apply scan_entry_total | reflexivity].
  - intros name. reflexivity.
Qed.

End Scanner.

(** ** Where requests are issued, and how uploads are addressed *)

Section Requests.
Context `{host : Host}.

Lemma Forall_omap {A B} (f : A -> option B) (P : A -> Prop) (Q : B -> Prop)
    (l : list A) :
  (forall x y, f x = Some y -> P x -> Q y) ->
  Forall P l -> Forall Q (omap f l).
Proof.
  intros Hf. induction 1 as [|x l Hx Hl IH]; [constructor|].
  cbn [omap list_omap]. destruct (f x) as [y|] eqn:Hy; [|exact IH].
  constructor; [eapply Hf; eauto | exact IH].
Qed.

Lemma run_events_placed (inputs : Inputs) (docs : option (list Dirent))
    (s : State) :
  Forall (request_event_placed (drive_id inputs) (folder_id inputs))
         (leaves false (trace (run inputs docs) s)).
Proof.
  eapply (run_respects any_frame
            (request_event_placed (drive_id inputs) (folder_id inputs))
            (fun _ => True) (access_token inputs) (drive_id inputs)
            (folder_id inputs));
    try exact _; try reflexivity; try (intros; exact I).
  - intros path parentId cache segment out. split; [reflexivity | eauto].
  - intros parentId segment out. left. split; [reflexivity | eauto].
  - intros file mimeType out _. right. exists file, mimeType.
    split; reflexivity.
Qed.

Lemma run_request_kinds (inputs : Inputs) (docs : option (list Dirent))
    (s : State) :
  Forall (request_placed (drive_id inputs) (folder_id inputs))
         (requests (trace (run inputs docs) s)).
Proof.
  unfold requests.
  eapply Forall_omap; [|apply run_events_placed].
  intros [b ev] [b' req] Hreq Hplaced.
  destruct ev; try discriminate Hreq. injection Hreq as <- <-. exact Hplaced.
Qed.

(** C6, as the code has it. Every request of a run is of one of three
    kinds: a folder creation, issued outside the retry executor; a listing
    of a folder's children or a file upload, issued inside it. *)
Theorem requests_placed (inputs : Inputs) (docs : option (list Dirent))
    (s : State) :
  Forall (request_placed (drive_id inputs) (folder_id inputs))
         (requests (trace (run inputs docs) s)).
Proof. apply run_request_kinds. Qed.

Lemma uploadFiles_addressed (accessToken driveId folderId : string)
    (sourceFiles : list UploadFile) (delay : number) (s : State) :
  Forall (addressed_from driveId folderId sourceFiles)
    (leaves false
       (trace (uploadFiles accessToken driveId folderId sourceFiles delay) s)).
Proof.
  eapply (uploadFiles_respects any_frame
            (addressed_from driveId folderId sourceFiles)
            (fun file => file ∈ sourceFiles) accessToken driveId folderId);
    try exact _; try (intros; exact I).
  - intros file mimeType out Hin. exists file.
    split; [exact Hin|]. repeat split.
  - apply Forall_forall. auto.
Qed.

(** C7, as the code has it. In the upload phase every request is a PUT of
    one of the files, addressed from the folder id the phase was given by
    the file's whole relative path; in a run that id is the root folder id
    of the inputs, for every PUT request. *)
Theorem uploads_addressed_from_root :
  (forall (accessToken driveId folderId : string)
          (sourceFiles : list UploadFile) (delay : number) (s : State),
      Forall (addressed_from driveId folderId sourceFiles)
        (leaves false
           (trace (uploadFiles accessToken driveId folderId sourceFiles
                     delay) s)))
  /\ (forall (inputs : Inputs) (docs : option (list Dirent)) (s : State),
        Forall (fun x : bool * Request =>
                  init_method (req_init x.2) = PUT ->
                  is_upload_request (drive_id inputs) (folder_id inputs) x.2)
               (requests (trace (run inputs docs) s))).
Proof.
  split; [apply uploadFiles_addressed|].
  intros inputs docs s.
  eapply Forall_impl; [apply run_request_kinds|].
  intros [[|] req]; unfold request_placed; cbn [fst snd].
  - intros [[Hget _] | Hup] Hput; [congruence | exact Hup].
  - intros [Hpost _] Hput. congruence.
Qed.

End Requests.

(** Counterexample to C6 as stated: the creation of folder [a] is answered
    503, a retryable status, with two retries configured and further answers
    available; the request is issued once, outside the executor, and the run
    stops there. *)
Lemma creation_outside_executor_counterexample :
  let t := trace (@run Scripted.host Scripted.inputs (Some Scripted.tree))
             (Scripted.start
                [Scripted.answered 503; Scripted.created "id-a";
                 Scripted.created "id-b"]) in
  503 ∈ upload_retryableStatuses
  /\ @UPLOAD_MAX_RETRIES Scripted.host = 2
  /\ requests t =
       [(false,
         {| req_url :=
              "https://graph.microsoft.com/v1.0/drives/d/items/root/children";
            req_init := create_init "tok" "a" |})]
  /\ ~ all_through_executor t.
Proof.
  cbv zeta.
  assert (Hreq : requests
            (trace (@run Scripted.host Scripted.inputs (Some Scripted.tree))
               (Scripted.start
                  [Scripted.answered 503; Scripted.created "id-a";
                   Scripted.created "id-b"]))
          = [(false,
              {| req_url :=
                   "https://graph.microsoft.com/v1.0/drives/d/items/root/children";
                 req_init := create_init "tok" "a" |})])
    by (vm_compute; reflexivity).
  split; [cbn; repeat constructor|]. split; [reflexivity|].
  split; [exact Hreq|].
  unfold all_through_executor. rewrite Hreq. intros Hall.
  inversion Hall as [|x l Hx Hl]; subst. discriminate Hx.
Qed.

(** Counterexample to C7 as stated: the builder caches [a] under [id-a];
    the upload of [/a/one.txt] is addressed from the root folder id, not
    from [id-a]. *)
Lemma cache_not_consulted_counterexample :
  let file := {| file_name := "one.txt";
                 file_path := "/tmp/c/docx/a/one.txt";
                 file_relative := "/a/one.txt" |} in
  exists (cache : gmap string string) (s1 : @State Scripted.host) (t1 : Trace)
         (req : Request),
    @createFolders_map Scripted.host "tok" "d" "root"
      [{| folder_name := "a"; folder_path := "/a" |};
       {| folder_name := "b"; folder_path := "/a/b" |}] (of_Z 10)
      (Scripted.start
         [Scripted.created "id-a"; Scripted.created "id-b";
          Scripted.created "one"])
    = (Ok cache, s1, t1)
    /\ cache !! destination_folder file = Some "id-a"
    /\ requests (trace (@uploadFiles Scripted.host "tok" "d" "root" [file]
                          (of_Z 10)) s1)
       = [(true, req)]
    /\ req_url req =
         "https://graph.microsoft.com/v1.0/drives/d/items/root:/a/one.txt:/content"
    /\ ~ resolved_through_cache "d" cache file req.
Proof.
  cbv zeta. do 4 eexists.
  split; [vm_compute; reflexivity|].
  split; [vm_compute; reflexivity|].
  split; [vm_compute; reflexivity|].
  split; [reflexivity|].
  intros (id & tail & Hid & Hurl).
  vm_compute in Hid. injection Hid as <-.
  vm_compute in Hurl. discriminate Hurl.
Qed.

(** ** The outputs of a run *)

Section Outputs.
Context `{host : Host}.

Lemma outputs_app (t1 t2 : Trace) :
  outputs (t1 ++ t2) = outputs t1 ++ outputs t2.
Proof. unfold outputs. rewrite leaves_app. apply omap_app. Qed.

Lemma outputs_core (lvl : Level) (t : Trace) :
  outputs (EvCore lvl :: t) = outputs t.
Proof. reflexivity. Qed.

Lemma run_phases_silent (accessToken driveId folderId docsDir : string)
    (delay : number) (docs : option (list Dirent)) (s : State) :
  outputs (trace (run_phases accessToken driveId folderId docsDir delay docs) s)
  = [].
Proof.
  apply omap_all_None.
  eapply (run_phases_respects any_frame (fun x => output_of x = None)
            (fun _ => True) accessToken driveId folderId);
    try exact _; try (intros; reflexivity); intros; exact I.
Qed.

Lemma run_check_runs (s : State) :
  run_check s =
    (Ok tt, s,
     if failure_flag (st_report s)
     then [EvSetOutput "error_message" some_failed_message] else []).
Proof.
  unfold run_check, failure_flag, bind, get_state.
  destruct (_ || _); reflexivity.
Qed.

Lemma run_finally_runs (s : State) :
  run_finally s = (Ok tt, s, EvCore Info :: map (fun o => EvSetOutput o.1 o.2)
                                             (report_outputs (st_report s))).
Proof. reflexivity. Qed.

Lemma outputs_of_outputs (l : list (string * string)) :
  outputs (map (fun o => EvSetOutput o.1 o.2) l) = l.
Proof.
  induction l as [|[k v] l IH]; [reflexivity|].
  change (outputs ([EvSetOutput k v] ++ map (fun o => EvSetOutput o.1 o.2) l)
          = [(k, v)] ++ l).
  rewrite outputs_app, IH. reflexivity.
Qed.

(** the three ways a run ends: the [try] block returns, with or without
    failed files, or it throws *)
Lemma run_unfold (inputs : Inputs) (docs : option (list Dirent)) (s : State) :
  let body := run_try (access_token inputs) (drive_id inputs)
                (folder_id inputs) (zip_contents_path inputs +:+ "/docx")
                (parseInt10 (delay_input inputs)) docs in
  run inputs docs s =
    (Ok tt, final body s,
     [EvCore Info] ++ trace body s
     ++ match result body s with
        | Ok _ => []
        | Throw e =>
            [EvCore Warning;
             EvSetOutput "error_message"
               ("❌ Upload Error: " +:+ err_message e)]
        end
     ++ EvCore Info :: map (fun o => EvSetOutput o.1 o.2)
                           (report_outputs (st_report (final body s)))).
Proof.
  intros body. unfold run. fold body.
  unfold bind at 1, core_info at 1, emit, try_finally, try_catch.
  unfold result, final, trace.
  destruct (body s) as [[[[]|e] s1] t1]; cbn [fst snd].
  - rewrite run_finally_runs. rewrite app_nil_l. reflexivity.
  - unfold run_catch, core_warning, core_setOutput, emit, bind.
    rewrite run_finally_runs. cbn [app]. rewrite <- app_assoc. reflexivity.
Qed.

Lemma run_try_ends (accessToken driveId folderId docsDir : string)
    (delay : number) (docs : option (list Dirent)) (s : State) :
  let phases := run_phases accessToken driveId folderId docsDir delay docs in
  let body := run_try accessToken driveId folderId docsDir delay docs in
  final body s = final phases s
  /\ result body s = result phases s
  /\ outputs (trace body s) =
       match result phases s with
       | Ok _ =>
           if failure_flag (st_report (final phases s))
           then [("error_message", some_failed_message)] else []
       | Throw _ => []
       end.
Proof.
  intros phases body. unfold body, run_try. fold phases.
  rewrite final_bind, result_bind, trace_bind.
  pose proof (run_phases_silent accessToken driveId folderId docsDir delay
                docs s) as Hsilent. fold phases in Hsilent.
  destruct (result phases s) as [[]|e].
  - unfold final at 1, result at 1, trace at 2. rewrite run_check_runs.
    cbn [fst snd]. rewrite outputs_app, Hsilent.
    split; [reflexivity|]. split; [reflexivity|].
    destruct (failure_flag _); reflexivity.
  - auto.
Qed.

(** C9, as the code has it. A run always returns. Its outputs are, in
    order: [error_message] when the [try] block threw (with the error's
    message) or when a file failed; then the uploaded count, the uploaded
    relative paths, the failure count, the failed paths and the lock count of
    the final report. No output carries the count of folder-creation
    failures. *)
Theorem run_outputs (inputs : Inputs) (docs : option (list Dirent))
    (s : State) :
  let body := run_try (access_token inputs) (drive_id inputs)
                (folder_id inputs) (zip_contents_path inputs +:+ "/docx")
                (parseInt10 (delay_input inputs)) docs in
  let r := st_report (final (run inputs docs) s) in
  result (run inputs docs) s = Ok tt
  /\ outputs (trace (run inputs docs) s) =
       match result body s with
       | Ok _ =>
           if failure_flag r
           then [("error_message", some_failed_message)] else []
       | Throw e =>
           [("error_message", "❌ Upload Error: " +:+ err_message e)]
       end
       ++ [("upload_successes", String_of_nat (uploads r));
           ("upload_list", join ", " (uploadList r));
           ("upload_failures", String_of_nat (failures r));
           ("upload_failed_list", join ", " (failedList r));
           ("upload_failed_locked", String_of_nat (lockedFiles r))].
Proof.
  intros body r.
  pose proof (run_unfold inputs docs s) as Hrun. cbv zeta in Hrun.
  fold body in Hrun.
  assert (Hfinal : final (run inputs docs) s = final body s)
    by (unfold final at 1; rewrite Hrun; reflexivity).
  split; [unfold result at 1; rewrite Hrun; reflexivity|].
  unfold r. rewrite Hfinal. unfold trace at 1. rewrite Hrun. cbn [snd].
  destruct (run_try_ends (access_token inputs) (drive_id inputs)
              (folder_id inputs) (zip_contents_path inputs +:+ "/docx")
              (parseInt10 (delay_input inputs)) docs s)
    as (Hf & Hr & Hout).
  fold body in Hf, Hr, Hout.
  rewrite !outputs_app, Hout.
  rewrite !outputs_core, outputs_of_outputs.
  rewrite Hr, Hf.
  destruct (result (run_phases _ _ _ _ _ _) s) as [[]|e]; cbn [app].
  - destruct (failure_flag _); reflexivity.
  - reflexivity.
Qed.

End Outputs.

(** Counterexample to C9 as stated: the creation of the first folder is
    answered 500; the report counts one folder-creation failure, and no
    output carries that count. *)
Lemma folder_failures_not_emitted_counterexample :
  let m := @run Scripted.host Scripted.inputs (Some Scripted.tree) in
  let s0 := Scripted.start [Scripted.answered 500] in
  failedFolderCreations (st_report (final m s0)) = 1%nat
  /\ ~ emits_report (outputs (trace m s0)) (st_report (final m s0)).
Proof.
  cbv zeta. split; [vm_compute; reflexivity|].
  intros (k1 & k2 & k3 & k4 & k5 & k6 & _ & _ & _ & _ & _ & H5 & _).
  vm_compute in H5.
  repeat (apply elem_of_cons in H5 as [H5|H5]; [discriminate H5|]).
  apply elem_of_nil in H5. exact H5.
Qed.

(** ** Conflicts on folder creation *)

Section Conflict.
Context `{host : Host}.
Variables accessToken driveId : string.
Variable delay : number.
Variables currentPath parentId : string.
Variable folderMap : gmap string string.
Variable segment : string.




End Conflict.


(** ** The tally of a run *)

Section RunTally.
Context `{host : Host}.

Lemma run_final (inputs : Inputs) (docs : option (list Dirent)) (s : State) :
  final (run inputs docs) s =
  final (run_phases (access_token inputs) (drive_id inputs) (folder_id inputs)
           (zip_contents_path inputs +:+ "/docx")
           (parseInt10 (delay_input inputs)) docs) s.
Proof.
  pose proof (run_unfold inputs docs s) as Hrun. cbv zeta in Hrun.
  unfold final at 1. rewrite Hrun. cbn [fst snd].
  apply run_try_ends.
Qed.

Lemma run_prepare_tally (accessToken driveId folderId docsDir : string)
    (delay : number) (docs : option (list Dirent)) (s : State) :
  same_tally (st_report s) (st_source s)
    (st_report (final (run_prepare accessToken driveId folderId docsDir delay
                         docs) s))
    (st_source (final (run_prepare accessToken driveId folderId docsDir delay
                         docs) s)).
Proof.
  eapply (run_prepare_respects same_tally (fun _ => True) accessToken driveId
            folderId);
    try exact _; try (intros; exact I);
    intros; unfold same_tally; cbn; auto.
Qed.

Lemma run_upload_runs (accessToken driveId folderId docsDir : string)
    (delay : number) (s : State) :
  final (run_upload accessToken driveId folderId docsDir delay) s =
  final (uploadFiles accessToken driveId folderId
           (map (to_file docsDir) (files (st_source s))) delay) s.
Proof.
  unfold run_upload. rewrite final_bind. cbn [result get_state fst].
  unfold final at 2. cbn [get_state fst snd].
  rewrite final_bind. reflexivity.
Qed.

(** C3. Every file of the upload phase gets exactly one outcome. The phase
    always returns; the uploaded list grows by the relative paths of the
    files that succeeded and the failed list by the paths of those that
    failed, in order, and the counters by their numbers. In a run that
    reaches the phase the final report lists every scanned file once, as
    uploaded or as failed, and the two counters add up to the number of
    files; in a run that stops before it they are zero. *)
Theorem every_file_one_outcome :
  (forall (accessToken driveId folderId : string)
          (sourceFiles : list UploadFile) (delay : number) (s : State),
      exists (outcomes : list (UploadFile * bool)) (s' : State) (t : Trace),
        uploadFiles accessToken driveId folderId sourceFiles delay s
        = (Ok tt, s', t)
        /\ map fst outcomes = sourceFiles
        /\ uploadList (st_report s') =
             uploadList (st_report s) ++ map file_relative (succeeded outcomes)
        /\ failedList (st_report s') =
             failedList (st_report s) ++ map file_path (failed outcomes)
        /\ uploads (st_report s') =
             (uploads (st_report s) + length (succeeded outcomes))%nat
        /\ failures (st_report s') =
             (failures (st_report s) + length (failed outcomes))%nat)
  /\ (forall (inputs : Inputs) (docs : option (list Dirent)) (w : World),
        let docsDir := zip_contents_path inputs +:+ "/docx" in
        let prepare := run_prepare (access_token inputs) (drive_id inputs)
                         (folder_id inputs) docsDir
                         (parseInt10 (delay_input inputs)) docs in
        let scanned := files (st_source (final prepare (initial_state w))) in
        let r := st_report (final (run inputs docs) (initial_state w)) in
        match result prepare (initial_state w) with
        | Ok _ =>
            exists outcomes : list (UploadFile * bool),
              map fst outcomes = map (to_file docsDir) scanned
              /\ uploadList r = map file_relative (succeeded outcomes)
              /\ failedList r = map file_path (failed outcomes)
              /\ uploads r = length (succeeded outcomes)
              /\ failures r = length (failed outcomes)
              /\ (uploads r + failures r)%nat = length scanned
        | Throw _ =>
            uploads r = 0%nat /\ failures r = 0%nat
            /\ uploadList r = [] /\ failedList r = []
        end).
Proof.
  split.
  - intros accessToken driveId folderId sourceFiles delay s.
    destruct (uploadFiles_outcomes accessToken driveId folderId sourceFiles
                delay s)
      as (outcomes & s' & t & Hrun & Hmap & (Hul & Hfl & Hu & Hf) & _).
    exists outcomes, s', t. auto 10.
  - intros inputs docs w docsDir prepare scanned r.
    unfold r. rewrite run_final. unfold run_phases.
    fold docsDir. fold prepare. rewrite final_bind.
    destruct (run_prepare_tally (access_token inputs) (drive_id inputs)
                (folder_id inputs) docsDir (parseInt10 (delay_input inputs))
                docs (initial_state w)) as (Hu0 & Hul0 & Hf0 & Hfl0).
    fold prepare in Hu0, Hul0, Hf0, Hfl0. cbn in Hu0, Hul0, Hf0, Hfl0.
    destruct (result prepare (initial_state w)) as [[]|e]; [|auto].
    rewrite run_upload_runs.
    destruct (uploadFiles_outcomes (access_token inputs) (drive_id inputs)
                (folder_id inputs)
                (map (to_file docsDir)
                     (files (st_source (final prepare (initial_state w)))))
                (parseInt10 (delay_input inputs))
                (final prepare (initial_state w)))
      as (outcomes & s' & t & Hrun & Hmap & (Hul & Hfl & Hu & Hf) & _).
    assert (Hend : final (uploadFiles (access_token inputs) (drive_id inputs)
                            (folder_id inputs)
                            (map (to_file docsDir)
                               (files (st_source
                                         (final prepare (initial_state w)))))
                            (parseInt10 (delay_input inputs)))
                         (final prepare (initial_state w)) = s')
      by (unfold final at 1; rewrite Hrun; reflexivity).
    rewrite Hend. exists outcomes.
    rewrite Hul, Hfl, Hu, Hf, Hu0, Hul0, Hf0, Hfl0. cbn [app Nat.add].
    repeat split; auto.
    unfold scanned. rewrite <- (length_map (to_file docsDir)), <- Hmap,
      length_map.
    apply succeeded_failed_length.
Qed.

End RunTally.

(** ** Worked runs *)

(** The tree [a/one.txt], [a/b/two.txt] against an empty remote root: the
    folders [a] and [a/b] are created, in that order, the two files are
    uploaded, and the outputs report two successes. *)
Example run_two_folders_two_files :
  let m := @run Scripted.host Scripted.inputs (Some Scripted.tree) in
  let s0 := Scripted.start
              [Scripted.created "id-a"; Scripted.created "id-b";
               Scripted.created "one"; Scripted.created "two"] in
  map cr_path (creations (trace m s0)) = ["a"; "a/b"]
  /\ map (fun c => cr_parentId c) (creations (trace m s0)) = ["root"; "id-a"]
  /\ outputs (trace m s0) =
       [("upload_successes", "2");
        ("upload_list", "/a/one.txt, /a/b/two.txt");
        ("upload_failures", "0"); ("upload_failed_list", "");
        ("upload_failed_locked", "0")].
Proof. vm_compute. auto. Qed.

(** Folder [a] exists already: its creation is answered 409, the listing
    returns it, and the run goes on with its id. *)
Example run_reuses_existing_folder :
  let m := @run Scripted.host Scripted.inputs (Some Scripted.tree) in
  let s0 := Scripted.start
              [Scripted.answered 409;
               Scripted.listing [{| item_id := "old-a" |}];
               Scripted.created "id-b";
               Scripted.created "one"; Scripted.created "two"] in
  map (fun c => cr_parentId c) (creations (trace m s0)) = ["root"; "old-a"]
  /\ uploads (st_report (final m s0)) = 2%nat
  /\ failures (st_report (final m s0)) = 0%nat.
Proof. vm_compute. auto. Qed.

(** The upload of [one.txt] is answered 423 (locked), which is not retried:
    it is counted as failed and as locked, and [two.txt] is still
    uploaded. *)
Example run_one_locked_file :
  let m := @run Scripted.host Scripted.inputs (Some Scripted.tree) in
  let s0 := Scripted.start
              [Scripted.created "id-a"; Scripted.created "id-b";
               Scripted.answered 423; Scripted.created "two"] in
  st_report (final m s0) =
    {| uploads := 1; uploadList := ["/a/b/two.txt"];
       failures := 1; failedList := ["/tmp/c/docx/a/one.txt"];
       failedFolderCreations := 0; lockedFiles := 1 |}
  /\ attempts (trace (@uploadFileWithRetry Scripted.host "tok" "d" "root"
                        {| file_name := "one.txt";
                           file_path := "/tmp/c/docx/a/one.txt";
                           file_relative := "/a/one.txt" |})
                     (Scripted.start [Scripted.answered 423])) = 1%nat.
Proof. vm_compute. auto. Qed.

(** * Further properties *)

(** ** The retry executors: bounds, short circuit, exhaustion *)

Section RetryBounds.
Context `{host : Host} {A : Type}.
Variable classify : Z -> Error -> bool * option number.
Variable baseDelay : Z.
Variable label : string.
Variable operation : M A.
Variable context : string.
Variable maxRetries : Z.

Local Abbreviation loop :=
  (retry_loop classify baseDelay label operation context maxRetries).

(** one iteration in which the operation returns *)
Lemma retry_loop_success (remaining : nat) (attempt : Z)
    (lastError : option Error) (s s' : State) (a : A) (t : Trace) :
  operation s = (Ok a, s', t) ->
  loop (S remaining) attempt lastError s =
    (Ok a, s',
     EvAttempt attempt t :: if 0 <? attempt then [EvCore Info] else []).
Proof.
  intros Hop. cbn [retry_loop]. unfold bind at 1, invoke. rewrite Hop.
  destruct (0 <? attempt); reflexivity.
Qed.

(** one iteration that catches an error it does not retry *)
Lemma retry_loop_gives_up (remaining : nat) (attempt : Z)
    (lastError : option Error) (s s1 : State) (e : Error) (t : Trace) :
  operation s = (Throw e, s1, t) ->
  (classify (Date_now (st_world s1)) e).1 = false \/ maxRetries <= attempt ->
  loop (S remaining) attempt lastError s = (Throw e, s1, [EvAttempt attempt t]).
Proof.
  intros Hop Hstop. cbn [retry_loop]. unfold bind at 1, invoke.
  rewrite Hop. cbn -[retry_loop pause].
  destruct (classify (Date_now (st_world s1)) e) as [b d].
  replace ((attempt <? maxRetries) && b) with false; [reflexivity|].
  symmetry. apply andb_false_iff.
  destruct Hstop as [Hb | Hle]; [right; exact Hb | left].
  apply Z.ltb_ge, Hle.
Qed.

Lemma pauses_app (t1 t2 : Trace) : pauses (t1 ++ t2) = (pauses t1 + pauses t2)%nat.
Proof. unfold pauses. rewrite List.filter_app, length_app. reflexivity. Qed.

(** the loop invokes the operation at most [remaining] times, at least once
    when an iteration is left, and pauses between two invocations only *)
Lemma retry_loop_bounded (remaining : nat) :
  forall (attempt : Z) (lastError : option Error) (s : State),
    Z.of_nat remaining = Z.max 0 (maxRetries + 1 - attempt) ->
    let t := trace (loop remaining attempt lastError) s in
    (attempts t <= remaining)%nat
    /\ (remaining <> O -> (1 <= attempts t)%nat)
    /\ pauses t = (attempts t - 1)%nat.
Proof.
  induction remaining as [|remaining IH]; intros attempt lastError s Hrem t.
  - subst t. cbn. repeat split; try lia; congruence.
  - subst t. unfold trace.
    destruct (operation s) as [[[a|e] s1] t1] eqn:Hop.
    + rewrite (retry_loop_success _ _ _ _ _ _ _ Hop). cbn [snd].
      destruct (0 <? attempt); cbn; repeat split; lia.
    + destruct (classify (Date_now (st_world s1)) e) as [b d] eqn:Hc.
      destruct (Z.lt_ge_cases attempt maxRetries) as [Hlt | Hge];
        [destruct b|].
      * rewrite (retry_loop_retries classify baseDelay label operation context
                   maxRetries remaining attempt lastError s s1 e t1 Hop);
          [| rewrite Hc; reflexivity | exact Hlt].
        cbv zeta.
        specialize (IH (attempt + 1) (Some e)
                       (state_after_pause classify baseDelay attempt e s1)).
        unfold trace in IH. cbv zeta in IH.
        destruct (loop remaining (attempt + 1) (Some e) _) as [[r s2] t2].
        cbn [snd] in *.
        destruct IH as (Hle & Hone & Hp); [lia|].
        assert (remaining <> O) by lia. specialize (Hone H).
        rewrite attempts_app, pauses_app. cbn.
        repeat split; lia.
      * rewrite (retry_loop_gives_up _ _ _ _ _ _ _ Hop);
          [| left; rewrite Hc; reflexivity].
        cbn. repeat split; lia.
      * rewrite (retry_loop_gives_up _ _ _ _ _ _ _ Hop); [|right; lia].
        cbn. repeat split; lia.
Qed.

(** the operation fails every time: the last error is thrown *)
Lemma retry_loop_exhausted (retryable : Error -> Prop) :
  (forall now e, retryable e -> (classify now e).1 = true) ->
  forall (K : nat) (attempt : Z) (s : State) (e : Error) (s' : State),
    fails_throughout classify baseDelay operation retryable K attempt s e s' ->
    forall (remaining : nat) (lastError : option Error),
      (K < remaining)%nat ->
      attempt + Z.of_nat K = maxRetries ->
      exists t,
        loop remaining attempt lastError s = (Throw e, s', t)
        /\ attempts t = S K /\ pauses t = K.
Proof.
  intros Hcl K attempt s e s' Hfail.
  induction Hfail as [attempt s e s' t Hop
                     | K attempt s e0 s1 t e s' Hop Hre Hrest IH];
    intros remaining lastError Hrem Hmax.
  - destruct remaining as [|remaining]; [lia|].
    rewrite (retry_loop_gives_up _ _ _ _ _ _ _ Hop); [|right; lia].
    eexists. split; [reflexivity|]. split; reflexivity.
  - destruct remaining as [|remaining]; [lia|].
    destruct (IH remaining (Some e0)) as (t2 & Hrun & Hcount & Hp); [lia|lia|].
    rewrite (retry_loop_retries classify baseDelay label operation context
               maxRetries remaining attempt lastError s s1 e0 t Hop);
      [| apply Hcl, Hre | lia].
    cbv zeta. rewrite Hrun. eexists. split; [reflexivity|].
    rewrite attempts_app, pauses_app, Hcount, Hp. split; reflexivity.
Qed.

End RetryBounds.

Section ExecutorEdges.
Context `{host : Host}.

Lemma existsb_status_false (status : Z) (statuses : list Z) :
  status ∉ statuses -> existsb (Z.eqb status) statuses = false.
Proof.
  intros Hnot. destruct (existsb (Z.eqb status) statuses) eqn:Hex; [|reflexivity].
  apply existsb_exists in Hex as (x & Hin & Heq).
  apply Z.eqb_eq in Heq as <-. apply list_elem_of_In in Hin. contradiction.
Qed.

Lemma upload_classify_lacks_status (now : Z) (e : Error) :
  lacks_status "GraphApiError" upload_retryableStatuses e ->
  (upload_classify now e).1 = false.
Proof.
  intros (Hname & r & Hresp & Hnot). unfold upload_classify.
  rewrite Hname, Hresp. cbn [String.eqb Ascii.eqb Bool.eqb].
  rewrite (existsb_status_false _ _ Hnot). reflexivity.
Qed.

Lemma download_classify_lacks_status (now : Z) (e : Error) :
  lacks_status "HttpError" download_retryableStatuses e ->
  (download_classify now e).1 = false.
Proof.
  intros (Hname & r & Hresp & Hnot). unfold download_classify.
  rewrite Hname, Hresp. cbn [String.eqb Ascii.eqb Bool.eqb].
  rewrite (existsb_status_false _ _ Hnot). reflexivity.
Qed.

Lemma upload_classify_GraphApiError_other (now : Z) (msg : string)
    (response : Response) :
  resp_status response ∉ upload_retryableStatuses ->
  upload_classify now (GraphApiError msg response) = (false, None).
Proof.
  intros Hnot. unfold upload_classify, GraphApiError.
  cbn [err_name err_response String.eqb Ascii.eqb Bool.eqb].
  rewrite (existsb_status_false _ _ Hnot). reflexivity.
Qed.

Lemma retry_budget (maxRetries : Z) :
  Z.of_nat (Z.to_nat (maxRetries + 1)) = Z.max 0 (maxRetries + 1 - 0).
Proof. lia. Qed.

(** X1. Whatever the operation does, an executor invokes it at most
    [maxRetries + 1] times (at least once when [maxRetries] is not
    negative) and pauses exactly once between two consecutive invocations;
    with a negative [maxRetries] the operation is not invoked at all and the
    "failed after ... attempts" error is thrown. *)
Theorem executor_invocations_bounded {A : Type} (operation : M A)
    (context : string) (maxRetries : Z) (s : State) :
  let tu := trace (retryUploadOperation operation context maxRetries) s in
  let td := trace (retryDownloadOperation operation context maxRetries) s in
  ((attempts tu <= Z.to_nat (maxRetries + 1))%nat
   /\ (0 <= maxRetries -> (1 <= attempts tu)%nat)
   /\ pauses tu = (attempts tu - 1)%nat)
  /\ ((attempts td <= Z.to_nat (maxRetries + 1))%nat
      /\ (0 <= maxRetries -> (1 <= attempts td)%nat)
      /\ pauses td = (attempts td - 1)%nat)
  /\ (maxRetries < 0 ->
      retryUploadOperation operation context maxRetries s =
        (Throw (new_Error ("Upload operation failed after "
                           +:+ String_of_Z (maxRetries + 1)
                           +:+ " attempts for " +:+ context)), s, [])
      /\ retryDownloadOperation operation context maxRetries s =
           (Throw (new_Error ("Download operation failed after "
                              +:+ String_of_Z (maxRetries + 1)
                              +:+ " attempts for " +:+ context)), s, [])).
Proof.
  intros tu td. split; [|split].
  - destruct (retry_loop_bounded upload_classify UPLOAD_BASE_DELAY "Upload"
                operation context maxRetries (Z.to_nat (maxRetries + 1))
                0 None s (retry_budget maxRetries)) as (Hle & Hone & Hp).
    repeat split; [exact Hle | | exact Hp]. intros Hpos. apply Hone. lia.
  - destruct (retry_loop_bounded download_classify DOWNLOAD_BASE_DELAY
                "Download" operation context maxRetries
                (Z.to_nat (maxRetries + 1)) 0 None s (retry_budget maxRetries))
      as (Hle & Hone & Hp).
    repeat split; [exact Hle | | exact Hp]. intros Hpos. apply Hone. lia.
  - intros Hneg. unfold retryUploadOperation, retryDownloadOperation, retry.
    replace (Z.to_nat (maxRetries + 1)) with O by lia. split; reflexivity.
Qed.

(** X2. An operation that fails with a status outside the executor's
    retryable set is invoked exactly once: the error is thrown on as it is,
    in the state the operation left, without any pause. *)
Theorem non_retryable_status_once {A : Type} (operation : M A)
    (context : string) (maxRetries : Z) (s s1 : State) (e : Error)
    (t : Trace) :
  0 <= maxRetries ->
  operation s = (Throw e, s1, t) ->
  (lacks_status "GraphApiError" upload_retryableStatuses e ->
   retryUploadOperation operation context maxRetries s =
     (Throw e, s1, [EvAttempt 0 t]))
  /\ (lacks_status "HttpError" download_retryableStatuses e ->
      retryDownloadOperation operation context maxRetries s =
        (Throw e, s1, [EvAttempt 0 t])).
Proof.
  intros Hpos Hop.
  assert (Hfuel : exists n, Z.to_nat (maxRetries + 1) = S n)
    by (exists (Z.to_nat maxRetries); lia).
  destruct Hfuel as [n Hn].
  split; intros Hlack;
    unfold retryUploadOperation, retryDownloadOperation, retry; rewrite Hn;
    apply (retry_loop_gives_up _ _ _ _ _ _ _ _ _ _ _ _ _ Hop); left.
  - apply upload_classify_lacks_status, Hlack.
  - apply download_classify_lacks_status, Hlack.
Qed.

(** X3. An operation that fails with a retryable status at each of the
    [maxRetries + 1] invocations: the executor throws the error of the last
    invocation, in the state it left, after exactly [maxRetries + 1]
    invocations and [maxRetries] pauses. *)
Theorem exhaustion_throws_last_error {A : Type} (operation : M A)
    (context : string) (maxRetries : Z) (K : nat) (s s' : State) (e : Error) :
  Z.of_nat K = maxRetries ->
  (fails_throughout upload_classify UPLOAD_BASE_DELAY operation
     (has_status "GraphApiError" upload_retryableStatuses) K 0 s e s' ->
   exists t,
     retryUploadOperation operation context maxRetries s = (Throw e, s', t)
     /\ attempts t = S K /\ pauses t = K)
  /\ (fails_throughout download_classify DOWNLOAD_BASE_DELAY operation
        (has_status "HttpError" download_retryableStatuses) K 0 s e s' ->
      exists t,
        retryDownloadOperation operation context maxRetries s = (Throw e, s', t)
        /\ attempts t = S K /\ pauses t = K).
Proof.
  intros HK. split; intros Hfail;
    unfold retryUploadOperation, retryDownloadOperation, retry.
  - eapply retry_loop_exhausted; eauto using upload_classify_status; lia.
  - eapply retry_loop_exhausted; eauto using download_classify_status; lia.
Qed.

Lemma getRetryAfterDelay_positive (now : Z) (response : Response) (d : number) :
  getRetryAfterDelay now response = Some d -> gt0 d = true.
Proof.
  unfold getRetryAfterDelay.
  destruct (resp_retryAfter response) as [h|]; [|discriminate].
  destruct (negb (truthy h)); [discriminate|].
  destruct (isNaN (Math_round (times (parseFloat h) 1000))).
  - destruct (isNaN (Date_parse h)); [discriminate|].
    destruct (gt0 (Math_max0 (minus (Date_parse h) now))) eqn:Hg;
      [|discriminate].
    intros [= <-]. exact Hg.
  - destruct (gt0 (Math_round (times (parseFloat h) 1000))) eqn:Hg;
      [|discriminate].
    intros [= <-]. exact Hg.
Qed.

(** X4. A wait taken from a Retry-After header is always positive (never
    zero, negative or [NaN]), and an executor takes one only for an error it
    retries, from the response that error carries. *)
Theorem hinted_wait_positive (now : Z) (e : Error) (d : number) :
  (forall response, getRetryAfterDelay now response = Some d -> gt0 d = true)
  /\ ((upload_classify now e).2 = Some d ->
      (upload_classify now e).1 = true /\ gt0 d = true
      /\ exists r, err_response e = Some r
                   /\ getRetryAfterDelay now r = Some d)
  /\ ((download_classify now e).2 = Some d ->
      (download_classify now e).1 = true /\ gt0 d = true
      /\ exists r, err_response e = Some r
                   /\ getRetryAfterDelay now r = Some d).
Proof.
  split; [intros response; apply getRetryAfterDelay_positive|].
  split.
  - unfold upload_classify.
    destruct (String.eqb (err_name e) "GraphApiError"),
             (err_response e) as [r|];
      try (destruct (_ && _); cbn; discriminate).
    destruct (existsb _ _); cbn [fst snd]; [|discriminate].
    intros Hd. split; [reflexivity|].
    split; [eapply getRetryAfterDelay_positive; eauto | eauto].
  - unfold download_classify.
    destruct (String.eqb (err_name e) "TypeError"); [cbn; discriminate|].
    destruct (String.eqb (err_name e) "HttpError"),
             (err_response e) as [r|]; try (cbn; discriminate).
    destruct (existsb _ _); cbn [fst snd]; [|discriminate].
    intros Hd. split; [reflexivity|].
    split; [eapply getRetryAfterDelay_positive; eauto | eauto].
Qed.

End ExecutorEdges.

(** Worked example for X2: a Graph call answered 404 and a download
    answered 500 (which the download executor does not retry). *)
Lemma non_retryable_status_once_witness :
  (exists e s1 t,
      @retryUploadOperation Scripted.host _
        (@graphFetch Scripted.host "tok" "/me" None) "/me" 2
        (Scripted.start [Scripted.answered 404; Scripted.answered 200])
      = (Throw e, s1, [EvAttempt 0 t])
      /\ err_message e = "Graph API error 404: ")
  /\ (exists e s1 t,
        @retryDownloadOperation Scripted.host _
          (@fetchZip Scripted.host (fun _ _ => @ret Scripted.host _ tt)
             "https://spacecat.example/import.zip" "/tmp/sta-1/import.zip")
          "https://spacecat.example/import.zip" 3
          (Scripted.start [Scripted.answered 500; Scripted.answered 200])
        = (Throw e, s1, [EvAttempt 0 t])
        /\ err_name e = "HttpError").
Proof.
  split.
  - do 3 eexists. split.
    + pose proof (fun e s1 t Hop =>
                    proj1 (@non_retryable_status_once Scripted.host Json
                             (@graphFetch Scripted.host "tok" "/me" None)
                             "/me" 2
                             (Scripted.start
                                [Scripted.answered 404; Scripted.answered 200])
                             s1 e t ltac:(lia) Hop)) as H.
      eapply H; [vm_compute; reflexivity|].
      split; [reflexivity|]. eexists. split; [reflexivity|].
      cbn. intros Hin. repeat (apply elem_of_cons in Hin as [Hin|Hin];
                               [discriminate Hin|]).
      inversion Hin.
    + reflexivity.
  - do 3 eexists. split.
    + pose proof (fun e s1 t Hop =>
                    proj2 (@non_retryable_status_once Scripted.host unit
                             (@fetchZip Scripted.host
                                (fun _ _ => @ret Scripted.host _ tt)
                                "https://spacecat.example/import.zip"
                                "/tmp/sta-1/import.zip")
                             "https://spacecat.example/import.zip" 3
                             (Scripted.start
                                [Scripted.answered 500; Scripted.answered 200])
                             s1 e t ltac:(lia) Hop)) as H.
      eapply H; [vm_compute; reflexivity|].
      split; [reflexivity|]. eexists. split; [reflexivity|].
      cbn. intros Hin. repeat (apply elem_of_cons in Hin as [Hin|Hin];
                               [discriminate Hin|]).
      inversion Hin.
    + reflexivity.
Defined.

(** Worked example for X3: a Graph call answered 503 three times under
    [maxRetries = 2]. *)
Lemma exhaustion_throws_last_error_witness :
  exists e s' t,
    @retryUploadOperation Scripted.host _
      (@graphFetch Scripted.host "tok" "/me" None) "/me" 2
      (Scripted.start
         [Scripted.answered 503; Scripted.answered 503; Scripted.answered 503;
          Scripted.answered 200])
    = (Throw e, s', t)
    /\ err_message e = "Graph API error 503: "
    /\ attempts t = 3%nat /\ pauses t = 2%nat.
Proof.
  assert (Hfail :
    @fails_throughout Scripted.host Json (@upload_classify Scripted.host)
      (@UPLOAD_BASE_DELAY Scripted.host)
      (@graphFetch Scripted.host "tok" "/me" None)
      (has_status "GraphApiError" upload_retryableStatuses) 2 0
      (Scripted.start
         [Scripted.answered 503; Scripted.answered 503; Scripted.answered 503;
          Scripted.answered 200])
      (GraphApiError "Graph API error 503: " (Scripted.status_only 503 None))
      (@mkState Scripted.host
         {| Scripted.script := [Scripted.answered 200];
            Scripted.clock := 3000 |} uploadReport0 sourceStructure0)).
  { eapply ft_more; [vm_compute; reflexivity | |].
    { split; [reflexivity|]. eexists; split; [reflexivity|].
      cbn. repeat constructor. }
    eapply ft_more; [vm_compute; reflexivity | |].
    { split; [reflexivity|]. eexists; split; [reflexivity|].
      cbn. repeat constructor. }
    eapply ft_last. vm_compute. reflexivity. }
  destruct (proj1 (@exhaustion_throws_last_error Scripted.host _ _ "/me" 2
                     2%nat _ _ _ eq_refl) Hfail) as (t & Hrun & Ha & Hp).
  do 3 eexists. split; [exact Hrun|]. split; [reflexivity|]. split; assumption.
Defined.

(** ** Rejected uploads and failed folder creations *)

Section Rejections.
Context `{host : Host}.
Variables accessToken driveId folderId : string.

Lemma graphFetch_refused (token endpoint : string) (init : option Init)
    (s : State) (res : Response) (w1 : World) :
  let req :=
    {| req_url := GRAPH_API +:+ endpoint;
       req_init := default (default_init token) init |} in
  fetch_step req (st_world s) = (Responded res, w1) ->
  resp_ok res = false ->
  graphFetch token endpoint init s =
    (Throw (GraphApiError
              ("Graph API error " +:+ String_of_Z (resp_status res)
               +:+ ": " +:+ resp_text res) res),
     mkState w1
       (if resp_status res =? 423 then bump_lockedFiles (st_report s)
        else st_report s)
       (st_source s),
     [EvCore Debug; EvFetch req (Responded res) None]).
Proof.
  intros req Hfetch Hnok.
  unfold graphFetch, fetch, fetch_noted, core_debug, emit, bind.
  cbn [st_world st_report st_source]. fold req. rewrite Hfetch, Hnok.
  cbn [negb]. unfold modify_report, ret, throw.
  destruct (resp_status res =? 423); reflexivity.
Qed.

(** X5. An upload answered with a status that is neither a success nor
    retryable (a locked file's 423, a 404, ...) is requested once, is
    reported as failed ([false]) without throwing, and counts one locked
    file exactly when the status is 423. *)
Theorem rejected_upload_tried_once (file : UploadFile) (s : State)
    (res : Response) (w1 : World) :
  let req :=
    {| req_url := GRAPH_API +:+ upload_endpoint driveId folderId file;
       req_init :=
         upload_init accessToken
           (default "application/octet-stream" (mime_lookup (file_path file)))
           (FileStream (file_path file)) |} in
  0 <= UPLOAD_MAX_RETRIES ->
  fetch_step req (st_world s) = (Responded res, w1) ->
  resp_ok res = false ->
  resp_status res ∉ upload_retryableStatuses ->
  uploadFileWithRetry accessToken driveId folderId file s =
    (Ok false,
     mkState w1
       (if resp_status res =? 423 then bump_lockedFiles (st_report s)
        else st_report s)
       (st_source s),
     [EvAttempt 0 [EvCore Debug; EvCore Debug;
                   EvFetch req (Responded res) None];
      EvCore Warning]).
Proof.
  intros req Hpos Hfetch Hnok Hstatus.
  assert (Hfuel : exists n, Z.to_nat (UPLOAD_MAX_RETRIES + 1) = S n)
    by (exists (Z.to_nat UPLOAD_MAX_RETRIES); lia).
  destruct Hfuel as [n Hn].
  unfold uploadFileWithRetry, try_catch, bind at 1.
  unfold retryUploadOperation, retry. rewrite Hn.
  erewrite retry_loop_gives_up; [reflexivity | | left].
  - unfold bind at 1, core_debug at 1, emit.
    unfold bind at 1.
    rewrite (graphFetch_refused accessToken
               (upload_endpoint driveId folderId file)
               (Some (upload_init accessToken
                        (default "application/octet-stream"
                           (mime_lookup (file_path file)))
                        (FileStream (file_path file))))
               s res w1 Hfetch Hnok).
    reflexivity.
  - rewrite upload_classify_GraphApiError_other by exact Hstatus. reflexivity.
Qed.

(** X6. A folder that is not in the cache and whose creation is answered
    with a failure other than 409 aborts the builder at once: one request
    only (the creation is not retried, whatever the status), one more
    failed folder creation in the report, and the error names the path. *)
Theorem failed_creation_aborts (delay : number) (w : Walk) (segment : string)
    (s : State) (res : Response) (w1 : World) :
  let currentPath := next_path (w_currentPath w) segment in
  let req :=
    {| req_url := create_url driveId (w_parentId w);
       req_init := create_init accessToken segment |} in
  w_folderMap w !! currentPath = None ->
  fetch_step req (st_world s) = (Responded res, w1) ->
  resp_ok res = false ->
  resp_status res <> 409 ->
  walk_segment accessToken driveId delay w segment s =
    (Throw (new_Error ("Failed to create folder " +:+ currentPath
                       +:+ ". Upload is aborted.")),
     mkState w1 (bump_failedFolderCreations (st_report s)) (st_source s),
     [EvFetch req (Responded res)
        (Some {| cr_path := currentPath; cr_parentId := w_parentId w;
                 cr_cache := w_folderMap w |});
      EvCore Warning]).
Proof.
  intros currentPath req Hmiss Hfetch Hnok Hstatus.
  unfold walk_segment. fold currentPath. rewrite Hmiss.
  unfold create_folder, bind at 1, fetch_noted. fold req. rewrite Hfetch.
  unfold folder_response. rewrite Hnok.
  apply Z.eqb_neq in Hstatus. rewrite Hstatus. reflexivity.
Qed.

End Rejections.

Lemma rejected_upload_tried_once_witness :
  let file := {| file_name := "one.txt"; file_path := "/tmp/c/docx/a/one.txt";
                 file_relative := "/a/one.txt" |} in
  let run := @uploadFileWithRetry Scripted.host "tok" "d" "root" file
               (Scripted.start [Scripted.answered 423; Scripted.answered 200]) in
  run.1.1 = Ok false
  /\ lockedFiles (st_report run.1.2) = 1%nat
  /\ length (requests run.2) = 1%nat.
Proof.
  cbv zeta.
  rewrite (@rejected_upload_tried_once Scripted.host "tok" "d" "root"
             {| file_name := "one.txt"; file_path := "/tmp/c/docx/a/one.txt";
                file_relative := "/a/one.txt" |}
             (Scripted.start [Scripted.answered 423; Scripted.answered 200])
             (Scripted.status_only 423 None)
             {| Scripted.script := [Scripted.answered 200];
                Scripted.clock := 0 |}).
  - repeat split.
  - cbn. lia.
  - reflexivity.
  - reflexivity.
  - unfold upload_retryableStatuses. cbn.
    rewrite !elem_of_cons, elem_of_nil. lia.
Defined.

Lemma failed_creation_aborts_witness :
  let run := @walk_segment Scripted.host "tok" "d" (of_Z 10)
               (mkWalk None "root" (<["" := "root"]> ∅)) "a"
               (Scripted.start [Scripted.answered 503; Scripted.created "id-a"]) in
  run.1.1 = Throw (new_Error "Failed to create folder a. Upload is aborted.")
  /\ failedFolderCreations (st_report run.1.2) = 1%nat
  /\ length (requests run.2) = 1%nat.
Proof.
  cbv zeta.
  rewrite (@failed_creation_aborts Scripted.host "tok" "d" (of_Z 10)
             (mkWalk None "root" (<["" := "root"]> ∅)) "a"
             (Scripted.start [Scripted.answered 503; Scripted.created "id-a"])
             (Scripted.status_only 503 None)
             {| Scripted.script := [Scripted.created "id-a"];
                Scripted.clock := 0 |}).
  - repeat split.
  - reflexivity.
  - reflexivity.
  - reflexivity.
  - cbn. lia.
Defined.

(** ** What the hierarchy builder leaves in its cache *)

Section Paths2.

Lemma join_cons_nonempty (x y : string) (r : list string) :
  join "/" (x :: y :: r) = x +:+ "/" +:+ join "/" (y :: r).
Proof. reflexivity. Qed.

Lemma join_split_slash (s : string) : join "/" (split_slash s) = s.
Proof.
  induction s as [|c s IH]; [reflexivity|].
  cbn [split_slash]. destruct (Ascii.eqb_spec c "/") as [-> | Hc].
  - destruct (split_slash s) as [|h t] eqn:Hs.
    + cbn in IH. subst s. discriminate Hs.
    + rewrite join_cons_nonempty, IH. reflexivity.
  - destruct (split_slash s) as [|h t] eqn:Hs.
    + cbn in IH. subst s. discriminate Hs.
    + destruct t as [|y r].
      * cbn in IH. cbn. rewrite IH. reflexivity.
      * rewrite join_cons_nonempty in *.
        change (String c h +:+ "/" +:+ join "/" (y :: r))
          with (String c (h +:+ "/" +:+ join "/" (y :: r))).
        rewrite IH. reflexivity.
Qed.

Lemma append_assoc (a b c : string) : (a +:+ b) +:+ c = a +:+ b +:+ c.
Proof.
  induction a as [|x a IH]; [reflexivity|].
  change (String x ((a +:+ b) +:+ c) = String x (a +:+ b +:+ c)).
  rewrite IH. reflexivity.
Qed.

Lemma append_nonempty (a b : string) : a <> "" -> a +:+ b <> "".
Proof. destruct a; [congruence | discriminate]. Qed.

Lemma next_path_nonempty (p segment : string) :
  p <> "" -> next_path (Some p) segment = p +:+ "/" +:+ segment.
Proof. destruct p; [congruence | reflexivity]. Qed.

Lemma walked_from (rest : list string) :
  forall p, p <> "" -> Forall (fun segment => segment <> "") rest ->
    walked rest (Some p) = Some (join "/" (p :: rest)).
Proof.
  induction rest as [|x r IH]; intros p Hp Hall; [reflexivity|].
  inversion Hall as [|? ? Hx Hr]; subst.
  unfold walked. cbn [fold_left]. fold (walked r (Some (next_path (Some p) x))).
  rewrite next_path_nonempty by exact Hp.
  rewrite IH; [|apply append_nonempty, Hp | exact Hr].
  f_equal. rewrite join_cons_nonempty. destruct r as [|y r]; [reflexivity|].
  rewrite !join_cons_nonempty, append_assoc. reflexivity.
Qed.

Lemma walked_after_empty (segments : list string) :
  default "" (walked segments (Some "")) = default "" (walked segments None).
Proof. destruct segments; reflexivity. Qed.

(** X8. The cache key of a source folder is its path: a leading [/] (the
    relative paths of a run all have one) does not change the key, and a
    path without empty segments is its own key. *)
Theorem folder_key_is_relative_path (path : string) :
  folder_key ("/" +:+ path) = folder_key path
  /\ (Forall (fun segment => segment <> "") (split_slash path) ->
      folder_key path = path).
Proof.
  split.
  - unfold folder_key. change ("/" +:+ path) with (String "/" path).
    cbn [split_slash Ascii.eqb Bool.eqb].
    change (walked ("" :: split_slash path) None)
      with (walked (split_slash path) (Some "")).
    apply walked_after_empty.
  - intros Hall. unfold folder_key.
    destruct (split_slash path) as [|x r] eqn:Hs.
    + pose proof (join_split_slash path) as Hj. rewrite Hs in Hj. exact Hj.
    + inversion Hall as [|? ? Hx Hr]; subst.
      change (walked (x :: r) None) with (walked r (Some x)).
      rewrite walked_from by assumption. cbn [default].
      rewrite <- Hs. apply join_split_slash.
Qed.

End Paths2.

Lemma folder_key_is_relative_path_witness :
  folder_key "/a/b" = "a/b".
Proof.
  destruct (folder_key_is_relative_path "a/b") as [Hlead Hkey].
  change (folder_key ("/" +:+ "a/b") = "a/b").
  rewrite Hlead. apply Hkey. repeat constructor; discriminate.
Defined.

Section BuilderCache.
Context `{host : Host}.
Variables accessToken driveId folderId : string.
Variable delay : number.

Lemma walk_segment_moves (w : Walk) (segment : string) (s : State) (w' : Walk) :
  result (walk_segment accessToken driveId delay w segment) s = Ok w' ->
  w_currentPath w' = Some (next_path (w_currentPath w) segment).
Proof.
  unfold walk_segment.
  destruct (w_folderMap w !! next_path (w_currentPath w) segment) as [id|].
  - cbn. intros H. injection H as <-. reflexivity.
  - intros H. apply create_folder_returns in H as [id ->]. reflexivity.
Qed.

Lemma walk_loop_end (segments : list string) :
  forall (w : Walk) (s : State) (w' : Walk),
    WalkInv folderId w -> Forall no_slash segments ->
    result (for_of_with segments w (walk_segment accessToken driveId delay)) s
    = Ok w' ->
    WalkInv folderId w' /\ w_folderMap w ⊆ w_folderMap w'
    /\ w_currentPath w' = walked segments (w_currentPath w).
Proof.
  induction segments as [|x r IH]; intros w s w' Hinv Hall Hres.
  - cbn in Hres. injection Hres as <-. auto.
  - inversion Hall as [|? ? Hx Hr]; subst.
    cbn [for_of_with] in Hres. rewrite result_bind in Hres.
    destruct (result (walk_segment accessToken driveId delay w x) s)
      as [w1|e] eqn:Hstep; [|discriminate Hres].
    destruct (walk_segment_built accessToken driveId folderId delay w x s
                Hinv Hx) as (_ & _ & _ & Hok).
    destruct (Hok w1 Hstep) as (Hinv1 & Hsub1 & _).
    destruct (IH w1 _ w' Hinv1 Hr Hres) as (Hinv' & Hsub' & Hpath).
    split; [exact Hinv'|]. split; [etransitivity; eassumption|].
    rewrite Hpath, (walk_segment_moves w x s w1 Hstep). reflexivity.
Qed.

Lemma walk_folder_end (fm : gmap string string) (folder : SourceFolder)
    (s : State) (fm' : gmap string string) :
  root_cached folderId fm ->
  result (walk_folder accessToken driveId folderId delay fm folder) s = Ok fm' ->
  root_cached folderId fm' /\ fm ⊆ fm'
  /\ is_Some (fm' !! folder_key (folder_path folder)).
Proof.
  intros Hroot. unfold walk_folder. rewrite result_bind.
  destruct (result (for_of_with _ _ _) s) as [w'|e] eqn:Hloop; [|discriminate].
  cbn. intros H. injection H as <-.
  apply walk_loop_end in Hloop as ([Hcur Hroot'] & Hsub & Hpath).
  - split; [exact Hroot'|]. split; [exact Hsub|].
    unfold folder_key. cbn [w_currentPath] in Hpath. rewrite <- Hpath, Hcur.
    eauto.
  - split; [apply Hroot | exact Hroot].
  - apply split_slash_no_slash.
Qed.

Lemma folders_loop_end (sourceFolders : list SourceFolder) :
  forall (fm : gmap string string) (s : State) (fm' : gmap string string),
    root_cached folderId fm ->
    result (for_of_with sourceFolders fm
              (walk_folder accessToken driveId folderId delay)) s = Ok fm' ->
    root_cached folderId fm' /\ fm ⊆ fm'
    /\ forall folder, folder ∈ sourceFolders ->
         is_Some (fm' !! folder_key (folder_path folder)).
Proof.
  induction sourceFolders as [|x r IH]; intros fm s fm' Hroot Hres.
  - cbn in Hres. injection Hres as <-.
    split; [exact Hroot|]. split; [reflexivity|].
    intros folder Hin. inversion Hin.
  - cbn [for_of_with] in Hres. rewrite result_bind in Hres.
    destruct (result (walk_folder accessToken driveId folderId delay fm x) s)
      as [fm1|e] eqn:Hstep; [|discriminate Hres].
    destruct (walk_folder_end fm x s fm1 Hroot Hstep) as (Hroot1 & Hsub1 & Hx).
    destruct (IH fm1 _ fm' Hroot1 Hres) as (Hroot' & Hsub' & Hr).
    split; [exact Hroot'|]. split; [etransitivity; eassumption|].
    intros folder Hin. apply elem_of_cons in Hin as [-> | Hin]; [|auto].
    eapply lookup_weaken_is_Some; eassumption.
Qed.

(** X7. When the hierarchy builder returns, its cache holds the root path
    under the root folder id, the key of every source folder, and every
    ancestor of each of them: no folder of the source was skipped. *)
Theorem builder_caches_every_folder (sourceFolders : list SourceFolder)
    (s : State) (fm : gmap string string) :
  result (createFolders_map accessToken driveId folderId sourceFolders delay) s
  = Ok fm ->
  fm !! "" = Some folderId
  /\ forall folder, folder ∈ sourceFolders ->
       forall n,
         is_Some (fm !! Nat.iter n parent_path
                          (folder_key (folder_path folder))).
Proof.
  unfold createFolders_map. intros Hres.
  apply folders_loop_end in Hres as ([Hroot Hcl] & _ & Hall);
    [|apply root_cached_initial].
  split; [exact Hroot|].
  intros folder Hin n. apply closed_ancestors; auto.
Qed.

End BuilderCache.

Lemma builder_caches_every_folder_witness :
  exists fm,
    result (@createFolders_map Scripted.host "tok" "d" "root"
              [{| folder_name := "b"; folder_path := "/a/b" |}] (of_Z 10))
           (Scripted.start [Scripted.created "id-a"; Scripted.created "id-b"])
    = Ok fm
    /\ is_Some (fm !! "a/b") /\ is_Some (fm !! "a").
Proof.
  eexists. split; [vm_compute; reflexivity|].
  match goal with
  | |- is_Some (?fm !! _) /\ _ =>
      pose proof (fun H => proj2 (@builder_caches_every_folder Scripted.host
                     "tok" "d" "root" (of_Z 10)
                     [{| folder_name := "b"; folder_path := "/a/b" |}]
                     (Scripted.start
                        [Scripted.created "id-a"; Scripted.created "id-b"])
                     fm H)
                   {| folder_name := "b"; folder_path := "/a/b" |}
                   ltac:(apply list_elem_of_here)) as Hall
  end.
  split.
  - apply (Hall ltac:(vm_compute; reflexivity) 0%nat).
  - apply (Hall ltac:(vm_compute; reflexivity) 1%nat).
Defined.

(** ** What the scan records *)

Section ScanOrder.
Context `{host : Host}.

(** the state with [fs] and [fl] appended to the scanned folders and files *)
Local Abbreviation grown s fs fl :=
  (mkState (st_world s) (st_report s) (extended (st_source s) fs fl)).

Lemma grown_nil (s : State) : grown s [] [] = s.
Proof.
  destruct s as [w r [fs fl]]. unfold extended. cbn. rewrite !app_nil_r.
  reflexivity.
Qed.

Lemma grown_grown (s : State) (fs1 fl1 fs2 fl2 : list SourceItem) :
  grown (grown s fs1 fl1) fs2 fl2 = grown s (fs1 ++ fs2) (fl1 ++ fl2).
Proof. unfold extended. cbn. rewrite !app_assoc. reflexivity. Qed.

Lemma listed_folders_dir (srcFolder name : string) (entries : list Dirent) :
  listed_folders srcFolder (DirEntry name entries) =
    {| src_name := name; src_path := path_join srcFolder name |}
    :: flat_map (listed_folders (path_join srcFolder name)) entries.
Proof.
  reflexivity.
Qed.

Lemma listed_files_dir (srcFolder name : string) (entries : list Dirent) :
  listed_files srcFolder (DirEntry name entries) =
    flat_map (listed_files (path_join srcFolder name)) entries.
Proof.
  reflexivity.
Qed.

Lemma scan_loop_final (entries : list Dirent) :
  Forall (fun e => forall srcFolder s,
            final (scan_entry srcFolder e) s =
              grown s (listed_folders srcFolder e) (listed_files srcFolder e))
         entries ->
  forall srcFolder s,
    final (for_of entries (scan_entry srcFolder)) s =
      grown s (flat_map (listed_folders srcFolder) entries)
              (flat_map (listed_files srcFolder) entries).
Proof.
  induction 1 as [|e r He Hr IH]; intros srcFolder s; cbn [for_of flat_map].
  - unfold final. cbn. symmetry. apply grown_nil.
  - rewrite final_bind, scan_entry_total, He, IH. apply grown_grown.
Qed.

Lemma scan_entry_final (entry : Dirent) :
  forall srcFolder s,
    final (scan_entry srcFolder entry) s =
      grown s (listed_folders srcFolder entry) (listed_files srcFolder entry).
Proof.
  induction entry as [name entries IH | name | name] using Dirent_nested_ind;
    intros srcFolder s.
  - rewrite scan_entry_dir, listed_folders_dir, listed_files_dir.
    unfold core_debug.
    rewrite final_bind, result_emit, final_bind, result_modify_source,
      final_bind, result_emit, final_bind.
    rewrite for_of_total
      by (eapply Forall_impl; [exact IH|]; intros e _ s'; apply scan_entry_total).
    rewrite scan_loop_final by exact IH.
    unfold final, emit, modify_source, push_folder, extended. cbn.
    rewrite <- app_assoc. reflexivity.
  - unfold final, extended. cbn. rewrite app_nil_r.
    destruct s as [w r [fs fl]]. reflexivity.
  - unfold final. cbn. symmetry. apply grown_nil.
Qed.

(** X9. The scan records the tree depth first: the folders found under the
    source directory are appended to the recorded folders, each before the
    folders it contains, the regular files to the recorded files, in the
    order of the directory listings; entries of other kinds are dropped,
    and neither the report nor the remote drive is touched. *)
Theorem scan_records_tree_depth_first (srcFolder : string)
    (entries : list Dirent) (isTopLevel : bool) (s : State) :
  entries <> [] ->
  final (populateSourceStructure srcFolder entries isTopLevel) s =
    mkState (st_world s) (st_report s)
      (extended (st_source s)
         (flat_map (listed_folders srcFolder) entries)
         (flat_map (listed_files srcFolder) entries)).
Proof.
  intros Hne. unfold populateSourceStructure, core_debug.
  rewrite final_bind, result_emit.
  replace (isTopLevel && (length entries =? 0)%nat) with false
    by (destruct entries; [congruence | symmetry; apply andb_false_r]).
  rewrite final_bind, for_of_total
    by (apply Forall_forall; intros e _ s'; apply scan_entry_total).
  rewrite scan_loop_final
    by (apply Forall_forall; intros e _; apply scan_entry_final).
  reflexivity.
Qed.

End ScanOrder.

Lemma scan_records_tree_depth_first_witness :
  let s := final (@populateSourceStructure Scripted.host "/tmp/c/docx"
                    Scripted.tree true) (Scripted.start []) in
  map src_path (folders (st_source s)) = ["/tmp/c/docx/a"; "/tmp/c/docx/a/b"]
  /\ map src_path (files (st_source s)) =
       ["/tmp/c/docx/a/one.txt"; "/tmp/c/docx/a/b/two.txt"].
Proof.
  cbv zeta.
  rewrite (@scan_records_tree_depth_first Scripted.host "/tmp/c/docx"
             Scripted.tree true (Scripted.start []))
    by discriminate.
  split; reflexivity.
Defined.

(** ** Relative paths *)

Section RelativePaths.





(** *** path.join on a clean folder and a plain name *)

















Local Abbreviation below srcFolder :=
  (fun it : SourceItem => exists rest, src_path it = srcFolder +:+ "/" +:+ rest).






End RelativePaths.


(** Where the source directory is not in normal form the scanned paths do
    not start with it: with a doubled slash, nothing is removed and the
    relative path is the whole local path. *)
Example unnormalised_source_directory :
  path_join "/tmp/c//docx" "a" = "/tmp/c/docx/a"
  /\ remove_first "/tmp/c//docx" (path_join "/tmp/c//docx" "a")
     = "/tmp/c/docx/a".
Proof. split; vm_compute; reflexivity. Qed.

(** ** Runs that stop before the upload phase *)

Section AbortedRun.
Context `{host : Host}.

(** the events of a computation that uploads nothing *)
Local Abbreviation no_upload :=
  (fun x : bool * Event =>
     match x with
     | (_, EvFetch req _ _) => init_method (req_init req) <> PUT
     | _ => True
     end).

Lemma run_prepare_no_upload (accessToken driveId folderId docsDir : string)
    (delay : number) (docs : option (list Dirent)) (s : State) :
  Forall no_upload
    (leaves false
       (trace (run_prepare accessToken driveId folderId docsDir delay docs) s)).
Proof.
  eapply (run_prepare_respects any_frame no_upload accessToken driveId
            folderId);
    try exact _; try (intros; exact I); intros; discriminate.
Qed.

(** X11. A run whose scan or folder phase throws (missing or empty source
    directory, failed folder creation or lookup) still returns; it sends no
    upload request, leaves the upload counters and lists as they were, and
    its outputs are the error's message followed by the report. *)
Theorem aborted_run_uploads_nothing (inputs : Inputs)
    (docs : option (list Dirent)) (s : State) (e : Error) :
  result (run_prepare (access_token inputs) (drive_id inputs)
            (folder_id inputs) (zip_contents_path inputs +:+ "/docx")
            (parseInt10 (delay_input inputs)) docs) s = Throw e ->
  let s' := final (run inputs docs) s in
  result (run inputs docs) s = Ok tt
  /\ Forall (fun x => init_method (req_init x.2) <> PUT)
            (requests (trace (run inputs docs) s))
  /\ same_tally (st_report s) (st_source s) (st_report s') (st_source s')
  /\ outputs (trace (run inputs docs) s) =
       ("error_message", "❌ Upload Error: " +:+ err_message e)
       :: report_outputs (st_report s').
Proof.
  intros Hprep s'.
  pose proof (run_unfold inputs docs s) as Hrun. cbv zeta in Hrun.
  set (prepare := run_prepare (access_token inputs) (drive_id inputs)
                    (folder_id inputs) (zip_contents_path inputs +:+ "/docx")
                    (parseInt10 (delay_input inputs)) docs) in *.
  set (body := run_try (access_token inputs) (drive_id inputs)
                 (folder_id inputs) (zip_contents_path inputs +:+ "/docx")
                 (parseInt10 (delay_input inputs)) docs) in *.
  assert (Hres : result body s = Throw e)
    by (unfold body, run_try, run_phases; fold prepare;
        rewrite !result_bind, Hprep; reflexivity).
  assert (Htrace : trace body s = trace prepare s)
    by (unfold body, run_try, run_phases; fold prepare;
        rewrite !trace_bind, result_bind, Hprep; reflexivity).
  assert (Hfin : final body s = final prepare s)
    by (unfold body, run_try, run_phases; fold prepare;
        rewrite !final_bind, result_bind, Hprep; reflexivity).
  assert (Hend : s' = final prepare s)
    by (unfold s', final at 1; rewrite Hrun; cbn [fst snd]; exact Hfin).
  rewrite Hres, Htrace, Hfin in Hrun.
  split; [unfold result; rewrite Hrun; reflexivity|].
  split; [|split].
  - unfold requests, trace at 1. rewrite Hrun. cbn [snd].
    eapply (Forall_omap request_of no_upload).
    { intros [b ev] [b' req] Hreq Hno. destruct ev; try discriminate Hreq.
      injection Hreq as <- <-. exact Hno. }
    rewrite !leaves_app, !Forall_app.
    split; [repeat constructor|].
    split; [apply run_prepare_no_upload|].
    split; repeat constructor.
  - rewrite Hend. apply run_prepare_tally.
  - unfold trace at 1. rewrite Hrun. cbn [snd].
    rewrite !outputs_app, !outputs_core.
    assert (Hsilent : outputs (trace prepare s) = []).
    { pose proof (run_phases_silent (access_token inputs) (drive_id inputs)
                    (folder_id inputs) (zip_contents_path inputs +:+ "/docx")
                    (parseInt10 (delay_input inputs)) docs s) as Hs.
      unfold run_phases in Hs. fold prepare in Hs.
      rewrite trace_bind, Hprep in Hs. exact Hs. }
    rewrite Hsilent, outputs_of_outputs, Hend. reflexivity.
Qed.

End AbortedRun.

Lemma aborted_run_uploads_nothing_witness :
  let m := @run Scripted.host Scripted.inputs (Some Scripted.tree) in
  let s0 := Scripted.start [Scripted.answered 500; Scripted.answered 201] in
  length (requests (trace m s0)) = 1%nat
  /\ Forall (fun x => init_method (req_init x.2) <> PUT) (requests (trace m s0))
  /\ outputs (trace m s0) =
       [("error_message",
         "❌ Upload Error: Failed to create folder a. Upload is aborted.");
        ("upload_successes", "0"); ("upload_list", "");
        ("upload_failures", "0"); ("upload_failed_list", "");
        ("upload_failed_locked", "0")].
Proof.
  cbv zeta.
  destruct (@aborted_run_uploads_nothing Scripted.host Scripted.inputs
              (Some Scripted.tree)
              (Scripted.start [Scripted.answered 500; Scripted.answered 201])
              (new_Error "Failed to create folder a. Upload is aborted."))
    as (_ & Hreq & _ & Hout); [vm_compute; reflexivity|].
  split; [vm_compute; reflexivity|]. split; [exact Hreq|].
  rewrite Hout. vm_compute. reflexivity.
Defined.

(** ** How many requests the upload phase sends *)

Section RetryRequests.
Context `{host : Host} {A : Type}.
Variable classify : Z -> Error -> bool * option number.
Variable baseDelay : Z.
Variable label : string.
Variable operation : M A.
Variable context : string.
Variable maxRetries : Z.

Local Abbreviation loop :=
  (retry_loop classify baseDelay label operation context maxRetries).

Lemma leaves_attempt_cons (b : bool) (n : Z) (inner rest : Trace) :
  leaves b (EvAttempt n inner :: rest) = leaves true inner ++ leaves b rest.
Proof.
  change (EvAttempt n inner :: rest) with ([EvAttempt n inner] ++ rest).
  rewrite leaves_app, leaves_attempt. reflexivity.
Qed.

Lemma requests_skip_core (b : bool) (lvl : Level) (t : Trace) :
  omap request_of (leaves b (EvCore lvl :: t)) = omap request_of (leaves b t).
Proof. reflexivity. Qed.

Lemma requests_skip_sleep (b : bool) (ms : number) (t : Trace) :
  omap request_of (leaves b (EvSleep ms :: t)) = omap request_of (leaves b t).
Proof. reflexivity. Qed.

Lemma attempts_cons_attempt (n : Z) (inner t : Trace) :
  attempts (EvAttempt n inner :: t) = S (attempts t).
Proof. reflexivity. Qed.

Lemma attempts_skip_core (lvl : Level) (t : Trace) :
  attempts (EvCore lvl :: t) = attempts t.
Proof. reflexivity. Qed.

Lemma attempts_skip_sleep (ms : number) (t : Trace) :
  attempts (EvSleep ms :: t) = attempts t.
Proof. reflexivity. Qed.

(** an operation that sends [c] requests each time it is invoked: the
    executor sends [c] requests per invocation and none of its own *)
Lemma retry_loop_requests (c : nat) :
  (forall s, length (omap request_of (leaves true (trace operation s))) = c) ->
  forall (remaining : nat) (attempt : Z) (lastError : option Error)
         (s : State) (b : bool),
    length (omap request_of
              (leaves b (trace (loop remaining attempt lastError) s)))
    = (attempts (trace (loop remaining attempt lastError) s) * c)%nat.
Proof.
  intros Hc. induction remaining as [|remaining IH];
    intros attempt lastError s b; [reflexivity|].
  unfold trace. pose proof (Hc s) as Hs. unfold trace in Hs.
  destruct (operation s) as [[[a|e] s1] t1] eqn:Hop; cbn [snd] in Hs.
  - rewrite (retry_loop_success _ _ _ _ _ _ _ _ _ _ _ _ _ Hop). cbn [snd].
    rewrite leaves_attempt_cons, omap_app, length_app, Hs.
    destruct (0 <? attempt); cbn; lia.
  - destruct (classify (Date_now (st_world s1)) e) as [again d] eqn:Hcl.
    destruct (Z.lt_ge_cases attempt maxRetries) as [Hlt | Hge];
      [destruct again|].
    + rewrite (retry_loop_retries classify baseDelay label operation context
                 maxRetries remaining attempt lastError s s1 e t1 Hop);
        [| rewrite Hcl; reflexivity | exact Hlt].
      cbv zeta.
      specialize (IH (attempt + 1) (Some e)
                     (state_after_pause classify baseDelay attempt e s1) b).
      unfold trace in IH.
      destruct (loop remaining (attempt + 1) (Some e) _) as [[r s2] t2].
      cbn [snd] in *.
      cbn [app].
      rewrite leaves_attempt_cons, omap_app, length_app, Hs.
      rewrite requests_skip_core, requests_skip_sleep, IH.
      rewrite attempts_cons_attempt, attempts_skip_core, attempts_skip_sleep.
      lia.
    + rewrite (retry_loop_gives_up _ _ _ _ _ _ _ _ _ _ _ _ _ Hop);
        [| left; rewrite Hcl; reflexivity].
      cbn [snd].
      rewrite leaves_attempt_cons, omap_app, length_app, Hs. cbn. lia.
    + rewrite (retry_loop_gives_up _ _ _ _ _ _ _ _ _ _ _ _ _ Hop);
        [| right; lia].
      cbn [snd].
      rewrite leaves_attempt_cons, omap_app, length_app, Hs. cbn. lia.
Qed.

End RetryRequests.

Section UploadRequests.
Context `{host : Host}.
Variables accessToken driveId folderId : string.

Lemma requests_app (t1 t2 : Trace) :
  requests (t1 ++ t2) = requests t1 ++ requests t2.
Proof. unfold requests. rewrite leaves_app. apply omap_app. Qed.

Lemma graphFetch_one_request (b : bool) (token endpoint : string)
    (init : option Init) (s : State) :
  length (omap request_of (leaves b (trace (graphFetch token endpoint init) s)))
  = 1%nat.
Proof.
  unfold trace, graphFetch, fetch, fetch_noted, core_debug, emit, bind.
  destruct (fetch_step _ _) as [[e|res] w]; [reflexivity|].
  cbn -[Z.eqb]. destruct (resp_ok res); cbn -[Z.eqb].
  - unfold res_json. destruct (resp_json res); reflexivity.
  - destruct (resp_status res =? 423); reflexivity.
Qed.

Lemma uploadFileWithRetry_requests (file : UploadFile) (s : State) :
  0 <= UPLOAD_MAX_RETRIES ->
  let n := length (requests (trace (uploadFileWithRetry accessToken driveId
                                      folderId file) s)) in
  (1 <= n <= Z.to_nat (UPLOAD_MAX_RETRIES + 1))%nat.
Proof.
  intros Hpos n. subst n. unfold uploadFileWithRetry.
  set (operation := bind core_debug _).
  pose proof (retry_loop_requests upload_classify UPLOAD_BASE_DELAY "Upload"
                operation (file_path file) UPLOAD_MAX_RETRIES 1%nat) as Hreq.
  pose proof (retry_loop_bounded upload_classify UPLOAD_BASE_DELAY "Upload"
                operation (file_path file) UPLOAD_MAX_RETRIES
                (Z.to_nat (UPLOAD_MAX_RETRIES + 1)) 0 None s) as Hbound.
  specialize (Hreq
    ltac:(intros s'; unfold operation; rewrite !trace_bind;
          destruct (result (graphFetch _ _ _) _);
          cbn [result core_debug emit fst snd trace];
          rewrite ?leaves_app, ?omap_app, ?length_app, graphFetch_one_request;
          reflexivity)
    (Z.to_nat (UPLOAD_MAX_RETRIES + 1)) 0 None s false).
  cbv zeta in Hbound. destruct Hbound as (Hle & Hone & _); [lia|].
  specialize (Hone ltac:(lia)).
  assert (Hn :
    length (requests
              (trace (try_catch
                        (retryUploadOperation operation (file_path file)
                           UPLOAD_MAX_RETRIES ;; ret true)
                        (fun _ => core_warning ;; ret false)) s))
    = length (omap request_of
                (leaves false
                   (trace (retry_loop upload_classify UPLOAD_BASE_DELAY
                             "Upload" operation (file_path file)
                             UPLOAD_MAX_RETRIES
                             (Z.to_nat (UPLOAD_MAX_RETRIES + 1)) 0 None) s)))).
  { unfold trace, try_catch, bind, retryUploadOperation, retry.
    destruct (retry_loop _ _ _ _ _ _ _ _ _ s) as [[[[]|e] s1] t1];
      cbn [snd fst].
    - cbn. rewrite app_nil_r. reflexivity.
    - unfold core_warning, emit, ret. cbn [fst snd].
      rewrite requests_app, length_app. cbn. unfold requests. lia. }
  rewrite Hn, Hreq. lia.
Qed.

End UploadRequests.

Section UploadPhaseRequests.
Context `{host : Host}.
Variables accessToken driveId folderId : string.

Lemma upload_one_requests (delay : number) (item : UploadFile) (s : State) :
  0 <= UPLOAD_MAX_RETRIES ->
  let n := length (requests (trace (upload_one accessToken driveId folderId
                                      delay item) s)) in
  (1 <= n <= Z.to_nat (UPLOAD_MAX_RETRIES + 1))%nat.
Proof.
  intros Hpos n. subst n.
  pose proof (uploadFileWithRetry_requests accessToken driveId folderId item s
                Hpos) as Hfile. cbv zeta in Hfile.
  unfold upload_one. rewrite trace_bind.
  destruct (result (uploadFileWithRetry accessToken driveId folderId item) s)
    as [[|]|e]; [| |exact Hfile];
    rewrite requests_app, length_app; cbn; lia.
Qed.

(** X12. The upload phase sends at least one request per file and at most
    [UPLOAD_MAX_RETRIES + 1] per file: no file is skipped, and none is
    tried more often than the retry budget allows. *)
Theorem upload_requests_bounded (sourceFiles : list UploadFile)
    (delay : number) (s : State) :
  0 <= UPLOAD_MAX_RETRIES ->
  let n := length (requests (trace (uploadFiles accessToken driveId folderId
                                      sourceFiles delay) s)) in
  (length sourceFiles <= n
   <= length sourceFiles * Z.to_nat (UPLOAD_MAX_RETRIES + 1))%nat.
Proof.
  intros Hpos n. subst n. revert s.
  induction sourceFiles as [|item rest IH]; intros s; [cbn; lia|].
  unfold uploadFiles. cbn [for_of]. rewrite trace_bind.
  destruct (upload_one_outcome accessToken driveId folderId delay item s)
    as (b & s' & t & Hone & _).
  pose proof (upload_one_requests delay item s Hpos) as Hitem.
  cbv zeta in Hitem.
  assert (Hres : result (upload_one accessToken driveId folderId delay item) s
                 = Ok tt) by (unfold result; rewrite Hone; reflexivity).
  assert (Hfin : final (upload_one accessToken driveId folderId delay item) s
                 = s') by (unfold final; rewrite Hone; reflexivity).
  rewrite Hres, Hfin, requests_app, length_app.
  specialize (IH s'). unfold uploadFiles in IH.
  cbn [length]. lia.
Qed.

End UploadPhaseRequests.

Lemma upload_requests_bounded_witness :
  let files := [{| file_name := "one.txt"; file_path := "/tmp/c/docx/a/one.txt";
                   file_relative := "/a/one.txt" |};
                {| file_name := "two.txt";
                   file_path := "/tmp/c/docx/a/b/two.txt";
                   file_relative := "/a/b/two.txt" |}] in
  let n := length (requests
                     (trace (@uploadFiles Scripted.host "tok" "d" "root" files
                               (of_Z 10))
                        (Scripted.start
                           [Scripted.answered 503; Scripted.created "f1";
                            Scripted.created "f2"]))) in
  (2 <= n <= 6)%nat.
Proof.
  cbv zeta.
  apply (@upload_requests_bounded Scripted.host "tok" "d" "root"
           [{| file_name := "one.txt"; file_path := "/tmp/c/docx/a/one.txt";
               file_relative := "/a/one.txt" |};
            {| file_name := "two.txt"; file_path := "/tmp/c/docx/a/b/two.txt";
               file_relative := "/a/b/two.txt" |}]
           (of_Z 10)
           (Scripted.start
              [Scripted.answered 503; Scripted.created "f1";
               Scripted.created "f2"])).
  cbn. lia.
Defined.

(** ** Downloads: what happens when the archive cannot be stored *)

Section StoreFailure.
Context `{host : Host}.
Variable store : string -> Response -> M unit.

Lemma download_classify_plain (now : Z) (msg : string) :
  (forall status, status ∈ download_retryableStatuses ->
     includes (String_of_Z status) msg = false) ->
  (download_classify now (new_Error msg)).1 = false.
Proof.
  intros Hnone. unfold download_classify, new_Error.
  cbn [err_name err_response err_message String.eqb Ascii.eqb Bool.eqb fst].
  apply andb_false_iff. right.
  destruct (existsb _ download_retryableStatuses) eqn:Hex; [|reflexivity].
  apply existsb_exists in Hex as (status & Hin & Hinc).
  rewrite Hnone in Hinc by (apply list_elem_of_In, Hin). discriminate Hinc.
Qed.

(** X13. When the download is answered with a success but storing the
    archive fails, the error is rethrown as a plain error whose message is
    the original one (when it is not empty) behind "Failed to download
    zip: "; its name and response are lost, so unless that message happens
    to contain a retryable status code the download is not retried, even
    where the original error was a network error. *)
Theorem store_failure_not_retried (downloadUrl zipDestination : string)
    (s : State) (res : Response) (w1 : World) (e : Error) (s2 : State)
    (t2 : Trace) :
  let req :=
    {| req_url := downloadUrl;
       req_init := {| init_method := GET; init_token := "";
                      init_contentType := None; init_body := NoBody |} |} in
  let wrapped := new_Error ("Failed to download zip: " +:+ err_message e) in
  0 <= DOWNLOAD_MAX_RETRIES ->
  fetch_step req (st_world s) = (Responded res, w1) ->
  resp_ok res = true ->
  store zipDestination res (mkState w1 (st_report s) (st_source s))
  = (Throw e, s2, t2) ->
  truthy (err_message e) = true ->
  (forall status, status ∈ download_retryableStatuses ->
     includes (String_of_Z status) (err_message wrapped) = false) ->
  fetchZipWithRetry store downloadUrl zipDestination s =
    (Throw wrapped, s2,
     [EvAttempt 0 (EvFetch req (Responded res) None :: t2)]).
Proof.
  intros req wrapped Hpos Hfetch Hok Hstore _ Hnone.
  assert (Hfuel : exists n, Z.to_nat (DOWNLOAD_MAX_RETRIES + 1) = S n)
    by (exists (Z.to_nat DOWNLOAD_MAX_RETRIES); lia).
  destruct Hfuel as [n Hn].
  unfold fetchZipWithRetry, retryDownloadOperation, retry. rewrite Hn.
  apply retry_loop_gives_up.
  - unfold fetchZip, bind at 1, fetch, fetch_noted. fold req.
    rewrite Hfetch, Hok. cbn [negb]. unfold try_catch, bind at 1.
    rewrite Hstore. unfold throw. rewrite app_nil_r. reflexivity.
  - left. apply download_classify_plain. exact Hnone.
Qed.

End StoreFailure.

Lemma store_failure_not_retried_witness :
  let store := fun (_ : string) (_ : Response) =>
                 @throw Scripted.host unit
                   {| err_name := "TypeError"; err_message := "terminated";
                      err_response := None |} in
  let run := @fetchZipWithRetry Scripted.host store "https://x/y.zip" "/tmp/z"
               (Scripted.start [Scripted.answered 200; Scripted.answered 200]) in
  run.1.1 = Throw (new_Error "Failed to download zip: terminated")
  /\ attempts run.2 = 1%nat.
Proof.
  cbv zeta.
  rewrite (@store_failure_not_retried Scripted.host
             (fun _ _ => @throw Scripted.host unit
                           {| err_name := "TypeError";
                              err_message := "terminated";
                              err_response := None |})
             "https://x/y.zip" "/tmp/z"
             (Scripted.start [Scripted.answered 200; Scripted.answered 200])
             (Scripted.status_only 200 None)
             {| Scripted.script := [Scripted.answered 200];
                Scripted.clock := 0 |}
             {| err_name := "TypeError"; err_message := "terminated";
                err_response := None |}
             (@mkState Scripted.host
                {| Scripted.script := [Scripted.answered 200];
                   Scripted.clock := 0 |} uploadReport0 sourceStructure0)
             []).
  - split; reflexivity.
  - cbn. lia.
  - reflexivity.
  - reflexivity.
  - reflexivity.
  - reflexivity.
  - intros status Hin. unfold download_retryableStatuses in Hin.
    repeat (apply elem_of_cons in Hin as [-> | Hin]; [vm_compute; reflexivity|]).
    apply elem_of_nil in Hin. destruct Hin.
Defined.

(** ** retryHttpOperation *)

Section HttpRetryBounds.
Context `{host : Host}.
Variable operation : M Response.
Variable context : string.
Variable maxRetries : Z.

Local Abbreviation hloop := (http_loop operation context maxRetries).

Lemma existsb_status_true (status : Z) (statuses : list Z) :
  existsb (Z.eqb status) statuses = false -> status ∉ statuses.
Proof.
  intros Hex Hin. apply list_elem_of_In in Hin.
  assert (existsb (Z.eqb status) statuses = true)
    by (apply existsb_exists; exists status; split;
        [exact Hin | apply Z.eqb_refl]).
  congruence.
Qed.

(** one iteration of the loop *)
Lemma http_loop_step (remaining : nat) (attempt : Z)
    (lastError : option Error) (s : State) :
  hloop (S remaining) attempt lastError s =
    let '(r, s1, t1) := operation s in
    let slept ms :=
      mkState (sleep_step ms (st_world s1)) (st_report s1) (st_source s1) in
    match r with
    | Ok response =>
        if resp_ok response
           || negb (existsb (Z.eqb (resp_status response))
                            http_retryableStatuses)
        then
          (Ok response, s1,
           EvAttempt attempt t1 :: if 0 <? attempt then [EvCore Info] else [])
        else if attempt <? maxRetries then
          let '(r2, s2, t2) :=
            hloop remaining (attempt + 1) lastError
                  (slept (http_waitTime attempt response)) in
          (r2, s2,
           EvAttempt attempt t1 :: EvCore Info
           :: EvSleep (http_waitTime attempt response) :: t2)
        else (Ok response, s1, [EvAttempt attempt t1; EvCore Warning])
    | Throw e =>
        if attempt <? maxRetries then
          let '(r2, s2, t2) :=
            hloop remaining (attempt + 1) (Some e)
                  (slept (of_Z (2 ^ attempt * 1000))) in
          (r2, s2,
           EvAttempt attempt t1 :: EvCore Info
           :: EvSleep (of_Z (2 ^ attempt * 1000)) :: t2)
        else
          let '(r2, s2, t2) := hloop remaining (attempt + 1) (Some e) s1 in
          (r2, s2, EvAttempt attempt t1 :: t2)
    end.
Proof.
  cbn [http_loop]. unfold bind at 1, invoke.
  destruct (operation s) as [[[response|e] s1] t1].
  - destruct (resp_ok response || _).
    + destruct (0 <? attempt); reflexivity.
    + destruct (attempt <? maxRetries); [|reflexivity].
      unfold bind, core_info, emit, sleep.
      cbn [st_world st_report st_source].
      destruct (hloop remaining (attempt + 1) lastError _) as [[r2 s2] t2].
      reflexivity.
  - destruct (attempt <? maxRetries).
    + unfold bind, core_info, emit, sleep.
      cbn [st_world st_report st_source].
      destruct (hloop remaining (attempt + 1) (Some e) _) as [[r2 s2] t2].
      reflexivity.
    + unfold bind, ret.
      destruct (hloop remaining (attempt + 1) (Some e) s1) as [[r2 s2] t2].
      reflexivity.
Qed.

Lemma pauses_cons_attempt (n : Z) (inner t : Trace) :
  pauses (EvAttempt n inner :: t) = pauses t.
Proof. reflexivity. Qed.

Lemma pauses_skip_core (lvl : Level) (t : Trace) :
  pauses (EvCore lvl :: t) = pauses t.
Proof. reflexivity. Qed.

Lemma pauses_cons_sleep (ms : number) (t : Trace) :
  pauses (EvSleep ms :: t) = S (pauses t).
Proof. reflexivity. Qed.

Lemma http_loop_settled (remaining : nat) :
  forall (attempt : Z) (lastError : option Error) (s : State),
    Z.of_nat remaining = Z.max 0 (maxRetries + 1 - attempt) ->
    http_settled remaining (result (hloop remaining attempt lastError) s)
                 (trace (hloop remaining attempt lastError) s).
Proof.
  induction remaining as [|remaining IH]; intros attempt lastError s Hrem.
  - unfold http_settled. cbn. repeat split; try lia; congruence.
  - unfold result, trace. rewrite http_loop_step.
    destruct (operation s) as [[[response|e] s1] t1]; cbv zeta.
    + destruct (resp_ok response
                || negb (existsb (Z.eqb (resp_status response))
                                 http_retryableStatuses)) eqn:Hdone.
      * assert (Hwhy : resp_ok response = true
                       \/ resp_status response ∉ http_retryableStatuses).
        { apply orb_true_iff in Hdone as [Hok | Hnot]; [left; exact Hok|].
          right. apply existsb_status_true, negb_true_iff, Hnot. }
        unfold http_settled. cbn [fst snd].
        rewrite attempts_cons_attempt, pauses_cons_attempt.
        destruct (0 <? attempt); cbn [attempts pauses List.filter is_attempt
                                        is_pause length];
          (split; [lia | split; [lia | split; [lia|]]]);
          destruct Hwhy as [Hw | Hw]; [left | right; left | left | right; left];
          exact Hw.
      * destruct (attempt <? maxRetries) eqn:Hlt.
        -- apply Z.ltb_lt in Hlt.
           specialize (IH (attempt + 1) lastError
                          (mkState (sleep_step (http_waitTime attempt response)
                                      (st_world s1))
                                   (st_report s1) (st_source s1))
                          ltac:(lia)).
           unfold result, trace in IH.
           destruct (hloop remaining (attempt + 1) lastError _)
             as [[r s2] t2].
           cbn [fst snd] in *.
           destruct IH as (Hle & Hone & Hp & Hend).
           assert (Hleft : remaining <> O) by lia. specialize (Hone Hleft).
           unfold http_settled.
           rewrite attempts_cons_attempt, attempts_skip_core,
             attempts_skip_sleep, pauses_cons_attempt, pauses_skip_core,
             pauses_cons_sleep.
           split; [lia | split; [lia | split; [lia|]]].
           destruct r as [resp|e]; [|lia].
           destruct Hend as [Hok | [Hnot | Hall]];
             [left; exact Hok | right; left; exact Hnot | right; right; lia].
        -- apply Z.ltb_ge in Hlt.
           unfold http_settled. cbn [fst snd].
           rewrite attempts_cons_attempt, attempts_skip_core,
             pauses_cons_attempt, pauses_skip_core.
           cbn [attempts pauses List.filter length].
           split; [lia | split; [lia | split; [lia|]]].
           right. right. lia.
    + destruct (attempt <? maxRetries) eqn:Hlt.
      * apply Z.ltb_lt in Hlt.
        specialize (IH (attempt + 1) (Some e)
                       (mkState (sleep_step (of_Z (2 ^ attempt * 1000))
                                   (st_world s1))
                                (st_report s1) (st_source s1))
                       ltac:(lia)).
        unfold result, trace in IH.
        destruct (hloop remaining (attempt + 1) (Some e) _) as [[r s2] t2].
        cbn [fst snd] in *.
        destruct IH as (Hle & Hone & Hp & Hend).
        assert (Hleft : remaining <> O) by lia. specialize (Hone Hleft).
        unfold http_settled.
        rewrite attempts_cons_attempt, attempts_skip_core,
          attempts_skip_sleep, pauses_cons_attempt, pauses_skip_core,
          pauses_cons_sleep.
        split; [lia | split; [lia | split; [lia|]]].
        destruct r as [resp|e']; [|lia].
        destruct Hend as [Hok | [Hnot | Hall]];
          [left; exact Hok | right; left; exact Hnot | right; right; lia].
      * apply Z.ltb_ge in Hlt.
        assert (remaining = O) by lia. subst remaining.
        unfold http_settled. cbn. repeat split; lia.
Qed.

End HttpRetryBounds.

Section HttpRetryOutcome.
Context `{host : Host}.
Variable operation : M Response.
Variable context : string.
Variable maxRetries : Z.

Lemma existsb_status_in (status : Z) (statuses : list Z) :
  existsb (Z.eqb status) statuses = true -> status ∈ statuses.
Proof.
  intros Hex. apply existsb_exists in Hex as (x & Hin & Heq).
  apply Z.eqb_eq in Heq as <-. apply list_elem_of_In, Hin.
Qed.

(** the invocations of one run of the loop: all but the last failed, the
    outcome of the last is the outcome of the loop, and the loop stops on a
    failure only when no iteration is left *)
Lemma http_loop_chain (remaining : nat) :
  forall (attempt : Z) (lastError : option Error) (s : State),
    Z.of_nat (S remaining) = Z.max 0 (maxRetries + 1 - attempt) ->
    let run := http_loop operation context maxRetries (S remaining) attempt
                 lastError in
    let n := attempts (trace run s) in
    (1 <= n)%nat
    /\ result run s
       = result operation (http_invoked_in operation (n - 1) attempt s)
    /\ (forall i, (i < n - 1)%nat ->
          http_failed
            (result operation (http_invoked_in operation i attempt s)))
    /\ (http_failed
          (result operation (http_invoked_in operation (n - 1) attempt s)) ->
        n = S remaining).
Proof.
  induction remaining as [|remaining IH]; intros attempt lastError s Hrem;
    cbv zeta; unfold result at 1, trace; rewrite http_loop_step;
    destruct (operation s) as [[[response|e] s1] t1] eqn:Hop; cbv zeta.
  - (* one iteration left, a response *)
    assert (Hres : result operation s = Ok response)
      by (unfold result; rewrite Hop; reflexivity).
    replace (attempt <? maxRetries) with false
      by (symmetry; apply Z.ltb_ge; lia).
    destruct (resp_ok response || _);
      [destruct (0 <? attempt)|]; cbn [fst snd];
      rewrite ?attempts_cons_attempt, ?attempts_skip_core;
      cbn [attempts List.filter length Nat.sub http_invoked_in];
      (split; [lia | split; [symmetry; exact Hres | split; [lia | auto]]]).
  - (* one iteration left, an error *)
    assert (Hres : result operation s = Throw e)
      by (unfold result; rewrite Hop; reflexivity).
    replace (attempt <? maxRetries) with false
      by (symmetry; apply Z.ltb_ge; lia).
    cbn [http_loop throw fst snd].
    rewrite attempts_cons_attempt.
    cbn [attempts List.filter length Nat.sub http_invoked_in default].
    split; [lia | split; [symmetry; exact Hres | split; [lia | auto]]].
  - (* more iterations left, a response *)
    assert (Hres : result operation s = Ok response)
      by (unfold result; rewrite Hop; reflexivity).
    replace (attempt <? maxRetries) with true
      by (symmetry; apply Z.ltb_lt; lia).
    destruct (resp_ok response
              || negb (existsb (Z.eqb (resp_status response))
                               http_retryableStatuses)) eqn:Hdone.
    + assert (Hnot : ~ http_failed (Ok response)).
      { intros [Hok Hin]. apply orb_true_iff in Hdone as [Hd | Hd];
          [congruence|].
        apply negb_true_iff, existsb_status_true in Hd. contradiction. }
      destruct (0 <? attempt); cbn [fst snd];
        rewrite ?attempts_cons_attempt, ?attempts_skip_core;
        cbn [attempts List.filter length Nat.sub http_invoked_in];
        (split; [lia | split; [symmetry; exact Hres | split; [lia|]]]);
        rewrite Hres; intros Hf; contradiction.
    + assert (Hfail : http_failed (Ok response)).
      { apply orb_false_iff in Hdone as [Hok Hin]. split; [exact Hok|].
        apply negb_false_iff in Hin. apply existsb_status_in, Hin. }
      assert (Hnext : http_retried operation attempt s
                      = mkState (sleep_step (http_waitTime attempt response)
                                   (st_world s1))
                                (st_report s1) (st_source s1))
        by (unfold http_retried; rewrite Hop; reflexivity).
      rewrite <- Hnext.
      specialize (IH (attempt + 1) lastError
                     (http_retried operation attempt s) ltac:(lia)).
      cbv zeta in IH. unfold result at 1, trace in IH.
      destruct (http_loop _ _ _ (S remaining) _ _ _) as [[r2 s2] t2].
      cbn [fst snd] in *.
      destruct IH as (Hone & Hlast & Hbefore & Hstop).
      rewrite attempts_cons_attempt, attempts_skip_core, attempts_skip_sleep.
      replace (S (attempts t2) - 1)%nat with (S (attempts t2 - 1)) by lia.
      cbn [http_invoked_in].
      split; [lia|]. split; [exact Hlast|]. split.
      * intros [|i] Hi; [cbn [http_invoked_in]; rewrite Hres; exact Hfail|].
        cbn [http_invoked_in]. apply Hbefore. lia.
      * intros Hf. rewrite (Hstop Hf). reflexivity.
  - (* more iterations left, an error *)
    assert (Hres : result operation s = Throw e)
      by (unfold result; rewrite Hop; reflexivity).
    replace (attempt <? maxRetries) with true
      by (symmetry; apply Z.ltb_lt; lia).
    assert (Hnext : http_retried operation attempt s
                    = mkState (sleep_step (of_Z (2 ^ attempt * 1000))
                                 (st_world s1))
                              (st_report s1) (st_source s1))
      by (unfold http_retried; rewrite Hop; reflexivity).
    rewrite <- Hnext.
    specialize (IH (attempt + 1) (Some e)
                   (http_retried operation attempt s) ltac:(lia)).
    cbv zeta in IH. unfold result at 1, trace in IH.
    destruct (http_loop _ _ _ (S remaining) _ _ _) as [[r2 s2] t2].
    cbn [fst snd] in *.
    destruct IH as (Hone & Hlast & Hbefore & Hstop).
    rewrite attempts_cons_attempt, attempts_skip_core, attempts_skip_sleep.
    replace (S (attempts t2) - 1)%nat with (S (attempts t2 - 1)) by lia.
    cbn [http_invoked_in].
    split; [lia|]. split; [exact Hlast|]. split.
    + intros [|i] Hi; [cbn [http_invoked_in]; rewrite Hres; exact I|].
      cbn [http_invoked_in]. apply Hbefore. lia.
    + intros Hf. rewrite (Hstop Hf). reflexivity.
Qed.

(** X14. retryHttpOperation invokes the operation at most [maxRetries + 1]
    times (at least once when [maxRetries] is not negative), pausing exactly
    once between two invocations. A response that is not ok and has a
    retryable status is handed back, and an error is thrown, only after the
    last invocation the budget allows. *)
Theorem http_budget_spent_before_failure (s : State) :
  let t := trace (retryHttpOperation operation context maxRetries) s in
  (attempts t <= Z.to_nat (maxRetries + 1))%nat
  /\ (0 <= maxRetries -> (1 <= attempts t)%nat)
  /\ pauses t = (attempts t - 1)%nat
  /\ match result (retryHttpOperation operation context maxRetries) s with
     | Ok response =>
         resp_ok response = true
         \/ resp_status response ∉ http_retryableStatuses
         \/ attempts t = Z.to_nat (maxRetries + 1)
     | Throw _ => attempts t = Z.to_nat (maxRetries + 1)
     end.
Proof.
  intros t.
  destruct (http_loop_settled operation context maxRetries
              (Z.to_nat (maxRetries + 1)) 0 None s (retry_budget maxRetries))
    as (Hle & Hone & Hp & Hend).
  split; [exact Hle|]. split; [intros Hpos; apply Hone; lia|].
  split; [exact Hp | exact Hend].
Qed.

(** X15. With a budget that is not negative, retryHttpOperation invokes the
    operation [n] times in a row, each time in the state the previous
    invocation and the pause left. Every invocation but the last failed
    (threw an error of any kind, or gave a response that is not ok with a
    retryable status); what the last one returned or threw is what
    retryHttpOperation returns or throws, unchanged; and the last one is a
    failure only when [n] is [maxRetries + 1], so that no failure is left
    without a retry while the budget lasts, a response is never turned into
    an error, and the "failed after ... attempts" error is never thrown. *)
Theorem http_outcome_is_last_invocation (s : State) :
  0 <= maxRetries ->
  let run := retryHttpOperation operation context maxRetries in
  let n := attempts (trace run s) in
  (1 <= n <= Z.to_nat (maxRetries + 1))%nat
  /\ result run s = result operation (http_invoked_in operation (n - 1) 0 s)
  /\ (forall i, (i < n - 1)%nat ->
        http_failed (result operation (http_invoked_in operation i 0 s)))
  /\ (http_failed
        (result operation (http_invoked_in operation (n - 1) 0 s)) ->
      n = Z.to_nat (maxRetries + 1)).
Proof.
  intros Hpos run n. subst run n. unfold retryHttpOperation.
  destruct (http_loop_settled operation context maxRetries
              (Z.to_nat (maxRetries + 1)) 0 None s (retry_budget maxRetries))
    as (Hle & _).
  destruct (Z.to_nat (maxRetries + 1)) as [|remaining] eqn:Hn; [lia|].
  destruct (http_loop_chain remaining 0 None s ltac:(lia))
    as (Hone & Hlast & Hbefore & Hstop).
  split; [split; [exact Hone | exact Hle]|].
  split; [exact Hlast|]. split; [exact Hbefore | exact Hstop].
Qed.


End HttpRetryOutcome.

(** Worked example for X15: three 503 answers under a budget of two
    retries; the third response is handed back, after three invocations. *)
Lemma http_outcome_is_last_invocation_witness :
  let operation :=
    @fetch Scripted.host "https://admin.hlx.page/preview/o/r/main/a"
      {| init_method := POST; init_token := "";
         init_contentType := Some "application/json"; init_body := NoBody |} in
  let s0 := Scripted.start
              [Scripted.answered 503; Scripted.answered 503;
               Scripted.answered 503; Scripted.answered 200] in
  let run := @retryHttpOperation Scripted.host operation "/a" 2 in
  attempts (trace run s0) = 3%nat
  /\ result run s0 = result operation (http_invoked_in operation 2 0 s0)
  /\ result run s0 = Ok (Scripted.status_only 503 None).
Proof.
  cbv zeta.
  pose proof (@http_outcome_is_last_invocation Scripted.host
                (@fetch Scripted.host "https://admin.hlx.page/preview/o/r/main/a"
                   {| init_method := POST; init_token := "";
                      init_contentType := Some "application/json";
                      init_body := NoBody |})
                "/a" 2
                (Scripted.start
                   [Scripted.answered 503; Scripted.answered 503;
                    Scripted.answered 503; Scripted.answered 200])
                ltac:(lia)) as H.
  cbv zeta in H. destruct H as (_ & Hlast & _).
  assert (Hn : attempts
                 (trace (@retryHttpOperation Scripted.host
                           (@fetch Scripted.host
                              "https://admin.hlx.page/preview/o/r/main/a"
                              {| init_method := POST; init_token := "";
                                 init_contentType := Some "application/json";
                                 init_body := NoBody |}) "/a" 2)
                    (Scripted.start
                       [Scripted.answered 503; Scripted.answered 503;
                        Scripted.answered 503; Scripted.answered 200]))
               = 3%nat) by (vm_compute; reflexivity).
  rewrite Hn in Hlast.
  split; [exact Hn|]. split; [exact Hlast|]. vm_compute. reflexivity.
Defined.


(** ** removeExtension *)

Section Extensions.
Import Publish.

Lemma last_index_app_none (c : ascii) (a b : string) :
  last_index c b = None -> last_index c (a +:+ b) = last_index c a.
Proof.
  intros Hb. induction a as [|x a IH]; [exact Hb|].
  change (String x a +:+ b) with (String x (a +:+ b)).
  cbn [last_index]. rewrite IH. reflexivity.
Qed.

Lemma last_index_app_char (c : ascii) (a b : string) :
  last_index c b = None ->
  last_index c (a +:+ String c b) = Some (String.length a).
Proof.
  intros Hb. induction a as [|x a IH].
  - change ("" +:+ String c b) with (String c b).
    cbn [last_index]. rewrite Hb, Ascii.eqb_refl. reflexivity.
  - change (String x a +:+ String c b) with (String x (a +:+ String c b)).
    cbn [last_index]. rewrite IH. reflexivity.
Qed.

Lemma last_index_lt (c : ascii) (s : string) (i : nat) :
  last_index c s = Some i -> (i < String.length s)%nat.
Proof.
  revert i. induction s as [|x s IH]; intros i; [discriminate|].
  cbn [last_index String.length].
  destruct (last_index c s) as [j|].
  - intros [= <-]. specialize (IH j eq_refl). lia.
  - destruct (Ascii.eqb x c); [|discriminate]. intros [= <-]. lia.
Qed.

Lemma lastIndexOf_absent (c : ascii) (s : string) :
  lastIndexOf c s = -1 <-> last_index c s = None.
Proof.
  unfold lastIndexOf. destruct (last_index c s); split; try reflexivity;
    try discriminate; lia.
Qed.

Lemma take_drop_chars (n : nat) (s : string) :
  take_chars n s +:+ drop_chars n s = s.
Proof.
  revert s. induction n as [|n IH]; intros [|x s]; try reflexivity.
  cbn [take_chars drop_chars].
  change (String x (take_chars n s) +:+ drop_chars n s)
    with (String x (take_chars n s +:+ drop_chars n s)).
  rewrite IH. reflexivity.
Qed.

Lemma drop_chars_app (n : nat) (a b : string) :
  (n <= String.length a)%nat ->
  drop_chars n (a +:+ b) = drop_chars n a +:+ b.
Proof.
  revert a. induction n as [|n IH]; intros a Hn; [reflexivity|].
  destruct a as [|x a]; [cbn in Hn; lia|].
  change (String x a +:+ b) with (String x (a +:+ b)).
  cbn [drop_chars]. apply IH. cbn in Hn. lia.
Qed.

Lemma take_chars_app (n : nat) (a b : string) :
  (n <= String.length a)%nat -> take_chars n (a +:+ b) = take_chars n a.
Proof.
  revert a. induction n as [|n IH]; intros a Hn.
  - destruct a, b; reflexivity.
  - destruct a as [|x a]; [cbn in Hn; lia|].
    change (String x a +:+ b) with (String x (a +:+ b)).
    cbn [take_chars]. rewrite IH; [reflexivity | cbn in Hn; lia].
Qed.

Lemma take_chars_all (a b : string) : take_chars (String.length a) (a +:+ b) = a.
Proof.
  induction a as [|x a IH]; [destruct b; reflexivity|].
  change (String x a +:+ b) with (String x (a +:+ b)).
  cbn [String.length take_chars]. rewrite IH. reflexivity.
Qed.

Lemma length_take_chars (n : nat) (s : string) :
  String.length (take_chars n s) = Nat.min n (String.length s).
Proof.
  revert s. induction n as [|n IH]; intros [|x s]; try reflexivity.
  cbn [take_chars String.length]. rewrite IH. reflexivity.
Qed.

Lemma length_drop_chars (n : nat) (s : string) :
  String.length (drop_chars n s) = (String.length s - n)%nat.
Proof.
  revert s. induction n as [|n IH]; intros [|x s]; try reflexivity.
  cbn [drop_chars String.length]. rewrite IH. reflexivity.
Qed.

Lemma length_append (a b : string) :
  String.length (a +:+ b) = (String.length a + String.length b)%nat.
Proof.
  induction a as [|x a IH]; [reflexivity|].
  change (String x a +:+ b) with (String x (a +:+ b)).
  cbn [String.length]. rewrite IH. reflexivity.
Qed.

(** the index after the last slash lies within the path *)
Lemma after_last_slash (path : string) :
  (Z.to_nat (lastIndexOf "/" path + 1) <= String.length path)%nat.
Proof.
  unfold lastIndexOf. destruct (last_index "/" path) as [i|] eqn:Hi.
  - apply last_index_lt in Hi. lia.
  - cbn. lia.
Qed.

(** what is removed is never put back: the result is the path or shorter *)
Lemma removeExtension_shorter (path : string) :
  removeExtension path = path
  \/ (String.length (removeExtension path) < String.length path)%nat.
Proof.
  unfold removeExtension.
  set (k := Z.to_nat (lastIndexOf "/" path + 1)).
  pose proof (after_last_slash path) as Hk. fold k in Hk.
  destruct (last_index "." (drop_chars k path)) as [d|] eqn:Hd.
  - assert (Hdot : lastIndexOf "." (drop_chars k path) = Z.of_nat d)
      by (unfold lastIndexOf; rewrite Hd; reflexivity).
    rewrite Hdot.
    right. apply last_index_lt in Hd. rewrite length_drop_chars in Hd.
    replace (Z.of_nat d =? -1) with false by (symmetry; apply Z.eqb_neq; lia).
    rewrite length_append, !length_take_chars, length_drop_chars. lia.
  - assert (Hdot : lastIndexOf "." (drop_chars k path) = -1)
      by (unfold lastIndexOf; rewrite Hd; reflexivity).
    rewrite Hdot. left. reflexivity.
Qed.

(** X17. removeExtension undoes the appending of an extension, and touches
    nothing else: a path followed by [.] and an extension (free of [.] and
    [/]) gives the path back, whatever dots and slashes the path holds; a
    path whose last component has no dot is returned as it is, also when a
    directory name has one. *)
Theorem removeExtension_removes_last_extension :
  (forall stem ext,
      lastIndexOf "." ext = -1 -> lastIndexOf "/" ext = -1 ->
      removeExtension (stem +:+ "." +:+ ext) = stem)
  /\ (forall dir name,
        lastIndexOf "." name = -1 -> lastIndexOf "/" name = -1 ->
        removeExtension (dir +:+ "/" +:+ name) = dir +:+ "/" +:+ name)
  /\ (forall name,
        lastIndexOf "." name = -1 -> removeExtension name = name).
Proof.
  split; [|split].
  - intros stem ext Hdot Hslash.
    apply lastIndexOf_absent in Hdot, Hslash.
    change (stem +:+ "." +:+ ext) with (stem +:+ String "." ext).
    unfold removeExtension.
    assert (Hs : lastIndexOf "/" (stem +:+ String "." ext)
                 = lastIndexOf "/" stem).
    { unfold lastIndexOf. rewrite last_index_app_none; [reflexivity|].
      cbn [last_index]. rewrite Hslash. reflexivity. }
    rewrite Hs.
    set (k := Z.to_nat (lastIndexOf "/" stem + 1)).
    pose proof (after_last_slash stem) as Hk. fold k in Hk.
    rewrite drop_chars_app by exact Hk.
    unfold lastIndexOf. rewrite last_index_app_char by exact Hdot.
    replace (Z.of_nat (String.length (drop_chars k stem)) =? -1) with false
      by (symmetry; apply Z.eqb_neq; lia).
    rewrite Nat2Z.id, take_chars_app by exact Hk.
    rewrite take_chars_all. apply take_drop_chars.
  - intros dir name Hdot Hslash.
    apply lastIndexOf_absent in Hdot, Hslash.
    change (dir +:+ "/" +:+ name) with (dir +:+ String "/" name).
    unfold removeExtension.
    assert (Hs : lastIndexOf "/" (dir +:+ String "/" name)
                 = Z.of_nat (String.length dir)).
    { unfold lastIndexOf. rewrite last_index_app_char by exact Hslash.
      reflexivity. }
    rewrite Hs.
    replace (Z.to_nat (Z.of_nat (String.length dir) + 1))
      with (S (String.length dir)) by lia.
    assert (Hfile : drop_chars (S (String.length dir))
                      (dir +:+ String "/" name) = name).
    { clear. induction dir as [|x dir IH]; [reflexivity | exact IH]. }
    rewrite Hfile. unfold lastIndexOf. rewrite Hdot. reflexivity.
  - intros name Hdot. unfold removeExtension.
    destruct (lastIndexOf "." (drop_chars _ name) =? -1) eqn:Hd;
      [reflexivity|].
    exfalso. apply Z.eqb_neq in Hd. apply Hd. apply lastIndexOf_absent.
    apply lastIndexOf_absent in Hdot. clear Hd.
    generalize (Z.to_nat (lastIndexOf "/" name + 1)). intros n.
    revert name Hdot. induction n as [|n IH]; intros name Hdot; [exact Hdot|].
    destruct name as [|x name]; [reflexivity|].
    cbn [drop_chars]. apply IH. cbn [last_index] in Hdot.
    destruct (last_index "." name); [discriminate | reflexivity].
Qed.

End Extensions.

Lemma removeExtension_removes_last_extension_witness :
  Publish.removeExtension "/docs/v1.2/report.final.docx" = "/docs/v1.2/report.final"
  /\ Publish.removeExtension "/docs/v1.2/readme" = "/docs/v1.2/readme".
Proof.
  destruct removeExtension_removes_last_extension as (Hext & Hnone & _).
  split.
  - apply (Hext "/docs/v1.2/report.final" "docx"); reflexivity.
  - apply (Hnone "/docs/v1.2" "readme"); reflexivity.
Defined.

(** ** operateOnPath *)

Section OperateOnPath.
Import Publish.
Context `{host : Host}.
Variable post : string -> M Response.
Variable read_url : string -> Response -> M unit.
Variables endpoint operation : string.

(** one call never throws, and hands over only to a shorter path *)
Lemma operate_once_total (path : string) (s : State) :
  exists next,
    result (operate_once post read_url endpoint path operation) s = Ok next
    /\ forall p, next = inl p -> p = removeExtension path /\ p <> path.
Proof.
  unfold result, operate_once, try_catch, bind at 1.
  destruct (retryHttpOperation _ _ _ s) as [[[resp|e] s1] t1];
    [|eexists; split; [reflexivity | discriminate]].
  destruct (negb (resp_ok resp)).
  - unfold bind at 1, core_debug, emit.
    destruct ((resp_status resp =? 415)
              || String.eqb operation "live" && (resp_status resp =? 404)).
    + destruct (String.eqb (removeExtension path) path) eqn:Hsame.
      * eexists; split; [reflexivity | discriminate].
      * destruct (String.eqb (removeExtension path) (publish_path path)).
        -- eexists; split; [reflexivity | discriminate].
        -- eexists; split; [reflexivity|].
           intros p [= <-]. split; [reflexivity|].
           apply String.eqb_neq, Hsame.
    + destruct (resp_status resp =? 423);
        eexists; (split; [reflexivity | discriminate]).
  - unfold bind at 1.
    destruct (read_url operation resp s1) as [[[[]|e] s2] t2];
      eexists; (split; [reflexivity | discriminate]).
Qed.

Lemma operateOnPath_within_unfold (depth : nat) (path : string) :
  operateOnPath_within post read_url depth endpoint path operation =
    (let* next := operate_once post read_url endpoint path operation in
     match next with
     | inr b => ret b
     | inl noExtPath =>
         match depth with
         | O => throw (new_Error "Maximum call stack size exceeded")
         | S depth' =>
             operateOnPath_within post read_url depth' endpoint noExtPath
                                  operation
         end
     end).
Proof. destruct depth; reflexivity. Qed.

Lemma handed_over_shorter (path p : string) :
  p = removeExtension path -> p <> path ->
  (String.length p < String.length path)%nat.
Proof.
  intros -> Hne. destruct (removeExtension_shorter path) as [Heq | Hlt];
    [contradiction | exact Hlt].
Qed.

Lemma operateOnPath_within_total (depth : nat) :
  forall (path : string) (s : State),
    (String.length path <= depth)%nat ->
    exists b,
      result (operateOnPath_within post read_url depth endpoint path operation)
             s = Ok b.
Proof.
  induction depth as [|depth IH]; intros path s Hlen;
    rewrite operateOnPath_within_unfold, result_bind;
    destruct (operate_once_total path s) as (next & Hnext & Hinl);
    rewrite Hnext; destruct next as [p|b]; try (exists b; reflexivity);
    destruct (Hinl p eq_refl) as [Hp Hne];
    pose proof (handed_over_shorter path p Hp Hne) as Hshort.
  - lia.
  - apply IH. lia.
Qed.

Lemma operateOnPath_within_stable (depth : nat) :
  forall (depth' : nat) (path : string) (s : State),
    (String.length path <= depth)%nat ->
    (String.length path <= depth')%nat ->
    operateOnPath_within post read_url depth endpoint path operation s
    = operateOnPath_within post read_url depth' endpoint path operation s.
Proof.
  induction depth as [|depth IH]; intros depth' path s Hlen Hlen';
    rewrite (operateOnPath_within_unfold depth' path),
      (operateOnPath_within_unfold _ path);
    unfold bind;
    destruct (operate_once_total path s) as (next & Hnext & Hinl);
    unfold result in Hnext;
    destruct (operate_once post read_url endpoint path operation s)
      as [[r s1] t1]; cbn [fst] in Hnext; subst r;
    destruct next as [p|b]; try reflexivity;
    destruct (Hinl p eq_refl) as [Hp Hne];
    pose proof (handed_over_shorter path p Hp Hne) as Hshort.
  - lia.
  - destruct depth' as [|depth']; [lia|].
    rewrite (IH depth' p s1) by lia. reflexivity.
Qed.

(** X18. operateOnPath always answers with a boolean: whatever the requests
    and the reading of the response body do, it never throws, and the calls
    it makes on the path without extension come to an end, since each is
    made on a strictly shorter path (a nesting as deep as the path is long
    is never exceeded, and allowing a deeper one changes nothing). *)
Theorem operateOnPath_always_answers (path : string) (s : State) :
  (exists b,
      result (operateOnPath post read_url endpoint path operation) s = Ok b)
  /\ forall depth,
       (String.length path <= depth)%nat ->
       operateOnPath_within post read_url depth endpoint path operation s
       = operateOnPath post read_url endpoint path operation s.
Proof.
  split.
  - apply operateOnPath_within_total. reflexivity.
  - intros depth Hdepth. apply operateOnPath_within_stable; [exact Hdepth|].
    reflexivity.
Qed.

End OperateOnPath.
